(** * DiagTCM: the multi-symptom selection engine of [multi.py]

    A shallow embedding of [DiagnosticSystem] (file [multi.py]) and the
    properties of its public entry points.

    Modelling conventions.
    - A Python [set] of symptom names is a [gset string]; a Python [dict]
      from disease names to symptom sets is an association list in
      insertion order.
    - A Python [float] is the rational number ([Q]) it denotes.  Every
      floating-point operation of the scoring code is the exact operation
      followed by [rnd], rounding to the nearest double with ties to the
      even mantissa: [x + y] is [rnd (x + y)], a literal [0.4] is
      [rnd (4 # 10)], [float(k)] of an int is [rnd k], the true division
      of two ints is the rounded exact quotient.  The exponent range is
      taken unbounded (no overflow to infinity, no underflow to zero): the
      scores of a catalog that fits in memory stay far inside the range
      of a double.  Scores are compared with [Qltb], which respects [==].
      The match rates of [get_disease_match_scores], a quotient of two
      ints each, are kept as the exact quotient.
    - Exceptions are values of [exn]; a computation that may raise lives in
      [result], one that also draws from numpy's global generator lives in
      [rand].
    - What the Python runtime leaves open is a field of [PyRuntime]:
      the rounding [rnd] by its laws, the C library's [log2],
      [sys.maxsize], the order in which a set object is iterated and the
      order [numpy.argsort] gives to equal keys.
    - In CPython the order of iteration belongs to the set object, not to
      its value.  [set_order] therefore takes, next to the value, the
      object that is iterated ([set_object]: one for each expression of
      the program whose value is iterated); nothing relates the orders of
      two objects, so no statement can follow from "equal sets iterate
      alike" across them.
    - numpy's global generator is a state of type [G] with the four draws
      the program uses, class [NumpyRandom].  [np.random.choice] turns the
      list it is given into an array of fixed-width strings and returns
      [np.str_] items of it, which drops the NUL characters at the end of
      a name ([np_str]). *)

From Stdlib Require Import QArith Qpower Qround Qreduction Lqa.
From stdpp Require Import numbers strings.
From stdpp Require Import base decidable option list sorting sets gmap.


(** ** Exceptions and the error monad *)

Inductive exn : Type :=
| ValueError (msg : string)
| ZeroDivisionError
| IndexError
| KeyError (key : string)
| OverflowError.

Inductive result (A : Type) : Type :=
| Ok (a : A)
| Err (e : exn).
Arguments Ok {A} a.
Arguments Err {A} e.

#[global] Instance result_ret : MRet result := fun A a => Ok a.
#[global] Instance result_bind : MBind result := fun A B f m =>
  match m with
  | Ok a => f a
  | Err e => Err e
  end.

Definition is_Ok {A} (r : result A) : Prop := ∃ a, r = Ok a.

(** [l[i]] on a Python list, for [i >= 0]. *)
Definition py_index {A} (l : list A) (i : nat) : result A :=
  match l !! i with
  | Some x => Ok x
  | None => Err IndexError
  end.

(** ** numpy's global generator and the monad of code that draws from it *)

Class NumpyRandom (G : Type) : Type := {
  (** [np.random.random()]: a float in the half-open unit interval *)
  random_float : G → Q * G;
  random_float_range : ∀ g, (0 <= (random_float g).1 ∧ (random_float g).1 < 1)%Q;
  (** one index below [k] *)
  random_index : nat → G → nat * G;
  random_index_lt : ∀ k g, (0 < k)%nat → ((random_index k g).1 < k)%nat;
  (** [size] indices below [k], with replacement *)
  random_indices : nat → nat → G → list nat * G;
  random_indices_length : ∀ k size g, length (random_indices k size g).1 = size;
  random_indices_lt : ∀ k size g, (0 < k)%nat →
    Forall (fun i => (i < k)%nat) (random_indices k size g).1;
  (** a permutation of the indices below [k] *)
  random_permutation : nat → G → list nat * G;
  random_permutation_perm : ∀ k g, (random_permutation k g).1 ≡ₚ seq 0 k;
}.

Definition rand (G A : Type) : Type := G → result A * G.

#[global] Instance rand_ret {G} : MRet (rand G) := fun A a g => (Ok a, g).
#[global] Instance rand_bind {G} : MBind (rand G) := fun A B f m g =>
  match m g with
  | (Ok a, g') => f a g'
  | (Err e, g') => (Err e, g')
  end.

(** A computation that draws nothing. *)
Definition pure_result {G A} (r : result A) : rand G A := fun g => (r, g).

(** Loops: [for x in l] with an accumulator, and [for _ in range(k)]. *)
Fixpoint foldlM {M : Type → Type} `{!MBind M, !MRet M} {A S}
    (body : S → A → M S) (s : S) (l : list A) : M S :=
  match l with
  | [] => mret s
  | x :: l' => s' ← body s x; foldlM body s' l'
  end.

Fixpoint repeatM {M : Type → Type} `{!MBind M, !MRet M} {S}
    (k : nat) (body : S → M S) (s : S) : M S :=
  match k with
  | O => mret s
  | S k' => s' ← body s; repeatM k' body s'
  end.

(** ** Python numbers *)

Definition Qltb (x y : Q) : bool := negb (Qle_bool y x).

#[global] Instance Qeq_decision (x y : Q) : Decision (x == y)%Q := Qeq_dec x y.

(** [len(x)] as a float operand. *)
Definition Qnat (k : nat) : Q := inject_Z (Z.of_nat k).

(** An item of a numpy array of strings, [np.str_]: the string without
    the NUL characters at its end. *)
Fixpoint np_str (s : string) : string :=
  match s with
  | EmptyString => EmptyString
  | String c s' =>
      match np_str s' with
      | EmptyString => if Ascii.eqb c Ascii.zero then EmptyString else String c EmptyString
      | t => String c t
      end
  end.

(** The names numpy hands back as they are. *)
Definition nul_free (X : gset string) : Prop := ∀ s, s ∈ X → np_str s = s.

(** ** What the runtime leaves open *)

(** The set objects the program iterates, by the expression that holds
    them. *)
Inductive set_object : Type :=
| available_symptoms_object   (* [available_symptoms], the pool of a call *)
| symptoms_object             (* [symptoms], the argument of the scoring functions *)
| individual_object           (* [individual] in [_mutate], [_local_search], [fitness] *)
| parents_object              (* [parent1 | parent2] in [_crossover] *)
| remaining_object            (* [remaining] in [_crossover] *)
| available_object            (* [available_symptoms - individual] in [_mutate] *)
| remaining_symptoms_object   (* [remaining_symptoms] in [_local_search] *)
| next_symptoms_object.       (* [next_symptoms] in the dialogue of final.py *)

Class PyRuntime : Type := {
  (** the C library's [log2] on positive arguments, a function of the
      number and not of the fraction that denotes it *)
  log2 : Q → Q;
  log2_proper : ∀ x y, (x == y)%Q → (log2 x == log2 y)%Q;
  (** rounding to the nearest double, ties to even: a monotone function
      of the number that fixes the doubles, among them the integers up to
      [2^53]; [2^53 + 1] lies half-way between two doubles and goes to
      the even one; only 0 rounds to 0 *)
  rnd : Q → Q;
  rnd_proper : ∀ x y, (x == y)%Q → (rnd x == rnd y)%Q;
  rnd_mono : ∀ x y, (x <= y)%Q → (rnd x <= rnd y)%Q;
  rnd_idem : ∀ x, (rnd (rnd x) == rnd x)%Q;
  rnd_int : ∀ z : Z, (- 2 ^ 53 ≤ z ≤ 2 ^ 53)%Z → (rnd (inject_Z z) == inject_Z z)%Q;
  rnd_tie : (rnd (inject_Z (2 ^ 53 + 1)) == inject_Z (2 ^ 53))%Q;
  rnd_nonzero : ∀ x, (rnd x == 0)%Q → (x == 0)%Q;
  (** [sys.maxsize], the largest [Py_ssize_t] and the largest [numpy.intp] *)
  sys_maxsize : Z;
  sys_maxsize_pos : (0 < sys_maxsize)%Z;
  (** the order in which iterating a set object visits its elements *)
  set_order : set_object → gset string → list string;
  set_order_perm : ∀ o X, set_order o X ≡ₚ elements X;
  (** [numpy.argsort]: the indices of a list, by ascending key; the order
      among equal keys is left open *)
  argsort : list Q → list nat;
  argsort_perm : ∀ l, argsort l ≡ₚ seq 0 (length l);
  argsort_sorted : ∀ l i j a b x y,
    (i < j)%nat → argsort l !! i = Some a → argsort l !! j = Some b →
    l !! a = Some x → l !! b = Some y → (x <= y)%Q;
}.

(** [itertools.combinations(l, r)] for [r >= 0], in its order: by
    positions, lexicographic. *)
Fixpoint combinations {A} (l : list A) (r : nat) : list (list A) :=
  match r, l with
  | O, _ => [[]]
  | S _, [] => []
  | S r', x :: l' => map (cons x) (combinations l' r') ++ combinations l' r
  end.

(** An int that does not fit a [Py_ssize_t]. *)
Definition ssize_overflow `{PyRuntime} (k : Z) : bool :=
  (k <? - sys_maxsize - 1)%Z || (sys_maxsize <? k)%Z.

(** [itertools.combinations] with Python's argument checks: [r] is
    converted to a [Py_ssize_t], then tested for its sign. *)
Definition py_combinations `{PyRuntime} {A} (l : list A) (r : Z) : result (list (list A)) :=
  if ssize_overflow r then Err OverflowError
  else if (r <? 0)%Z then Err (ValueError "r must be non-negative")
  else Ok (combinations l (Z.to_nat r)).

(** [sorted(l, key=..., reverse=True)] on a list already paired with its
    keys: a stable sort, largest key first, equal keys in their order in
    [l]. *)
Fixpoint insert_desc {A} (kx : Q * A) (l : list (Q * A)) : list (Q * A) :=
  match l with
  | [] => [kx]
  | ky :: l' =>
      if Qltb (fst kx) (fst ky) then ky :: insert_desc kx l' else kx :: l
  end.

Definition sort_desc {A} (l : list (Q * A)) : list (Q * A) :=
  foldr insert_desc [] l.

(** The keys are computed first, one call per element, in order; an
    exception in a key aborts the sort. *)
Definition sorted_by_key_desc {A} (key : A → result Q) (l : list A) : result (list A) :=
  ks ← mapM (fun x => k ← key x; mret (k, x)) l;
  mret (map snd (sort_desc ks)).

Section DiagnosticSystem.
Context `{RT : PyRuntime}.

(** Floating-point arithmetic: the exact operation, rounded. *)
Definition float_add (x y : Q) : Q := rnd (x + y).
Definition float_sub (x y : Q) : Q := rnd (x - y).
Definition float_mul (x y : Q) : Q := rnd (x * y).

(** A decimal literal, and [float(k)] for an int [k >= 0]. *)
Definition literal (x : Q) : Q := rnd x.
Definition py_float (k : nat) : Q := rnd (Qnat k).

(** True division [a / b] of two floats, or of two ints given as the
    numbers they are: raises [ZeroDivisionError] on a zero divisor. *)
Definition py_div (a b : Q) : result Q :=
  if Qeq_bool b 0 then Err ZeroDivisionError else Ok (rnd (a / b)).

(** [math.log2]: a domain error outside the positive numbers. *)
Definition math_log2 (x : Q) : result Q :=
  if Qltb 0 x then Ok (log2 x) else Err (ValueError "math domain error").

(** The catalog handed to [__init__]: disease name to symptom set, in
    insertion order.  The keys of a dict are distinct; the one statement
    that depends on it assumes [NoDup] of the keys. *)
Definition catalog : Type := list (string * gset string).

(** [self.all_symptoms]: the union of all the values of the catalog. *)
Definition all_symptoms (ds : catalog) : gset string := ⋃ (map snd ds).

Definition _get_candidate_diseases (ds : catalog) (current_symptoms : gset string) : catalog :=
  filter (fun p => current_symptoms ∩ snd p ≠ ∅) ds.

(** *** Scoring *)

(** One step of the loop of [_split_by_symptoms]: the disease joins the
    group of its key, or opens a new group at the end. *)
Fixpoint add_to_group (key : list bool) (disease : string)
    (groups : list (list bool * list string)) : list (list bool * list string) :=
  match groups with
  | [] => [(key, [disease])]
  | (k, g) :: rest =>
      if decide (k = key) then (k, g ++ [disease]) :: rest
      else (k, g) :: add_to_group key disease rest
  end.

Definition _split_by_symptoms (symptoms : gset string) (candidate_diseases : catalog)
    : list (list string) :=
  let order := set_order symptoms_object symptoms in
  map snd (foldl (fun groups p =>
                    add_to_group (map (fun s => bool_decide (s ∈ snd p)) order) (fst p) groups)
                 [] candidate_diseases).

Definition _calculate_total_information_gain (symptoms : gset string)
    (candidate_diseases : catalog) : result Q :=
  if decide (length candidate_diseases = 0%nat) then Ok 0%Q
  else
    initial_entropy ← math_log2 (py_float (length candidate_diseases));
    let subgroups := _split_by_symptoms symptoms candidate_diseases in
    let total := length candidate_diseases in
    conditional_entropy ←
      foldl (fun acc subgroup =>
               conditional_entropy ← acc;
               prob ← py_div (Qnat (length subgroup)) (Qnat total);
               if Qltb 0 prob then
                 l ← math_log2 prob;
                 mret (float_sub conditional_entropy (float_mul prob l))
               else mret conditional_entropy)
            (Ok 0%Q) subgroups;
    mret (float_sub initial_entropy conditional_entropy).

Definition _calculate_coverage_score (symptoms : gset string)
    (candidate_diseases : catalog) : result Q :=
  total_coverage ←
    foldl (fun acc p =>
             total_coverage ← acc;
             coverage ← py_div (Qnat (size (symptoms ∩ snd p))) (Qnat (size (snd p)));
             mret (float_add total_coverage coverage))
          (Ok 0%Q) candidate_diseases;
  if decide (candidate_diseases = []) then Ok 0%Q
  else py_div total_coverage (py_float (length candidate_diseases)).

Definition _calculate_mutual_information (ds : catalog) (symptom1 symptom2 : string)
    : result Q :=
  let total := length ds in
  let '(count_both, count_s1, count_s2) :=
    foldl (fun '(count_both, count_s1, count_s2) symptoms =>
             let has_s1 := bool_decide (symptom1 ∈ symptoms) in
             let has_s2 := bool_decide (symptom2 ∈ symptoms) in
             ((if has_s1 && has_s2 then S count_both else count_both),
              (if has_s1 then S count_s1 else count_s1),
              (if has_s2 then S count_s2 else count_s2)))
          (O, O, O) (map snd ds) in
  if decide (count_both = 0%nat) then Ok 0%Q
  else
    p_both ← py_div (Qnat count_both) (Qnat total);
    p_s1 ← py_div (Qnat count_s1) (Qnat total);
    p_s2 ← py_div (Qnat count_s2) (Qnat total);
    if Qeq_bool p_both 0 || Qeq_bool p_s1 0 || Qeq_bool p_s2 0 then Ok 0%Q
    else
      q ← py_div p_both (float_mul p_s1 p_s2);
      l ← math_log2 q;
      mret (float_mul p_both l).

Definition _calculate_independence_score (ds : catalog) (symptoms : gset string)
    : result Q :=
  if decide (size symptoms ≤ 1)%nat then Ok 1%Q
  else
    mutual_info ←
      foldl (fun acc pair =>
               mutual_info ← acc;
               match pair with
               | [s1; s2] =>
                   mi ← _calculate_mutual_information ds s1 s2;
                   mret (float_add mutual_info mi)
               | _ => mret mutual_info
               end)
            (Ok 0%Q) (combinations (set_order symptoms_object symptoms) 2);
    py_div 1 (float_add 1 mutual_info).

Definition _calculate_combined_score (ds : catalog) (symptoms : gset string)
    (candidate_diseases : catalog) : result Q :=
  info_gain ← _calculate_total_information_gain symptoms candidate_diseases;
  coverage_score ← _calculate_coverage_score symptoms candidate_diseases;
  independence_score ← _calculate_independence_score ds symptoms;
  mret (float_add
          (float_add (float_mul (literal (4 # 10)) info_gain)
                     (float_mul (literal (4 # 10)) coverage_score))
          (float_mul (literal (2 # 10)) independence_score)).

Definition _calculate_symptom_importance (ds : catalog) (symptom : string)
    (current_symptoms : gset string) (candidate_diseases : catalog) : result Q :=
  let temp_symptoms := current_symptoms ∪ {[symptom]} in
  _calculate_combined_score ds temp_symptoms candidate_diseases.

(** *** The deterministic selectors *)

(** The local function [symptom_score] of both selectors: the importance,
    halved for a denied symptom. *)
Definition symptom_score (ds : catalog) (current_symptoms : gset string)
    (candidate_diseases : catalog) (denied_symptoms : gset string) (symptom : string)
    : result Q :=
  score ← _calculate_symptom_importance ds symptom current_symptoms candidate_diseases;
  if decide (symptom ∈ denied_symptoms) then mret (float_mul score (literal (1 # 2)))
  else mret score.

(** The update [if score > best_score: best_score, best = score, x].
    [None] is the initial state [(float('-inf'), None)], below every
    score. *)
Definition keep_best {A} (best : option (Q * A)) (score : Q) (x : A) : option (Q * A) :=
  match best with
  | None => Some (score, x)
  | Some (best_score, _) => if Qltb best_score score then Some (score, x) else best
  end.

(** [keep_best] along a list of scored entries: the first entry with
    the largest score. *)
Definition best_of {A} (scored : list (Q * A)) : option (Q * A) :=
  foldl (fun best sx => keep_best best (fst sx) (snd sx)) None scored.

(** The inner loop of [_greedy_selection]. *)
Definition greedy_best (ds : catalog) (current_symptoms : gset string)
    (candidate_diseases : catalog) (denied_symptoms selected_symptoms : gset string)
    (symptoms_list : list string) : result (option (Q * string)) :=
  foldl (fun acc symptom =>
           best ← acc;
           let temp_symptoms := current_symptoms ∪ selected_symptoms ∪ {[symptom]} in
           score ← _calculate_combined_score ds temp_symptoms candidate_diseases;
           let score :=
             if decide (symptom ∈ denied_symptoms) then float_mul score (literal (1 # 2))
             else score in
           mret (keep_best best score symptom))
        (Ok None) symptoms_list.

(** [l.remove(x)]: drops the first occurrence. *)
Fixpoint list_remove (x : string) (l : list string) : list string :=
  match l with
  | [] => []
  | y :: l' => if decide (y = x) then l' else y :: list_remove x l'
  end.

(** The loop [for _ in range(n)] of [_greedy_selection], [rounds] rounds
    left.  A best symptom that is the empty string is falsy and is
    neither selected nor removed. *)
Fixpoint greedy_rounds (ds : catalog) (current_symptoms : gset string)
    (candidate_diseases : catalog) (denied_symptoms : gset string) (rounds : nat)
    (selected_symptoms : gset string) (symptoms_list : list string)
    : result (gset string * list string) :=
  match rounds with
  | O => Ok (selected_symptoms, symptoms_list)
  | S rounds' =>
      if decide (symptoms_list = []) then Ok (selected_symptoms, symptoms_list)
      else
        best ← greedy_best ds current_symptoms candidate_diseases denied_symptoms
                 selected_symptoms symptoms_list;
        match best with
        | Some (_, best_symptom) =>
            if decide (best_symptom = EmptyString) then
              greedy_rounds ds current_symptoms candidate_diseases denied_symptoms rounds'
                selected_symptoms symptoms_list
            else
              greedy_rounds ds current_symptoms candidate_diseases denied_symptoms rounds'
                (selected_symptoms ∪ {[best_symptom]}) (list_remove best_symptom symptoms_list)
        | None =>
            greedy_rounds ds current_symptoms candidate_diseases denied_symptoms rounds'
              selected_symptoms symptoms_list
        end
  end.

(** The backfill loop: add from [remaining] until [n] are selected. *)
Definition greedy_backfill (n : Z) (selected_symptoms : gset string)
    (remaining : list string) : gset string :=
  foldl (fun selected s =>
           if (n <=? Z.of_nat (size selected))%Z then selected else selected ∪ {[s]})
        selected_symptoms remaining.

Definition _greedy_selection (ds : catalog) (current_symptoms : gset string)
    (candidate_diseases : catalog) (available_symptoms : gset string) (n : Z)
    (denied_symptoms : gset string) : result (gset string) :=
  let symptoms_list := set_order available_symptoms_object available_symptoms in
  let score := symptom_score ds current_symptoms candidate_diseases denied_symptoms in
  symptoms_list ← sorted_by_key_desc score symptoms_list;
  '(selected_symptoms, symptoms_list) ←
    greedy_rounds ds current_symptoms candidate_diseases denied_symptoms (Z.to_nat n)
      ∅ symptoms_list;
  if (Z.of_nat (size selected_symptoms) <? n)%Z then
    let remaining := filter (fun s => s ∉ selected_symptoms) symptoms_list in
    remaining ← sorted_by_key_desc score remaining;
    mret (greedy_backfill n selected_symptoms remaining)
  else mret selected_symptoms.

(** The score [_exhaustive_search] gives to one combination. *)
Definition exhaustive_score (ds : catalog) (current_symptoms : gset string)
    (candidate_diseases : catalog) (denied_symptoms : gset string) (combo : list string)
    : result Q :=
  let temp_symptoms := current_symptoms ∪ list_to_set combo in
  score ← _calculate_combined_score ds temp_symptoms candidate_diseases;
  let denied_count := length (filter (fun symptom => symptom ∈ denied_symptoms) combo) in
  mret (float_sub score (float_mul (py_float denied_count) (literal (2 # 10)))).

(** The loop of [_exhaustive_search] over the combinations. *)
Definition exhaustive_best (ds : catalog) (current_symptoms : gset string)
    (candidate_diseases : catalog) (denied_symptoms : gset string)
    (combos : list (list string)) : result (option (Q * list string)) :=
  foldl (fun acc combo =>
           best ← acc;
           score ← exhaustive_score ds current_symptoms candidate_diseases denied_symptoms combo;
           mret (keep_best best score combo))
        (Ok None) combos.

Definition _exhaustive_search (ds : catalog) (current_symptoms : gset string)
    (candidate_diseases : catalog) (available_symptoms : gset string) (n : Z)
    (denied_symptoms : gset string) : result (gset string) :=
  let score := symptom_score ds current_symptoms candidate_diseases denied_symptoms in
  sorted_symptoms ←
    sorted_by_key_desc score (set_order available_symptoms_object available_symptoms);
  combos ← py_combinations sorted_symptoms n;
  best ← exhaustive_best ds current_symptoms candidate_diseases denied_symptoms combos;
  match best with
  | Some (_, best_combination) =>
      if decide (best_combination = []) then mret ∅ else mret (list_to_set best_combination)
  | None => mret ∅
  end.

(** *** Match rates *)

(** [scores[disease] = v] on a dict kept in insertion order. *)
Fixpoint dict_set {V} (k : string) (v : V) (d : list (string * V)) : list (string * V) :=
  match d with
  | [] => [(k, v)]
  | (k', v') :: d' => if decide (k' = k) then (k', v) :: d' else (k', v') :: dict_set k v d'
  end.

Fixpoint dict_get {V} (k : string) (d : list (string * V)) : option V :=
  match d with
  | [] => None
  | (k', v') :: d' => if decide (k' = k) then Some v' else dict_get k d'
  end.

(** The value [get_disease_match_scores] stores for one disease. *)
Definition match_rate (current_symptoms symptoms : gset string) : Q :=
  let match_count := size (current_symptoms ∩ symptoms) in
  let total_count := size symptoms in
  if (0 <? total_count)%nat then (Qnat match_count / Qnat total_count)%Q else 0%Q.

Definition get_disease_match_scores (ds : catalog) (current_symptoms : gset string)
    : list (string * Q) :=
  foldl (fun scores p => dict_set (fst p) (match_rate current_symptoms (snd p)) scores) [] ds.

(** *** The genetic selector *)

Context {G : Type} `{RNG : !NumpyRandom G}.

(** [np.random.choice(a)] on a list of strings: one item of the array
    made of the list. *)
Definition random_choice (a : list string) : rand G string :=
  if decide (a = []) then
    pure_result (Err (ValueError "'a' cannot be empty unless no samples are taken"))
  else fun g =>
    let '(i, g') := random_index (length a) g in
    (x ← py_index a i; mret (np_str x), g').

(** [np.random.choice(a, size, replace=False)] on a list of strings: the
    items at the first [size] entries of a random permutation of the
    positions.  [size] is converted to a [numpy.intp] after the test for
    an empty [a]. *)
Definition random_choice_no_replace (a : list string) (size : Z) : rand G (list string) :=
  if decide (a = [] ∧ size ≠ 0%Z) then
    pure_result (Err (ValueError "'a' cannot be empty unless no samples are taken"))
  else if ssize_overflow size then pure_result (Err OverflowError)
  else if (Z.of_nat (length a) <? size)%Z then
    pure_result (Err (ValueError
      "Cannot take a larger sample than population when 'replace=False'"))
  else if (size <? 0)%Z then
    pure_result (Err (ValueError "Negative dimensions are not allowed"))
  else fun g =>
    let '(perm, g') := random_permutation (length a) g in
    (mapM (fun i => x ← py_index a i; mret (np_str x)) (take (Z.to_nat size) perm), g').

(** [np.random.choice(k, size)] for an integer [k]. *)
Definition random_choice_range (k size : nat) : rand G (list nat) :=
  if decide (k = 0 ∧ size ≠ 0)%nat then
    pure_result (Err (ValueError "a must be greater than 0 unless no samples are taken"))
  else fun g =>
    let '(idx, g') := random_indices k size g in (Ok idx, g').

(** [np.random.shuffle(l)], returning the shuffled list. *)
Definition random_shuffle {A} (l : list A) : rand G (list A) := fun g =>
  let '(perm, g') := random_permutation (length l) g in
  (mapM (py_index l) perm, g').

Definition np_random_random : rand G Q := fun g =>
  let '(x, g') := random_float g in (Ok x, g').

(** [np.argmax]: the first position of a largest entry. *)
Definition np_argmax (l : list Q) : result nat :=
  match best_of (imap (fun i x => (x, i)) l) with
  | Some (_, i) => Ok i
  | None => Err (ValueError "attempt to get argmax of an empty sequence")
  end.

Definition _tournament_select (population : list (gset string)) (fitness_scores : list Q)
    (tournament_size : nat) : rand G (gset string) :=
  indices ← random_choice_range (length population) tournament_size;
  tournament_fitness ← pure_result (mapM (py_index fitness_scores) indices);
  winner ← pure_result (np_argmax tournament_fitness);
  winner_idx ← pure_result (py_index indices winner);
  pure_result (py_index population winner_idx).

(** [combined[:n]] *)
Definition py_slice_to {A} (l : list A) (n : Z) : list A :=
  if (n <? 0)%Z then take (length l - Z.to_nat (- n)) l else take (Z.to_nat n) l.

(** The [while len(combined) < n] loop of [_crossover]; every round
    appends one element, so [Z.to_nat (n - len(combined))] rounds
    suffice. *)
Fixpoint crossover_fill (rounds : nat) (parents : gset string) (n : Z)
    (combined : list string) : rand G (list string) :=
  match rounds with
  | O => mret combined
  | S rounds' =>
      if (Z.of_nat (length combined) <? n)%Z then
        let remaining := parents ∖ list_to_set combined in
        if decide (remaining = ∅) then mret combined
        else
          x ← random_choice (set_order remaining_object remaining);
          crossover_fill rounds' parents n (combined ++ [x])
      else mret combined
  end.

Definition _crossover (parent1 parent2 : gset string) (n : Z)
    : rand G (gset string * gset string) :=
  let combined := set_order parents_object (parent1 ∪ parent2) in
  combined ←
    (if (n <? Z.of_nat (length combined))%Z then
       combined ← random_shuffle combined;
       mret (py_slice_to combined n)
     else mret combined);
  combined ← crossover_fill (Z.to_nat (n - Z.of_nat (length combined)))
               (parent1 ∪ parent2) n combined;
  mret (list_to_set combined, list_to_set combined).

Definition _mutate (individual available_symptoms : gset string) (mutation_rate : Q)
    : rand G (gset string) :=
  r ← np_random_random;
  if Qltb r mutation_rate then
    let available := set_order available_object (available_symptoms ∖ individual) in
    if decide (available = []) then mret individual
    else
      symptom_to_replace ← random_choice (set_order individual_object individual);
      new_symptom ← random_choice available;
      if decide (symptom_to_replace ∈ individual) then
        mret (individual ∖ {[symptom_to_replace]} ∪ {[new_symptom]})
      else pure_result (Err (KeyError symptom_to_replace))
  else mret individual.

Definition _local_search (ds : catalog) (individual current_symptoms : gset string)
    (candidate_diseases : catalog) : rand G (gset string) :=
  best_score ← pure_result
    (_calculate_combined_score ds (current_symptoms ∪ individual) candidate_diseases);
  '(_, best_individual) ←
    foldlM (fun '(best_score, best_individual) symptom =>
              let new_individual := individual ∖ {[symptom]} in
              let remaining_symptoms := all_symptoms ds ∖ current_symptoms ∖ individual in
              if decide (remaining_symptoms = ∅) then mret (best_score, best_individual)
              else
                new_symptom ←
                  random_choice (set_order remaining_symptoms_object remaining_symptoms);
                let new_individual := new_individual ∪ {[new_symptom]} in
                score ← pure_result
                  (_calculate_combined_score ds (current_symptoms ∪ new_individual)
                     candidate_diseases);
                if Qltb best_score score then mret (score, new_individual)
                else mret (best_score, best_individual))
           (best_score, individual) (set_order individual_object individual);
  mret best_individual.

(** The local function [fitness] of [_genetic_algorithm]. *)
Definition fitness (ds : catalog) (current_symptoms : gset string)
    (candidate_diseases : catalog) (denied_symptoms individual : gset string) : result Q :=
  let temp_symptoms := current_symptoms ∪ individual in
  base_score ← _calculate_combined_score ds temp_symptoms candidate_diseases;
  let penalty :=
    float_mul (literal (2 # 10))
      (py_float (length (filter (fun symptom => symptom ∈ denied_symptoms)
                        (set_order individual_object individual)))) in
  mret (float_sub base_score penalty).

(** [max(population, key=...)]: every key is computed, the first largest
    wins. *)
Definition py_max_by_key {A} (key : A → result Q) (l : list A) : result A :=
  best ← foldl (fun acc x => best ← acc; k ← key x; mret (keep_best best k x)) (Ok None) l;
  match best with
  | Some (_, x) => Ok x
  | None => Err (ValueError "max() arg is an empty sequence")
  end.

Definition population_size : nat := 50.
Definition generations : nat := 30.
Definition elite_size : nat := 5.

(** One round of the breeding loop. *)
Definition breed (population : list (gset string)) (fitness_scores : list Q)
    (available_symptoms : gset string) (n : Z) (mutation_rate : Q)
    (new_population : list (gset string)) : rand G (list (gset string)) :=
  parent1 ← _tournament_select population fitness_scores 3;
  parent2 ← _tournament_select population fitness_scores 3;
  '(child1, child2) ← _crossover parent1 parent2 n;
  child1 ← _mutate child1 available_symptoms mutation_rate;
  child2 ← _mutate child2 available_symptoms mutation_rate;
  mret (new_population ++ [child1; child2]).

(** One generation: the body of [for generation in range(generations)]. *)
Definition generation (ds : catalog) (current_symptoms : gset string)
    (candidate_diseases : catalog) (available_symptoms : gset string) (n : Z)
    (denied_symptoms : gset string)
    (state : list (gset string) * Q) : rand G (list (gset string) * Q) :=
  let '(population, mutation_rate) := state in
  fitness_scores ← pure_result
    (mapM (fitness ds current_symptoms candidate_diseases denied_symptoms) population);
  let order := argsort fitness_scores in
  elite_individuals ← pure_result
    (mapM (py_index population) (drop (length order - elite_size) order));
  new_population ←
    repeatM ((population_size - elite_size) / 2)
      (breed population fitness_scores available_symptoms n mutation_rate)
      elite_individuals;
  let population := new_population in
  let mutation_rate :=
    let decayed := float_mul mutation_rate (literal (95 # 100)) in
    if Qltb (literal (1 # 100)) decayed then decayed else literal (1 # 100) in
  population ←
    mapM (fun individual =>
            _local_search ds individual current_symptoms candidate_diseases) population;
  mret (population, mutation_rate).

Definition _genetic_algorithm (ds : catalog) (current_symptoms : gset string)
    (candidate_diseases : catalog) (available_symptoms : gset string) (n : Z)
    (denied_symptoms : gset string) : rand G (gset string) :=
  let mutation_rate := literal (1 # 10) in
  let remaining_list := set_order available_symptoms_object available_symptoms in
  population ←
    mapM (fun _ : nat =>
            individual ← random_choice_no_replace remaining_list n;
            mret (list_to_set individual : gset string))
         (seq 0 population_size);
  '(population, _) ←
    repeatM generations
      (generation ds current_symptoms candidate_diseases available_symptoms n denied_symptoms)
      (population, mutation_rate);
  pure_result
    (py_max_by_key (fitness ds current_symptoms candidate_diseases denied_symptoms) population).

(** *** The entry point *)

Definition calculate_next_n_symptoms (ds : catalog) (current_symptoms : gset string)
    (n : Z) (method : string) (denied_symptoms : option (gset string))
    : rand G (gset string) :=
  let denied_symptoms :=
    match denied_symptoms with
    | None => ∅
    | Some denied => denied
    end in
  let candidate_diseases := _get_candidate_diseases ds current_symptoms in
  let available_symptoms := all_symptoms ds ∖ current_symptoms in
  if (Z.of_nat (size available_symptoms) <? n)%Z then mret available_symptoms
  else if decide (method = "greedy") then
    pure_result (_greedy_selection ds current_symptoms candidate_diseases
                   available_symptoms n denied_symptoms)
  else if decide (method = "exhaustive") then
    pure_result (_exhaustive_search ds current_symptoms candidate_diseases
                   available_symptoms n denied_symptoms)
  else if decide (method = "genetic") then
    _genetic_algorithm ds current_symptoms candidate_diseases
      available_symptoms n denied_symptoms
  else pure_result (Err (ValueError "Unknown method")).

End DiagnosticSystem.

(** * Facts about the library functions *)

Ltac unfold_result :=
  cbv beta iota delta [mbind mret result_bind result_ret] in *.

Section Library.
Context {A : Type}.
Implicit Types (l : list (Q * A)) (kx : Q * A).

Lemma insert_desc_perm kx l : insert_desc kx l ≡ₚ kx :: l.
Proof.
  induction l as [|ky l IH]; simpl; [done|].
  destruct (Qltb kx.1 ky.1); [|done].
  rewrite IH. apply Permutation_swap.
Qed.

Lemma sort_desc_perm l : sort_desc l ≡ₚ l.
Proof.
  induction l as [|kx l IH]; simpl; [done|].
  by rewrite insert_desc_perm, IH.
Qed.

(** Larger keys first. *)
Definition desc (kx ky : Q * A) : Prop := (ky.1 <= kx.1)%Q.

Lemma insert_desc_sorted kx l :
  StronglySorted desc l → StronglySorted desc (insert_desc kx l).
Proof.
  induction 1 as [|ky l Hl IH Hky]; simpl; [by repeat constructor|].
  destruct (Qltb kx.1 ky.1) eqn:Hlt.
  - constructor; [done|]. rewrite insert_desc_perm. constructor; [|done].
    unfold desc. apply Qlt_le_weak. unfold Qltb in Hlt.
    apply negb_true_iff in Hlt. apply Qnot_le_lt. intros Hle.
    apply Qle_bool_iff in Hle. congruence.
  - assert (desc kx ky) as Hxy.
    { unfold desc. apply Qle_bool_iff. unfold Qltb in Hlt. by apply negb_false_iff in Hlt. }
    constructor; [by constructor|]. constructor; [done|].
    eapply Forall_impl; [done|]. intros kz Hkz. unfold desc in *. by eapply Qle_trans.
Qed.

Lemma sort_desc_sorted l : StronglySorted desc (sort_desc l).
Proof.
  induction l as [|kx l IH]; simpl; [constructor|]. by apply insert_desc_sorted.
Qed.

Lemma StronglySorted_lookup {B} (R : relation B) (k : list B) (i j : nat) (a b : B) :
  StronglySorted R k → (i < j)%nat → k !! i = Some a → k !! j = Some b → R a b.
Proof.
  intros Hk. revert i j. induction Hk as [|c k Hk IH Hc]; intros i j Hij; [done|].
  destruct j as [|j]; [lia|]. destruct i as [|i]; simpl.
  - intros [= ->] Hb. apply (proj1 (Forall_forall _ _) Hc). by eapply list_elem_of_lookup_2.
  - apply IH. lia.
Qed.

(** The sort is stable: the entries of one key keep their order. *)
Lemma insert_desc_stable (k : Q) kx l :
  filter (fun kz => kz.1 == k)%Q (insert_desc kx l) =
  filter (fun kz => kz.1 == k)%Q (kx :: l).
Proof.
  induction l as [|ky l IH]; simpl; [done|].
  destruct (Qltb kx.1 ky.1) eqn:Hlt; [|done].
  rewrite (filter_cons _ ky), IH, !(filter_cons _ kx), (filter_cons _ ky).
  destruct (decide (ky.1 == k)%Q) as [Hy|]; [|done].
  destruct (decide (kx.1 == k)%Q) as [Hx|]; [|done].
  exfalso. unfold Qltb in Hlt. apply negb_true_iff in Hlt.
  assert (Qle_bool ky.1 kx.1 = true); [|congruence].
  apply Qle_bool_iff. rewrite Hx, Hy. apply Qle_refl.
Qed.

Lemma sort_desc_stable (k : Q) l :
  filter (fun kz => kz.1 == k)%Q (sort_desc l) = filter (fun kz => kz.1 == k)%Q l.
Proof.
  induction l as [|kx l IH]; simpl; [done|].
  by rewrite insert_desc_stable, !filter_cons, IH.
Qed.

Lemma mapM_result_inv {B C} (f : B → result C) (l : list B) :
  match mapM f l with
  | Ok r => Forall2 (fun x y => f x = Ok y) l r
  | Err e => ∃ x, x ∈ l ∧ f x = Err e
  end.
Proof.
  induction l as [|x l IH]; simpl; [constructor|].
  destruct (f x) as [y|e] eqn:Hx; simpl.
  - destruct (mapM f l) as [r|e]; simpl.
    + by constructor.
    + destruct IH as (z & ? & ?). exists z. split; [by right|done].
  - exists x. split; [by left|done].
Qed.

Lemma sorted_by_key_desc_inv (key : A → result Q) (l : list A) :
  match sorted_by_key_desc key l with
  | Ok r => r ≡ₚ l ∧ ∀ x, x ∈ l → is_Ok (key x)
  | Err e => ∃ x, x ∈ l ∧ key x = Err e
  end.
Proof.
  unfold sorted_by_key_desc.
  pose proof (mapM_result_inv (fun x => k ← key x; mret (k, x)) l) as H.
  destruct (mapM _ l) as [ks|e]; simpl.
  - assert (ks.*2 = l ∧ ∀ x, x ∈ l → is_Ok (key x)) as [Hl Hk].
    { induction H as [|x y l' ks' Hxy _ IH]; [split; [done|by intros ? ?%elem_of_nil]|].
      destruct IH as [IH1 IH2].
      destruct (key x) as [k|] eqn:Hkx; cbv [mbind mret result_bind result_ret] in Hxy;
        simplify_eq/=.
      split; [done|]. intros z [->|?]%elem_of_cons; [by eexists|auto]. }
    split; [|done]. cbv [mret result_ret]. rewrite <-Hl. apply fmap_Permutation, sort_desc_perm.
  - destruct H as (x & Hx & Hex). exists x. split; [done|].
    destruct (key x); by simplify_eq/=.
Qed.
End Library.

(** [py_index] on every position returns the list. *)
Lemma mapM_py_index_seq {A} (l : list A) : mapM (py_index l) (seq 0 (length l)) = Ok l.
Proof.
  induction l as [|x l IH] using rev_ind; [done|].
  rewrite length_app, Nat.add_1_r, seq_S, Nat.add_0_l.
  assert (∀ (r : list nat) (l1 : list A),
    mapM (py_index l) r = Ok l1 → mapM (py_index (l ++ [x])) r = Ok l1) as Hext.
  { induction r as [|i r IHr]; intros l1; simpl; [done|]. unfold_result.
    unfold py_index at 1 3. destruct (l !! i) as [y|] eqn:Hi; [|done].
    rewrite (lookup_app_l_Some _ _ _ _ Hi).
    destruct (mapM (py_index l) r) as [r'|] eqn:Hr; [|done].
    by rewrite (IHr r' eq_refl). }
  assert (∀ (r1 r2 : list nat) (l1 l2 : list A),
    mapM (py_index (l ++ [x])) r1 = Ok l1 → mapM (py_index (l ++ [x])) r2 = Ok l2 →
    mapM (py_index (l ++ [x])) (r1 ++ r2) = Ok (l1 ++ l2)) as Happ.
  { induction r1 as [|i r1 IHr]; intros r2 l1 l2; simpl.
    - intros [= <-] ->. done.
    - unfold_result. destruct (py_index (l ++ [x]) i); [|done].
      destruct (mapM _ r1) as [r'|] eqn:Hr; [|done].
      intros [= <-] H2. by rewrite (IHr r2 r' l2 eq_refl H2). }
  apply Happ; [by apply Hext|].
  simpl. unfold py_index. by rewrite list_lookup_middle.
Qed.

(** Indexing along a permutation of the positions permutes the list. *)
Lemma mapM_py_index_perm {A} (l : list A) (idx : list nat) :
  idx ≡ₚ seq 0 (length l) → ∃ r, mapM (py_index l) idx = Ok r ∧ r ≡ₚ l.
Proof.
  intros Hp.
  assert (∀ (i1 i2 : list nat), i1 ≡ₚ i2 → ∀ r1, mapM (py_index l) i1 = Ok r1 →
    ∃ r2, mapM (py_index l) i2 = Ok r2 ∧ r2 ≡ₚ r1) as Hperm.
  { induction 1 as [|i i1 i2 _ IH|i j i1|i1 i2 i3 _ IH1 _ IH2]; intros r1; simpl.
    - intros [= <-]. by eexists.
    - unfold_result. destruct (py_index l i) as [x|]; [|done].
      destruct (mapM _ i1) as [r|]; [|done]. intros [= <-].
      destruct (IH r eq_refl) as (r2 & -> & ?). eexists; split; [done|].
      by constructor.
    - unfold_result. destruct (py_index l j) as [y|]; [|done].
      destruct (py_index l i) as [x|]; [|done].
      destruct (mapM _ i1) as [r|]; [|done]. intros [= <-].
      eexists; split; [done|]. apply Permutation_swap.
    - intros H1. destruct (IH1 _ H1) as (r2 & H2 & ?).
      destruct (IH2 _ H2) as (r3 & H3 & ?). exists r3. split; [done|]. by etrans. }
  destruct (Hperm _ _ (symmetry Hp) l (mapM_py_index_seq l)) as (r & ? & ?). eauto.
Qed.

(** * A reference runtime

    One admissible choice for everything [PyRuntime] and [NumpyRandom]
    leave open; the examples below run on it. *)

Module Reference.

(** The binary logarithm of a quotient of powers of two, which is all
    the examples take logarithms of. *)
Definition log2_dyadic (x : Q) : Q :=
  let r := Qred x in
  inject_Z (Z.log2 (Qnum r) - Z.log2 (Zpos (Qden r))).

Definition argsort_stable (l : list Q) : list nat :=
  reverse ((sort_desc (imap (fun i x => (x, i)) l)).*2).

Lemma argsort_stable_perm l : argsort_stable l ≡ₚ seq 0 (length l).
Proof.
  unfold argsort_stable. rewrite reverse_Permutation, sort_desc_perm.
  rewrite fmap_imap. unfold compose. simpl.
  by rewrite imap_seq_0, list_fmap_id.
Qed.

Lemma argsort_stable_sorted l i j a b x y :
  (i < j)%nat → argsort_stable l !! i = Some a → argsort_stable l !! j = Some b →
  l !! a = Some x → l !! b = Some y → (x <= y)%Q.
Proof.
  unfold argsort_stable. intros Hij Ha Hb Hx Hy.
  set (sorted := sort_desc (imap (fun i x => (x, i)) l)) in *.
  assert (∀ k z c, sorted !! k = Some (z, c) → l !! c = Some z) as Hkey.
  { intros k z c Hk. apply list_elem_of_lookup_2 in Hk. unfold sorted in Hk.
    rewrite sort_desc_perm in Hk. apply list_elem_of_lookup in Hk as [m Hm].
    rewrite list_lookup_imap in Hm. destruct (l !! m) eqn:Hlm; by simplify_eq/=. }
  apply reverse_lookup_Some in Ha as [Ha Hi], Hb as [Hb Hj].
  rewrite length_fmap in *. rewrite list_lookup_fmap in Ha, Hb.
  destruct (sorted !! (length sorted - S i)) as [[x' a']|] eqn:Hsa; simplify_eq/=.
  destruct (sorted !! (length sorted - S j)) as [[y' b']|] eqn:Hsb; simplify_eq/=.
  pose proof (Hkey _ _ _ Hsa). pose proof (Hkey _ _ _ Hsb). simplify_eq.
  apply (StronglySorted_lookup desc sorted (length sorted - S j) (length sorted - S i)
           (y, b) (x, a)); [apply sort_desc_sorted|lia|done|done].
Qed.

Lemma log2_dyadic_proper (x y : Q) : (x == y)%Q → (log2_dyadic x == log2_dyadic y)%Q.
Proof. intros Hxy. unfold log2_dyadic. by rewrite (Qred_complete x y Hxy). Qed.

Section Rounding.
Local Open Scope Q_scope.

(** Rounding to 53 bits of mantissa, ties to even. *)

Definition pow2 (e : Z) : Q := 2 ^ e.

(** The nearest integer, ties to the even one. *)
Definition round_even (v : Q) : Z :=
  let q := Qfloor v in
  match Qcompare (v - inject_Z q) (1 # 2) with
  | Lt => q
  | Gt => (q + 1)%Z
  | Eq => if Z.even q then q else (q + 1)%Z
  end.

(** The exponent [e] with [2^52 <= x / 2^e < 2^53], for [x > 0]. *)
Definition binade (x : Q) : Z :=
  let e0 := (Z.log2 (Qnum x) - Z.log2 (Zpos (Qden x)) - 52)%Z in
  match Qcompare x (pow2 (52 + e0)) with
  | Lt => (e0 - 1)%Z
  | _ => e0
  end.

Definition round53_pos (x : Q) : Q :=
  let e := binade x in inject_Z (round_even (x / pow2 e)) * pow2 e.

Definition round53 (x : Q) : Q :=
  match Qcompare x 0 with
  | Eq => 0
  | Gt => Qred (round53_pos x)
  | Lt => Qred (- round53_pos (- x))
  end.

Lemma pow2_pos e : 0 < pow2 e.
Proof. apply Qpower_0_lt. reflexivity. Qed.

Lemma pow2_le e e' : (e <= e')%Z -> pow2 e <= pow2 e'.
Proof. intros H. apply Qpower_le_compat_l; [exact H|]. discriminate. Qed.

Lemma pow2_lt e e' : (e < e')%Z -> pow2 e < pow2 e'.
Proof. intros H. apply Qpower_lt_compat_l; [exact H|]. reflexivity. Qed.

Lemma pow2_plus e e' : pow2 (e + e') == pow2 e * pow2 e'.
Proof. apply Qpower_plus. discriminate. Qed.

Lemma pow2_Z e : (0 <= e)%Z -> pow2 e == inject_Z (2 ^ e).
Proof. intros H. unfold pow2. symmetry. apply (Zpower_Qpower 2 e H). Qed.

Lemma pow2_succ e : pow2 (1 + e) == 2 * pow2 e.
Proof. rewrite pow2_plus. reflexivity. Qed.

Lemma Qmake_div (n : Z) (d : positive) : n # d == inject_Z n / inject_Z (Zpos d).
Proof. apply Qmake_Qdiv. Qed.

Lemma binade_coarse x :
  0 < x ->
  let e0 := (Z.log2 (Qnum x) - Z.log2 (Zpos (Qden x)) - 52)%Z in
  pow2 (51 + e0) < x /\ x < pow2 (53 + e0).
Proof.
  destruct x as [n d]. intros Hx e0. subst e0. cbn [Qnum Qden].
  assert (0 < n)%Z as Hn by (unfold Qlt in Hx; simpl in Hx; lia).
  set (la := Z.log2 n). set (ld := Z.log2 (Zpos d)).
  assert (0 <= la)%Z as Hla by apply Z.log2_nonneg.
  assert (0 <= ld)%Z as Hld by apply Z.log2_nonneg.
  destruct (Z.log2_spec n Hn) as [Hn1 Hn2]. fold la in Hn1, Hn2.
  destruct (Z.log2_spec (Zpos d) eq_refl) as [Hd1 Hd2]. fold ld in Hd1, Hd2.
  assert (0 < inject_Z (Zpos d)) as Hdpos by reflexivity.
  assert (inject_Z (2 ^ la) <= inject_Z n) as Qn1 by (rewrite <-Zle_Qle; exact Hn1).
  assert (inject_Z n < inject_Z (2 ^ Z.succ la)) as Qn2 by (rewrite <-Zlt_Qlt; exact Hn2).
  assert (inject_Z (2 ^ ld) <= inject_Z (Zpos d)) as Qd1 by (rewrite <-Zle_Qle; exact Hd1).
  assert (inject_Z (Zpos d) < inject_Z (2 ^ Z.succ ld)) as Qd2 by (rewrite <-Zlt_Qlt; exact Hd2).
  rewrite <-!pow2_Z in Qn1, Qn2, Qd1, Qd2 by lia.
  rewrite Qmake_div. split.
  - apply Qlt_shift_div_l; [exact Hdpos|].
    apply Qlt_le_trans with (pow2 (51 + (la - ld - 52)) * pow2 (Z.succ ld)).
    + apply Qmult_lt_l; [apply pow2_pos|exact Qd2].
    + rewrite <-pow2_plus. eapply Qle_trans; [|exact Qn1]. apply pow2_le. lia.
  - apply Qlt_shift_div_r; [exact Hdpos|].
    apply Qlt_le_trans with (pow2 (Z.succ la)); [exact Qn2|].
    apply Qle_trans with (pow2 (53 + (la - ld - 52)) * pow2 ld).
    + rewrite <-pow2_plus. apply pow2_le. lia.
    + apply Qmult_le_l; [apply pow2_pos|exact Qd1].
Qed.

Lemma binade_spec x :
  0 < x -> pow2 (52 + binade x) <= x /\ x < pow2 (53 + binade x).
Proof.
  intros Hx. destruct (binade_coarse x Hx) as [Hlo Hhi]. unfold binade.
  set (e0 := (Z.log2 (Qnum x) - Z.log2 (Zpos (Qden x)) - 52)%Z) in *.
  destruct (Qcompare x (pow2 (52 + e0))) eqn:Hc.
  - apply Qeq_alt in Hc. split; [rewrite Hc; apply Qle_refl|exact Hhi].
  - apply Qlt_alt in Hc. split.
    + replace (52 + (e0 - 1))%Z with (51 + e0)%Z by lia. apply Qlt_le_weak, Hlo.
    + replace (53 + (e0 - 1))%Z with (52 + e0)%Z by lia. exact Hc.
  - apply Qgt_alt in Hc. split; [apply Qlt_le_weak, Hc|exact Hhi].
Qed.

Lemma binade_unique x e :
  pow2 (52 + e) <= x -> x < pow2 (53 + e) -> binade x = e.
Proof.
  intros Hlo Hhi.
  assert (0 < x) as Hx by (eapply Qlt_le_trans; [apply pow2_pos|exact Hlo]).
  destruct (binade_spec x Hx) as [Hlo' Hhi'].
  destruct (Z.lt_trichotomy (binade x) e) as [Hlt|[Heq|Hgt]]; [|exact Heq|].
  - exfalso. apply (Qlt_irrefl x). eapply Qlt_le_trans; [exact Hhi'|].
    eapply Qle_trans; [|exact Hlo]. apply pow2_le. lia.
  - exfalso. apply (Qlt_irrefl x). eapply Qlt_le_trans; [exact Hhi|].
    eapply Qle_trans; [|exact Hlo']. apply pow2_le. lia.
Qed.

Lemma binade_le x y : 0 < x -> x <= y -> (binade x <= binade y)%Z.
Proof.
  intros Hx Hxy.
  assert (0 < y) as Hy by (eapply Qlt_le_trans; [exact Hx|exact Hxy]).
  destruct (binade_spec x Hx) as [Hlo _]. destruct (binade_spec y Hy) as [_ Hhi].
  destruct (Z.le_gt_cases (binade x) (binade y)) as [|Hgt]; [assumption|].
  exfalso. apply (Qlt_irrefl y). eapply Qlt_le_trans; [exact Hhi|].
  eapply Qle_trans; [|exact Hxy]. eapply Qle_trans; [|exact Hlo]. apply pow2_le. lia.
Qed.

(** *** Rounding to the nearest integer *)

Lemma round_even_Z (k : Z) : round_even (inject_Z k) = k.
Proof.
  unfold round_even. rewrite Qfloor_Z.
  assert (Qcompare (inject_Z k - inject_Z k) (1 # 2) = Lt) as ->; [|reflexivity].
  rewrite <-Qlt_alt. ring_simplify. reflexivity.
Qed.

Lemma round_even_proper v w : v == w -> round_even v = round_even w.
Proof.
  intros H. unfold round_even. rewrite (Qfloor_comp _ _ H).
  assert (v - inject_Z (Qfloor w) == w - inject_Z (Qfloor w)) as Hf by (rewrite H; reflexivity).
  rewrite (Qcompare_comp _ _ Hf _ _ (Qeq_refl (1 # 2))). reflexivity.
Qed.

Lemma round_even_floor v : (Qfloor v <= round_even v <= Qfloor v + 1)%Z.
Proof.
  unfold round_even. destruct (Qcompare _ _); [destruct (Z.even _)| |]; lia.
Qed.

Lemma round_even_mono v w : v <= w -> (round_even v <= round_even w)%Z.
Proof.
  intros Hvw. pose proof (Qfloor_resp_le _ _ Hvw) as Hfl.
  pose proof (round_even_floor v) as [_ Hv]. pose proof (round_even_floor w) as [Hw _].
  destruct (Z.eq_dec (Qfloor v) (Qfloor w)) as [Heq|Hne]; [|lia].
  unfold round_even. rewrite Heq.
  assert (v - inject_Z (Qfloor w) <= w - inject_Z (Qfloor w)) as Hf by lra.
  destruct (Qcompare (v - inject_Z (Qfloor w)) (1 # 2)) eqn:Hcv;
    destruct (Qcompare (w - inject_Z (Qfloor w)) (1 # 2)) eqn:Hcw;
    try rewrite <-Qeq_alt in Hcv; try rewrite <-Qlt_alt in Hcv; try rewrite <-Qgt_alt in Hcv;
    try rewrite <-Qeq_alt in Hcw; try rewrite <-Qlt_alt in Hcw; try rewrite <-Qgt_alt in Hcw;
    try (destruct (Z.even (Qfloor w)); lia); try lia; exfalso; lra.
Qed.

Lemma round_even_ge (k : Z) v : inject_Z k <= v -> (k <= round_even v)%Z.
Proof. intros H. rewrite <-(round_even_Z k). by apply round_even_mono. Qed.

Lemma round_even_le (k : Z) v : v <= inject_Z k -> (round_even v <= k)%Z.
Proof. intros H. rewrite <-(round_even_Z k). by apply round_even_mono. Qed.

(** *** Rounding a positive number *)

Lemma scaled_bounds x :
  0 < x -> pow2 52 <= x / pow2 (binade x) /\ x / pow2 (binade x) < pow2 53.
Proof.
  intros Hx. destruct (binade_spec x Hx) as [Hlo Hhi]. split.
  - apply Qle_shift_div_l; [apply pow2_pos|]. rewrite <-pow2_plus. exact Hlo.
  - apply Qlt_shift_div_r; [apply pow2_pos|]. rewrite <-pow2_plus. exact Hhi.
Qed.

Lemma mantissa_bounds x :
  0 < x -> (2 ^ 52 <= round_even (x / pow2 (binade x)) <= 2 ^ 53)%Z.
Proof.
  intros Hx. destruct (scaled_bounds x Hx) as [Hlo Hhi]. split.
  - apply round_even_ge. rewrite <-pow2_Z by lia. exact Hlo.
  - apply round_even_le. rewrite <-pow2_Z by lia. apply Qlt_le_weak, Hhi.
Qed.

Lemma round53_pos_lower x : 0 < x -> pow2 (52 + binade x) <= round53_pos x.
Proof.
  intros Hx. destruct (mantissa_bounds x Hx) as [Hlo _]. unfold round53_pos.
  rewrite pow2_plus. apply Qmult_le_compat_r; [|apply Qlt_le_weak, pow2_pos].
  rewrite (pow2_Z 52 ltac:(lia)). rewrite <-Zle_Qle. exact Hlo.
Qed.

Lemma round53_pos_upper x : 0 < x -> round53_pos x <= pow2 (53 + binade x).
Proof.
  intros Hx. destruct (mantissa_bounds x Hx) as [_ Hhi]. unfold round53_pos.
  rewrite pow2_plus. apply Qmult_le_compat_r; [|apply Qlt_le_weak, pow2_pos].
  rewrite (pow2_Z 53 ltac:(lia)). rewrite <-Zle_Qle. exact Hhi.
Qed.

Lemma round53_pos_pos x : 0 < x -> 0 < round53_pos x.
Proof.
  intros Hx. eapply Qlt_le_trans; [|apply round53_pos_lower, Hx]. apply pow2_pos.
Qed.

Lemma binade_proper x y : 0 < x -> x == y -> binade x = binade y.
Proof.
  intros Hx Hxy. destruct (binade_spec x Hx) as [Hlo Hhi]. symmetry.
  apply binade_unique; rewrite <-Hxy; assumption.
Qed.

Lemma round53_pos_proper x y : 0 < x -> x == y -> round53_pos x == round53_pos y.
Proof.
  intros Hx Hxy. unfold round53_pos. rewrite <-(binade_proper x y Hx Hxy).
  rewrite (round_even_proper (x / pow2 (binade x)) (y / pow2 (binade x))); [reflexivity|].
  apply Qdiv_comp; [exact Hxy|reflexivity].
Qed.

Lemma round53_pos_mono x y : 0 < x -> x <= y -> round53_pos x <= round53_pos y.
Proof.
  intros Hx Hxy.
  assert (0 < y) as Hy by (eapply Qlt_le_trans; [exact Hx|exact Hxy]).
  pose proof (binade_le x y Hx Hxy) as He.
  destruct (Z.eq_dec (binade x) (binade y)) as [Heq|Hne].
  - unfold round53_pos. rewrite <-Heq.
    apply Qmult_le_compat_r; [|apply Qlt_le_weak, pow2_pos].
    rewrite <-Zle_Qle. apply round_even_mono.
    apply Qmult_le_compat_r; [exact Hxy|]. apply Qlt_le_weak, Qinv_lt_0_compat, pow2_pos.
  - eapply Qle_trans; [apply round53_pos_upper, Hx|].
    eapply Qle_trans; [|apply round53_pos_lower, Hy]. apply pow2_le. lia.
Qed.

(** A number with a 53-bit mantissa is its own rounding. *)
Lemma round53_pos_exact (k j : Z) :
  (2 ^ 52 <= k < 2 ^ 53)%Z ->
  round53_pos (inject_Z k * pow2 j) == inject_Z k * pow2 j.
Proof.
  intros [Hlo Hhi].
  assert (binade (inject_Z k * pow2 j) = j) as He.
  { apply binade_unique.
    - rewrite pow2_plus. apply Qmult_le_compat_r; [|apply Qlt_le_weak, pow2_pos].
      rewrite (pow2_Z 52 ltac:(lia)). rewrite <-Zle_Qle. exact Hlo.
    - rewrite pow2_plus. apply Qmult_lt_compat_r; [apply pow2_pos|].
      rewrite (pow2_Z 53 ltac:(lia)). rewrite <-Zlt_Qlt. exact Hhi. }
  unfold round53_pos. rewrite He.
  rewrite (round_even_proper _ (inject_Z k)); [rewrite round_even_Z; reflexivity|].
  field. apply Qnot_eq_sym, Qlt_not_eq, pow2_pos.
Qed.

Lemma round53_pos_top (j : Z) :
  round53_pos (inject_Z (2 ^ 53) * pow2 j) == inject_Z (2 ^ 53) * pow2 j.
Proof.
  assert (inject_Z (2 ^ 53) * pow2 j == inject_Z (2 ^ 52) * pow2 (1 + j)) as Heq.
  { rewrite pow2_succ. change (inject_Z (2 ^ 53)) with (2 * inject_Z (2 ^ 52)). ring. }
  assert (0 < inject_Z (2 ^ 53) * pow2 j) as Hpos.
  { apply Qmult_lt_0_compat; [reflexivity|apply pow2_pos]. }
  rewrite (round53_pos_proper _ _ Hpos Heq).
  rewrite Heq. apply round53_pos_exact. lia.
Qed.

Lemma round53_pos_idem x : 0 < x -> round53_pos (round53_pos x) == round53_pos x.
Proof.
  intros Hx. destruct (mantissa_bounds x Hx) as [Hlo Hhi]. unfold round53_pos at 2 3.
  set (m := round_even (x / pow2 (binade x))) in *.
  destruct (Z.eq_dec m (2 ^ 53)%Z) as [->|Hne].
  - apply round53_pos_top.
  - apply round53_pos_exact. lia.
Qed.

(** Integers up to [2^53] are representable. *)
Lemma int_mantissa (z : Z) :
  (0 < z < 2 ^ 53)%Z -> exists k j, (2 ^ 52 <= k < 2 ^ 53)%Z /\ inject_Z z == inject_Z k * pow2 j.
Proof.
  intros [Hpos Hlt]. set (l := Z.log2 z).
  destruct (Z.log2_spec z Hpos) as [H1 H2]. fold l in H1, H2.
  assert (0 <= l)%Z as Hl by apply Z.log2_nonneg.
  assert (l < 53)%Z as Hl53.
  { apply (Z.pow_lt_mono_r_iff 2); [lia|lia|]. lia. }
  exists (z * 2 ^ (52 - l))%Z, (l - 52)%Z. split.
  - split.
    + replace (2 ^ 52)%Z with (2 ^ l * 2 ^ (52 - l))%Z by (rewrite <-Z.pow_add_r by lia; f_equal; lia).
      apply Z.mul_le_mono_nonneg_r; [apply Z.pow_nonneg; lia|exact H1].
    + replace (2 ^ 53)%Z with (2 ^ Z.succ l * 2 ^ (52 - l))%Z by (rewrite <-Z.pow_add_r by lia; f_equal; lia).
      apply Z.mul_lt_mono_pos_r; [apply Z.pow_pos_nonneg; lia|exact H2].
  - rewrite inject_Z_mult, <-Qmult_assoc.
    rewrite <-(pow2_Z (52 - l)) by lia. rewrite <-pow2_plus.
    replace (52 - l + (l - 52))%Z with 0%Z by lia. change (pow2 0) with 1. ring.
Qed.

Lemma round53_pos_int (z : Z) :
  (0 < z <= 2 ^ 53)%Z -> round53_pos (inject_Z z) == inject_Z z.
Proof.
  intros [Hpos Hle]. destruct (Z.eq_dec z (2 ^ 53)%Z) as [->|Hne].
  - pose proof (round53_pos_top 0) as H. change (pow2 0) with 1 in H.
    rewrite <-(round53_pos_proper (inject_Z (2 ^ 53) * 1) (inject_Z (2 ^ 53))) ; [|reflexivity|ring].
    rewrite H. ring.
  - destruct (int_mantissa z ltac:(lia)) as (k & j & Hk & Hz).
    assert (0 < inject_Z z) as Hq by (rewrite <-(Zlt_Qlt 0); exact Hpos).
    rewrite (round53_pos_proper _ _ Hq Hz).
    rewrite Hz. apply round53_pos_exact, Hk.
Qed.

(** *** Rounding any number *)

Lemma round53_0 x : x == 0 -> round53 x = 0.
Proof. intros H. unfold round53. rewrite Qeq_alt in H. rewrite H. reflexivity. Qed.

Lemma round53_gt x : 0 < x -> round53 x == round53_pos x.
Proof.
  intros H. unfold round53. rewrite Qgt_alt in H. rewrite H. apply Qred_correct.
Qed.

Lemma round53_lt x : x < 0 -> round53 x == - round53_pos (- x).
Proof.
  intros H. unfold round53. rewrite Qlt_alt in H. rewrite H. apply Qred_correct.
Qed.

Lemma Qsign_cases x : x < 0 \/ x == 0 \/ 0 < x.
Proof.
  destruct (Q_dec x 0) as [[?|?]|?]; auto.
Qed.

Lemma round53_sign_pos x : 0 < x -> 0 < round53 x.
Proof. intros H. rewrite (round53_gt x H). apply round53_pos_pos, H. Qed.

Lemma round53_sign_neg x : x < 0 -> round53 x < 0.
Proof.
  intros H. rewrite (round53_lt x H).
  assert (0 < round53_pos (- x)) by (apply round53_pos_pos; lra). lra.
Qed.

Lemma round53_proper x y : x == y -> round53 x == round53 y.
Proof.
  intros Hxy. destruct (Qsign_cases x) as [H|[H|H]].
  - rewrite (round53_lt x H), (round53_lt y) by (rewrite <-Hxy; exact H).
    rewrite (round53_pos_proper (- x) (- y)); [reflexivity|lra|rewrite Hxy; reflexivity].
  - rewrite (round53_0 x H), (round53_0 y) by (rewrite <-Hxy; exact H). reflexivity.
  - rewrite (round53_gt x H), (round53_gt y) by (rewrite <-Hxy; exact H).
    apply round53_pos_proper; assumption.
Qed.

Lemma round53_mono x y : x <= y -> round53 x <= round53 y.
Proof.
  intros Hxy. destruct (Qsign_cases x) as [Hx|[Hx|Hx]]; destruct (Qsign_cases y) as [Hy|[Hy|Hy]];
    try (exfalso; lra).
  - rewrite (round53_lt x Hx), (round53_lt y Hy).
    assert (round53_pos (- y) <= round53_pos (- x)) by (apply round53_pos_mono; lra). lra.
  - rewrite (round53_0 y Hy). apply Qlt_le_weak, round53_sign_neg, Hx.
  - apply Qlt_le_weak. eapply Qlt_trans; [apply round53_sign_neg, Hx|apply round53_sign_pos, Hy].
  - rewrite (round53_0 x Hx), (round53_0 y Hy). apply Qle_refl.
  - rewrite (round53_0 x Hx). apply Qlt_le_weak, round53_sign_pos, Hy.
  - rewrite (round53_gt x Hx), (round53_gt y Hy). apply round53_pos_mono; assumption.
Qed.

Lemma round53_nonzero x : round53 x == 0 -> x == 0.
Proof.
  intros H. destruct (Qsign_cases x) as [Hx|[Hx|Hx]]; [|exact Hx|].
  - pose proof (round53_sign_neg x Hx). lra.
  - pose proof (round53_sign_pos x Hx). lra.
Qed.

Lemma round53_idem x : round53 (round53 x) == round53 x.
Proof.
  destruct (Qsign_cases x) as [Hx|[Hx|Hx]].
  - pose proof (round53_sign_neg x Hx) as Hr. rewrite (round53_lt _ Hr).
    assert (0 < round53_pos (- x)) as Hp by (apply round53_pos_pos; lra).
    rewrite (round53_pos_proper (- round53 x) (round53_pos (- x))).
    + rewrite round53_pos_idem by lra. rewrite (round53_lt x Hx). reflexivity.
    + lra.
    + rewrite (round53_lt x Hx). ring.
  - rewrite (round53_0 x Hx). reflexivity.
  - pose proof (round53_sign_pos x Hx) as Hr. rewrite (round53_gt _ Hr).
    rewrite (round53_pos_proper (round53 x) (round53_pos x) Hr (round53_gt x Hx)).
    rewrite round53_pos_idem by exact Hx. rewrite (round53_gt x Hx). reflexivity.
Qed.

Lemma round53_int (z : Z) :
  (- 2 ^ 53 <= z <= 2 ^ 53)%Z -> round53 (inject_Z z) == inject_Z z.
Proof.
  intros [Hlo Hhi]. destruct (Z.lt_trichotomy z 0) as [Hz|[->|Hz]].
  - assert (inject_Z z < 0) as Hq by (unfold Qlt; simpl; lia).
    rewrite (round53_lt _ Hq).
    rewrite (round53_pos_proper (- inject_Z z) (inject_Z (- z))).
    + rewrite round53_pos_int by lia. rewrite inject_Z_opp. ring.
    + lra.
    + rewrite inject_Z_opp. reflexivity.
  - reflexivity.
  - assert (0 < inject_Z z) as Hq by (unfold Qlt; simpl; lia).
    rewrite (round53_gt _ Hq). apply round53_pos_int. lia.
Qed.

Lemma round53_tie : round53 (inject_Z (2 ^ 53 + 1)) == inject_Z (2 ^ 53).
Proof. vm_compute. reflexivity. Qed.

End Rounding.

Definition runtime : PyRuntime := {|
  log2 := log2_dyadic;
  log2_proper := log2_dyadic_proper;
  rnd := round53;
  rnd_proper := round53_proper;
  rnd_mono := round53_mono;
  rnd_idem := round53_idem;
  rnd_int := round53_int;
  rnd_tie := round53_tie;
  rnd_nonzero := round53_nonzero;
  sys_maxsize := 2 ^ 63 - 1;
  sys_maxsize_pos := eq_refl;
  set_order := fun _ => elements;
  set_order_perm := fun _ X => reflexivity (elements X);
  argsort := argsort_stable;
  argsort_perm := argsort_stable_perm;
  argsort_sorted := argsort_stable_sorted;
|}.

Local Open Scope Z_scope.

(** A linear congruential generator on 31 bits. *)
Definition lcg_next (g : Z) : Z := (g * 1103515245 + 12345) mod 2147483648.

Definition lcg_draw (k : nat) (g : Z) : nat := Z.to_nat ((g / 65536) mod Z.of_nat k).

Fixpoint lcg_indices (k size : nat) (g : Z) : list nat * Z :=
  match size with
  | O => ([], g)
  | S size' =>
      let '(l, g') := lcg_indices k size' (lcg_next g) in
      (lcg_draw k g :: l, g')
  end.

Lemma lcg_draw_lt k g : (0 < k)%nat → (lcg_draw k g < k)%nat.
Proof.
  intros Hk. unfold lcg_draw.
  pose proof (Z.mod_pos_bound (g / 65536) (Z.of_nat k)). lia.
Qed.

Lemma lcg_indices_length k size g : length (lcg_indices k size g).1 = size.
Proof.
  revert g. induction size as [|size IH]; intros g; simpl; [done|].
  specialize (IH (lcg_next g)). destruct (lcg_indices k size (lcg_next g)).
  simpl in *. by f_equal.
Qed.

Lemma lcg_indices_lt k size g :
  (0 < k)%nat → Forall (fun i => (i < k)%nat) (lcg_indices k size g).1.
Proof.
  intros Hk. revert g. induction size as [|size IH]; intros g; simpl; [constructor|].
  specialize (IH (lcg_next g)). destruct (lcg_indices k size (lcg_next g)). simpl in *.
  constructor; [by apply lcg_draw_lt|done].
Qed.

Lemma lcg_float_range (g : Z) :
  (0 <= ((g / 65536) mod 100 # 100) ∧ ((g / 65536) mod 100 # 100) < 1)%Q.
Proof.
  pose proof (Z.mod_pos_bound (g / 65536) 100).
  unfold Qle, Qlt. simpl. lia.
Qed.

Lemma rotate_perm {A} (k : nat) (l : list A) : rotate k l ≡ₚ l.
Proof.
  unfold rotate. rewrite (comm (++)). by rewrite take_drop.
Qed.

Definition lcg : NumpyRandom Z := {|
  random_float := fun g => ((g / 65536) mod 100 # 100, lcg_next g);
  random_float_range := lcg_float_range;
  random_index := fun k g => (lcg_draw k g, lcg_next g);
  random_index_lt := lcg_draw_lt;
  random_indices := lcg_indices;
  random_indices_length := lcg_indices_length;
  random_indices_lt := lcg_indices_lt;
  random_permutation := fun k g => (rotate (lcg_draw k g) (seq 0 k), lcg_next g);
  random_permutation_perm := fun k g => rotate_perm (lcg_draw k g) (seq 0 k);
|}.

End Reference.

(** * Match rates *)

Section MatchScores.
Context `{RT : PyRuntime}.
Implicit Types (ds : catalog) (d : string) (current symptoms : gset string).

Lemma Qnat_le (a b : nat) : (a ≤ b)%nat → (Qnat a <= Qnat b)%Q.
Proof. intros. unfold Qnat. rewrite <-Zle_Qle. lia. Qed.

Lemma Qnat_pos (a : nat) : (0 < a)%nat → (0 < Qnat a)%Q.
Proof. intros. unfold Qnat, Qlt. simpl. lia. Qed.

Lemma Qnat_nonneg (a : nat) : (0 <= Qnat a)%Q.
Proof. unfold Qnat, Qle. simpl. lia. Qed.

Lemma dict_get_dict_set {V} (k k' : string) (v : V) (dict : list (string * V)) :
  dict_get k (dict_set k' v dict) = if decide (k' = k) then Some v else dict_get k dict.
Proof.
  induction dict as [|[k0 v0] dict IH]; simpl.
  - done.
  - destruct (decide (k0 = k')) as [->|Hne]; simpl.
    + by destruct (decide (k' = k)).
    + rewrite IH. destruct (decide (k0 = k)) as [->|]; [|done].
      by rewrite decide_False by congruence.
Qed.


Lemma get_disease_match_scores_snoc ds d symptoms current :
  get_disease_match_scores (ds ++ [(d, symptoms)]) current =
  dict_set d (match_rate current symptoms) (get_disease_match_scores ds current).
Proof. unfold get_disease_match_scores. by rewrite foldl_app. Qed.

(** The entry of a disease is the rate of its last binding. *)
Lemma dict_get_match_scores ds d current :
  dict_get d (get_disease_match_scores ds current) =
  match_rate current <$> dict_get d (reverse ds).
Proof.
  induction ds as [|[d' symptoms] ds IH] using rev_ind; [done|].
  rewrite get_disease_match_scores_snoc, dict_get_dict_set, reverse_snoc. simpl.
  destruct (decide (d' = d)); [done|]. apply IH.
Qed.


Lemma dict_get_NoDup {V} (k : string) (v : V) (dict : list (string * V)) :
  NoDup dict.*1 → (k, v) ∈ dict → dict_get k dict = Some v.
Proof.
  induction dict as [|[k0 v0] dict IH]; simpl; [by intros _ ?%elem_of_nil|].
  intros [Hk0 Hnd]%NoDup_cons [[= -> ->]|Hin]%elem_of_cons.
  - by rewrite decide_True.
  - rewrite decide_False; [by apply IH|].
    intros ->. apply Hk0. apply list_elem_of_fmap. by exists (k, v).
Qed.

Lemma match_rate_range current symptoms :
  (0 <= match_rate current symptoms ∧ match_rate current symptoms <= 1)%Q.
Proof.
  unfold match_rate. destruct (0 <? size symptoms)%nat eqn:Hpos; [|done].
  apply Nat.ltb_lt in Hpos. split.
  - apply Qle_shift_div_l; [by apply Qnat_pos|]. rewrite Qmult_0_l. apply Qnat_nonneg.
  - apply Qle_shift_div_r; [by apply Qnat_pos|]. rewrite Qmult_1_l.
    apply Qnat_le, subseteq_size. set_solver.
Qed.

Lemma match_rate_mono current current' symptoms :
  current ⊆ current' → (match_rate current symptoms <= match_rate current' symptoms)%Q.
Proof.
  intros Hsub. unfold match_rate. destruct (0 <? size symptoms)%nat eqn:Hpos; [|done].
  apply Nat.ltb_lt in Hpos. unfold Qdiv. apply Qmult_le_compat_r.
  - apply Qnat_le, subseteq_size. set_solver.
  - apply Qinv_le_0_compat, Qnat_nonneg.
Qed.


Lemma dict_get_is_Some {V} (k : string) (dict : list (string * V)) :
  k ∈ dict.*1 → is_Some (dict_get k dict).
Proof.
  induction dict as [|[k0 v0] dict IH]; simpl; [by intros ?%elem_of_nil|].
  intros [->|Hin]%elem_of_cons.
  - by rewrite decide_True.
  - destruct (decide (k0 = k)); [done|]. by apply IH.
Qed.

(** C6: the match rate of every disease grows with the confirmed set.
    For every catalog and every disease [d] of it, both mappings have an
    entry for [d], and the one under the smaller confirmed set is at most
    the one under the larger.  (A name that is no disease of the catalog
    has no entry in either mapping.) *)
Theorem get_disease_match_scores_mono ds d current current' :
  current ⊆ current' →
  (∀ symptoms, (d, symptoms) ∈ ds →
     ∃ v v', dict_get d (get_disease_match_scores ds current) = Some v ∧
             dict_get d (get_disease_match_scores ds current') = Some v' ∧
             (v <= v')%Q) ∧
  (d ∉ ds.*1 →
     dict_get d (get_disease_match_scores ds current) = None ∧
     dict_get d (get_disease_match_scores ds current') = None).
Proof.
  intros Hsub. rewrite !dict_get_match_scores. split.
  - intros symptoms Hin.
    destruct (dict_get_is_Some d (reverse ds)) as [symptoms' Hget].
    { rewrite fmap_reverse, elem_of_reverse. apply list_elem_of_fmap. by exists (d, symptoms). }
    rewrite Hget. simpl. eexists _, _. split; [done|]. split; [done|].
    by apply match_rate_mono.
  - intros Hnot. destruct (dict_get d (reverse ds)) as [symptoms|] eqn:Hget; [|done].
    exfalso. apply Hnot.
    assert (∀ (dict : list (string * gset string)), dict_get d dict = Some symptoms →
              d ∈ dict.*1) as Hkey.
    { induction dict as [|[k0 v0] dict IH]; simpl; [done|].
      destruct (decide (k0 = d)) as [->|]; [intros _; by left|].
      intros Hd. right. by apply IH. }
    apply Hkey in Hget. by rewrite fmap_reverse, elem_of_reverse in Hget.
Qed.

Lemma get_disease_match_scores_mono_witness :
  ({["x"]} : gset string) ⊆ {["x"; "y"]} ∧
  ("A", {["x"; "y"]}) ∈ ([("A", {["x"; "y"]}); ("B", {["z"]})] : catalog) ∧
  ∃ v v',
    dict_get "A" (get_disease_match_scores [("A", {["x"; "y"]}); ("B", {["z"]})] {["x"]})
      = Some v ∧
    dict_get "A" (get_disease_match_scores [("A", {["x"; "y"]}); ("B", {["z"]})] {["x"; "y"]})
      = Some v' ∧
    (v <= v')%Q.
Proof.
  assert (({["x"]} : gset string) ⊆ {["x"; "y"]}) as Hsub by set_solver.
  assert (("A", {["x"; "y"]}) ∈ ([("A", {["x"; "y"]}); ("B", {["z"]})] : catalog)) as Hin
    by apply list_elem_of_here.
  split; [exact Hsub|]. split; [exact Hin|].
  exact (proj1 (get_disease_match_scores_mono [("A", {["x"; "y"]}); ("B", {["z"]})] "A"
                  {["x"]} {["x"; "y"]} Hsub) {["x"; "y"]} Hin).
Defined.


End MatchScores.

(** * Scoring *)

Section Scoring.
Context `{RT : PyRuntime}.
Implicit Types (ds candidate_diseases : catalog) (symptoms : gset string).

Lemma Qltb_lt (x y : Q) : Qltb x y = true ↔ (x < y)%Q.
Proof.
  unfold Qltb. rewrite negb_true_iff, <-not_true_iff_false, Qle_bool_iff.
  split; [apply Qnot_le_lt|apply Qlt_not_le].
Qed.

Lemma Qltb_ge (x y : Q) : Qltb x y = false ↔ (y <= x)%Q.
Proof. unfold Qltb. by rewrite negb_false_iff, Qle_bool_iff. Qed.

(** *** Rounding *)

#[global] Instance rnd_Proper : Proper (Qeq ==> Qeq) rnd.
Proof. intros x y Hxy. by apply rnd_proper. Qed.

#[global] Instance float_add_Proper : Proper (Qeq ==> Qeq ==> Qeq) float_add.
Proof. intros x x' Hx y y' Hy. unfold float_add. by rewrite Hx, Hy. Qed.

#[global] Instance float_sub_Proper : Proper (Qeq ==> Qeq ==> Qeq) float_sub.
Proof. intros x x' Hx y y' Hy. unfold float_sub. by rewrite Hx, Hy. Qed.

#[global] Instance float_mul_Proper : Proper (Qeq ==> Qeq ==> Qeq) float_mul.
Proof. intros x x' Hx y y' Hy. unfold float_mul. by rewrite Hx, Hy. Qed.

Lemma rnd_0 : (rnd 0 == 0)%Q.
Proof. apply (rnd_int 0). lia. Qed.

Lemma rnd_1 : (rnd 1 == 1)%Q.
Proof. apply (rnd_int 1). lia. Qed.

Lemma rnd_nonneg (x : Q) : (0 <= x)%Q → (0 <= rnd x)%Q.
Proof. intros Hx. rewrite <-rnd_0. by apply rnd_mono. Qed.

Lemma rnd_pos (x : Q) : (0 < x)%Q → (0 < rnd x)%Q.
Proof.
  intros Hx. destruct (Qle_lteq 0 (rnd x)) as [[Hlt|Heq] _].
  - apply rnd_nonneg. by apply Qlt_le_weak.
  - done.
  - symmetry in Heq. apply rnd_nonzero in Heq. rewrite Heq in Hx.
    by apply Qlt_irrefl in Hx.
Qed.

Lemma rnd_le_1 (x : Q) : (x <= 1)%Q → (rnd x <= 1)%Q.
Proof. intros Hx. rewrite <-rnd_1. by apply rnd_mono. Qed.

Lemma py_float_pos (k : nat) : (0 < k)%nat → (0 < py_float k)%Q.
Proof. intros Hk. apply rnd_pos. by apply Qnat_pos. Qed.

Lemma py_float_nonzero (k : nat) : k ≠ 0%nat → ¬ (py_float k == 0)%Q.
Proof.
  intros Hk H. apply (Qlt_not_eq 0 (py_float k)); [apply py_float_pos; lia|by symmetry].
Qed.

Lemma py_float_0 : (py_float 0 == 0)%Q.
Proof. apply rnd_0. Qed.

Lemma py_float_mono (a b : nat) : (a ≤ b)%nat → (py_float a <= py_float b)%Q.
Proof. intros. by apply rnd_mono, Qnat_le. Qed.

Lemma py_div_Ok (a b : Q) : ¬ (b == 0)%Q → py_div a b = Ok (rnd (a / b)).
Proof.
  intros Hb. unfold py_div. destruct (Qeq_bool b 0) eqn:Heq; [|done].
  by apply Qeq_bool_iff in Heq.
Qed.

Lemma py_div_raises (a b : Q) e : py_div a b = Err e → e = ZeroDivisionError.
Proof. unfold py_div. destruct (Qeq_bool b 0); by intros [= <-]. Qed.

Lemma Qnat_nonzero (k : nat) : k ≠ 0%nat → ¬ (Qnat k == 0)%Q.
Proof.
  intros Hk H. apply (Qlt_not_eq 0 (Qnat k)); [apply Qnat_pos; lia|by symmetry].
Qed.

Lemma Qdiv_Qnat_nonneg (a b : nat) : (0 <= Qnat a / Qnat b)%Q.
Proof.
  unfold Qdiv. apply Qmult_le_0_compat; [apply Qnat_nonneg|].
  apply Qinv_le_0_compat, Qnat_nonneg.
Qed.

Lemma math_log2_Ok (x : Q) : (0 < x)%Q → math_log2 x = Ok (log2 x).
Proof. intros Hx. unfold math_log2. by rewrite (proj2 (Qltb_lt _ _)). Qed.

(** [_calculate_total_information_gain] never raises: both logarithms
    are guarded. *)
Lemma information_gain_Ok symptoms candidate_diseases :
  is_Ok (_calculate_total_information_gain symptoms candidate_diseases).
Proof.
  unfold _calculate_total_information_gain.
  destruct (decide (length candidate_diseases = 0%nat)) as [|Hlen]; [by eexists|].
  rewrite math_log2_Ok by (apply py_float_pos; lia).
  unfold_result.
  assert (∀ subgroups acc, is_Ok acc → is_Ok
    (foldl (fun acc subgroup =>
       match acc with
       | Ok conditional_entropy =>
           match py_div (Qnat (length subgroup)) (Qnat (length candidate_diseases)) with
           | Ok prob =>
               if Qltb 0 prob then
                 match math_log2 prob with
                 | Ok l => Ok (float_sub conditional_entropy (float_mul prob l))
                 | Err e => Err e
                 end
               else Ok conditional_entropy
           | Err e => Err e
           end
       | Err e => Err e
       end) acc (subgroups : list (list string)))) as Hfold.
  { induction subgroups as [|subgroup subgroups IH]; intros acc [c ->]; simpl; [by eexists|].
    apply IH. rewrite py_div_Ok by by apply Qnat_nonzero.
    unfold math_log2. destruct (Qltb 0 _); by eexists. }
  destruct (Hfold (_split_by_symptoms symptoms candidate_diseases) (Ok 0%Q)) as [c ->];
    by eexists.
Qed.

(** [_calculate_coverage_score] raises only on a candidate with no
    symptom at all. *)
Lemma coverage_score_Ok symptoms candidate_diseases :
  Forall (fun p => p.2 ≠ ∅) candidate_diseases →
  is_Ok (_calculate_coverage_score symptoms candidate_diseases).
Proof.
  intros Hne. unfold _calculate_coverage_score. unfold_result.
  assert (∀ acc, is_Ok acc → is_Ok
    (foldl (fun acc (p : string * gset string) =>
       match acc with
       | Ok total_coverage =>
           match py_div (Qnat (size (symptoms ∩ p.2))) (Qnat (size p.2)) with
           | Ok coverage => Ok (float_add total_coverage coverage)
           | Err e => Err e
           end
       | Err e => Err e
       end) acc candidate_diseases)) as Hfold.
  { induction Hne as [|p l Hp _ IH]; intros acc [c ->]; simpl; [by eexists|].
    apply IH. rewrite py_div_Ok; [by eexists|].
    apply Qnat_nonzero. rewrite size_non_empty_iff. by intros ?%leibniz_equiv. }
  destruct (Hfold (Ok 0%Q)) as [c ->]; [by eexists|].
  destruct (decide (candidate_diseases = [])) as [|Hnil]; [by eexists|].
  rewrite py_div_Ok; [by eexists|]. apply py_float_nonzero.
  by destruct candidate_diseases.
Qed.

Lemma candidate_diseases_nonempty ds current_symptoms :
  Forall (fun p => p.2 ≠ ∅) (_get_candidate_diseases ds current_symptoms).
Proof.
  unfold _get_candidate_diseases. apply Forall_forall.
  intros p [Hp _]%list_elem_of_filter. set_solver.
Qed.

(** The three counters of [_calculate_mutual_information] stay below
    the number of diseases visited. *)
Lemma mutual_information_counts (symptom1 symptom2 : string) (l : list (gset string))
    (a b c : nat) :
  let '(count_both, count_s1, count_s2) :=
    foldl (fun '(count_both, count_s1, count_s2) symptoms =>
             let has_s1 := bool_decide (symptom1 ∈ symptoms) in
             let has_s2 := bool_decide (symptom2 ∈ symptoms) in
             ((if has_s1 && has_s2 then S count_both else count_both),
              (if has_s1 then S count_s1 else count_s1),
              (if has_s2 then S count_s2 else count_s2)))
          (a, b, c) l in
  (count_both ≤ a + length l)%nat.
Proof.
  revert a b c. induction l as [|x l IH]; intros a b c; simpl; [lia|].
  match goal with |- context [foldl _ (?a', ?b', ?c') l] =>
    specialize (IH a' b' c'); destruct (foldl _ (a', b', c') l) as [[cb c1] c2] end.
  destruct (bool_decide (symptom1 ∈ x) && bool_decide (symptom2 ∈ x)); lia.
Qed.

(** A probability that is not 0 is positive. *)
Lemma probability_pos (a b : nat) :
  ¬ (rnd (Qnat a / Qnat b) == 0)%Q → (0 < rnd (Qnat a / Qnat b))%Q.
Proof.
  intros Hne. destruct (Qle_lteq 0 (rnd (Qnat a / Qnat b))) as [[?|Heq] _]; [|done|].
  - apply rnd_nonneg, Qdiv_Qnat_nonneg.
  - destruct Hne. by symmetry.
Qed.

(** [_calculate_mutual_information] never raises. *)
Lemma mutual_information_Ok ds (symptom1 symptom2 : string) :
  is_Ok (_calculate_mutual_information ds symptom1 symptom2).
Proof.
  unfold _calculate_mutual_information.
  pose proof (mutual_information_counts symptom1 symptom2 (map snd ds) 0 0 0) as Hc.
  destruct (foldl _ (0%nat, 0%nat, 0%nat) (map snd ds)) as [[count_both count_s1] count_s2].
  rewrite length_map in Hc.
  destruct (decide (count_both = 0%nat)) as [|Hcb]; [by eexists|].
  assert (¬ (Qnat (length ds) == 0)%Q) as Htotal by (apply Qnat_nonzero; lia).
  rewrite !py_div_Ok by done. unfold_result.
  destruct (Qeq_bool (rnd (Qnat count_both / _)) 0) eqn:Hb; [by eexists|].
  destruct (Qeq_bool (rnd (Qnat count_s1 / _)) 0) eqn:H1; [by eexists|].
  destruct (Qeq_bool (rnd (Qnat count_s2 / _)) 0) eqn:H2; [by eexists|]. simpl.
  apply Qeq_bool_neq in Hb, H1, H2.
  apply probability_pos in Hb, H1, H2.
  assert (0 < float_mul (rnd (Qnat count_s1 / Qnat (length ds)))
                        (rnd (Qnat count_s2 / Qnat (length ds))))%Q as H12.
  { apply rnd_pos. by apply Qmult_lt_0_compat. }
  rewrite py_div_Ok by (intros Heq; rewrite Heq in H12; by apply Qlt_irrefl in H12).
  rewrite math_log2_Ok; [by eexists|].
  apply rnd_pos. apply Qlt_shift_div_l; [done|]. by rewrite Qmult_0_l.
Qed.

(** An error of the scoring functions is the division [1 / (1 +
    mutual_info)] by zero in [_calculate_independence_score]. *)
Definition scoring_error (ds : catalog) (e : exn) : Prop :=
  e = ZeroDivisionError ∧
  ∃ symptoms, _calculate_independence_score ds symptoms = Err ZeroDivisionError.

Lemma independence_score_raises ds symptoms e :
  _calculate_independence_score ds symptoms = Err e → scoring_error ds e.
Proof.
  intros Herr. assert (e = ZeroDivisionError) as ->; [|split; eauto].
  revert Herr. unfold _calculate_independence_score.
  destruct (decide (size symptoms ≤ 1)%nat); [done|]. unfold_result.
  assert (∀ pairs acc, is_Ok acc → is_Ok
    (foldl (fun acc (pair : list string) =>
       match acc with
       | Ok mutual_info =>
           match pair with
           | [s1; s2] =>
               match _calculate_mutual_information ds s1 s2 with
               | Ok mi => Ok (float_add mutual_info mi)
               | Err e => Err e
               end
           | _ => Ok mutual_info
           end
       | Err e => Err e
       end) acc pairs)) as Hfold.
  { induction pairs as [|pair pairs IH]; intros acc [c ->]; simpl; [by eexists|].
    apply IH. destruct pair as [|s1 [|s2 [|]]]; try by eexists.
    destruct (mutual_information_Ok ds s1 s2) as [mi ->]. by eexists. }
  destruct (Hfold (combinations (set_order symptoms_object symptoms) 2) (Ok 0%Q)) as [c ->];
    [by eexists|].
  apply py_div_raises.
Qed.

Lemma combined_score_raises ds symptoms current_symptoms e :
  _calculate_combined_score ds symptoms (_get_candidate_diseases ds current_symptoms) = Err e →
  scoring_error ds e.
Proof.
  unfold _calculate_combined_score.
  destruct (information_gain_Ok symptoms (_get_candidate_diseases ds current_symptoms))
    as [ig ->].
  destruct (coverage_score_Ok symptoms (_get_candidate_diseases ds current_symptoms))
    as [cov ->]; [apply candidate_diseases_nonempty|].
  unfold_result.
  destruct (_calculate_independence_score ds symptoms) eqn:Hind; [done|].
  intros [= <-]. by eapply independence_score_raises.
Qed.

(** C9: with no candidate disease the information gain and the coverage
    of every symptom set are 0; nothing is raised, since the logarithm
    of the number of candidates and the division by it are both behind
    the emptiness checks. *)
Theorem scoring_empty_candidates symptoms :
  _calculate_total_information_gain symptoms [] = Ok 0%Q ∧
  _calculate_coverage_score symptoms [] = Ok 0%Q.
Proof. split; reflexivity. Qed.
End Scoring.

(** * Combinations and the running maximum *)

Section Combinations.
Context {A : Type}.
Implicit Types (l c : list A) (r : nat).

Lemma combinations_0 l : combinations l 0 = [[]].
Proof. by destruct l. Qed.

Lemma combinations_sublist l r c :
  c ∈ combinations l r → c `sublist_of` l ∧ length c = r.
Proof.
  revert r c. induction l as [|x l IH]; intros [|r] c; simpl.
  - intros ->%list_elem_of_singleton. split; [constructor|done].
  - by intros ?%elem_of_nil.
  - intros ->%list_elem_of_singleton. split; [apply sublist_nil_l|done].
  - intros [(c' & -> & Hc')%list_elem_of_fmap|Hc]%elem_of_app.
    + destruct (IH _ _ Hc') as [? ?]. split; [by constructor|simpl; lia].
    + destruct (IH _ _ Hc) as [? ?]. split; [by constructor|done].
Qed.

Lemma sublist_combinations l c : c `sublist_of` l → c ∈ combinations l (length c).
Proof.
  induction 1 as [|x c l _ IH|x c l _ IH]; simpl.
  - by left.
  - apply elem_of_app. left. apply list_elem_of_fmap. by exists c.
  - destruct c as [|y c]; simpl in *.
    + by left.
    + apply elem_of_app. by right.
Qed.

(** The first entry whose score no other entry exceeds. *)
Definition first_max (scored : list (Q * A)) (best : option (Q * A)) : Prop :=
  match best with
  | None => scored = []
  | Some (s, x) =>
      ∃ i, scored !! i = Some (s, x) ∧
           (∀ j sj xj, scored !! j = Some (sj, xj) → (sj <= s)%Q) ∧
           (∀ j sj xj, (j < i)%nat → scored !! j = Some (sj, xj) → (sj < s)%Q)
  end.

Lemma best_of_first_max scored : first_max scored (best_of scored).
Proof.
  unfold best_of.
  induction scored as [|[s x] scored IH] using rev_ind; [done|].
  rewrite foldl_app. simpl.
  destruct (foldl _ None scored) as [[s0 x0]|]; simpl in *.
  - destruct IH as (i & Hi & Hmax & Hfirst).
    destruct (Qltb s0 s) eqn:Hlt.
    + apply Qltb_lt in Hlt. exists (length scored). split; [|split].
      * by rewrite list_lookup_middle.
      * intros j sj xj [[_ Hj]|[_ [= <- <-]]]%lookup_snoc_Some; [|apply Qle_refl].
        apply Qlt_le_weak. eapply Qle_lt_trans; [by eapply Hmax|done].
      * intros j sj xj Hlen [[_ Hj]|[-> ?]]%lookup_snoc_Some; [|lia].
        eapply Qle_lt_trans; [by eapply Hmax|done].
    + apply Qltb_ge in Hlt. exists i. split; [|split].
      * by apply lookup_app_l_Some.
      * intros j sj xj [[_ Hj]|[_ [= <- <-]]]%lookup_snoc_Some; [by eapply Hmax|done].
      * intros j sj xj Hji [[_ Hj]|[-> _]]%lookup_snoc_Some; [by eapply Hfirst|].
        apply lookup_lt_Some in Hi. lia.
  - subst. exists 0%nat. split; [done|]. split.
    + intros [|[|j]] sj xj [= <- <-]. apply Qle_refl.
    + intros j sj xj Hj. lia.
Qed.

(** A search loop either meets a score that raises, or scores every
    entry and keeps the running maximum. *)
Lemma search_loop_inv (f : A → result Q) (l : list A) :
  match foldl (fun acc x => best ← acc; score ← f x; mret (keep_best best score x))
              (Ok None) l with
  | Ok best => ∃ scored, Forall2 (fun x sx => f x = Ok sx.1 ∧ sx.2 = x) l scored ∧
                         best = best_of scored
  | Err e => ∃ x, x ∈ l ∧ f x = Err e
  end.
Proof.
  induction l as [|x l IH] using rev_ind; [by exists []|].
  rewrite foldl_app. simpl. destruct (foldl _ (Ok None) l) as [best|e]; simpl.
  - destruct IH as (scored & Hscored & ->).
    destruct (f x) as [s|e] eqn:Hx; simpl.
    + exists (scored ++ [(s, x)]). split.
      * apply Forall2_app; [done|]. by repeat constructor.
      * unfold best_of. by rewrite foldl_app.
    + exists x. split; [|done]. apply elem_of_app. right. by left.
  - destruct IH as (y & ? & ?). exists y. split; [|done]. apply elem_of_app. by left.
Qed.
End Combinations.

(** * The exhaustive selector *)

Section SetOrder.
Context `{RT : PyRuntime}.
Implicit Types (X : gset string) (o : set_object).

Lemma set_order_NoDup o X : NoDup (set_order o X).
Proof. rewrite set_order_perm. apply NoDup_elements. Qed.

Lemma elem_of_set_order x o X : x ∈ set_order o X ↔ x ∈ X.
Proof. rewrite set_order_perm. apply elem_of_elements. Qed.

Lemma length_set_order o X : length (set_order o X) = size X.
Proof. by rewrite set_order_perm. Qed.

Lemma list_to_set_set_order o X : list_to_set (set_order o X) = X.
Proof. apply set_eq. intros x. by rewrite elem_of_list_to_set, elem_of_set_order. Qed.

Lemma set_order_nil o X : set_order o X = [] ↔ X = ∅.
Proof.
  split.
  - intros H. rewrite <-(list_to_set_set_order o X), H. done.
  - intros ->. apply length_zero_iff_nil. by rewrite length_set_order, size_empty.
Qed.
End SetOrder.

Section Exhaustive.
Context `{RT : PyRuntime} {G : Type} `{RNG : !NumpyRandom G}.
Implicit Types (ds : catalog) (current denied pool c : gset string) (combo : list string).

(** The score of a proposal in the words of the specification: the
    combined score of the confirmed symptoms together with the proposal,
    less 0.2 for every denied symptom in the proposal, in the doubles the
    program computes with. *)
Definition penalized_score ds current (candidate_diseases : catalog) denied c : result Q :=
  score ← _calculate_combined_score ds (current ∪ c) candidate_diseases;
  mret (float_sub score (float_mul (py_float (size (c ∩ denied))) (literal (2 # 10)))).

Lemma ssize_overflow_false (k : Z) :
  (- sys_maxsize - 1 ≤ k ≤ sys_maxsize)%Z → ssize_overflow k = false.
Proof.
  intros Hk. unfold ssize_overflow.
  rewrite (proj2 (Z.ltb_ge _ _)), (proj2 (Z.ltb_ge _ _)) by lia. done.
Qed.

Lemma ssize_overflow_true (k : Z) :
  ssize_overflow k = true → (k < - sys_maxsize - 1 ∨ sys_maxsize < k)%Z.
Proof.
  unfold ssize_overflow. intros [H|H]%orb_true_iff; apply Z.ltb_lt in H; lia.
Qed.

Lemma exhaustive_score_penalized ds current candidate_diseases denied combo :
  NoDup combo →
  exhaustive_score ds current candidate_diseases denied combo =
  penalized_score ds current candidate_diseases denied (list_to_set combo).
Proof.
  intros Hnd. unfold exhaustive_score, penalized_score.
  replace (size (list_to_set combo ∩ denied))
    with (length (filter (fun symptom => symptom ∈ denied) combo)); [done|].
  rewrite <-(size_list_to_set (C := gset string)) by by apply NoDup_filter.
  f_equal. apply set_eq. intros x.
  rewrite elem_of_list_to_set, list_elem_of_filter. set_solver.
Qed.

Lemma symptom_score_raises ds current denied symptom e :
  symptom_score ds current (_get_candidate_diseases ds current) denied symptom = Err e →
  scoring_error ds e.
Proof.
  unfold symptom_score, _calculate_symptom_importance.
  destruct (_calculate_combined_score _ _ _) eqn:Hs; simpl.
  - by destruct (decide _).
  - intros [= <-]. by eapply combined_score_raises.
Qed.

Lemma exhaustive_score_raises ds current denied combo e :
  exhaustive_score ds current (_get_candidate_diseases ds current) denied combo = Err e →
  scoring_error ds e.
Proof.
  unfold exhaustive_score.
  destruct (_calculate_combined_score _ _ _) eqn:Hs; simpl; [done|].
  intros [= <-]. by eapply combined_score_raises.
Qed.

(** What a call of [_exhaustive_search] on the pool returns. *)
Definition exhaustive_result ds current denied (n : Z) (r : result (gset string)) : Prop :=
  let pool := all_symptoms ds ∖ current in
  let candidate_diseases := _get_candidate_diseases ds current in
  match r with
  | Err e => scoring_error ds e
  | Ok c =>
      ∃ sorted_symptoms i combo score,
        sorted_by_key_desc (symptom_score ds current candidate_diseases denied)
          (set_order available_symptoms_object pool) = Ok sorted_symptoms ∧
        combinations sorted_symptoms (Z.to_nat n) !! i = Some combo ∧
        c = list_to_set combo ∧
        c ⊆ pool ∧ size c = Z.to_nat n ∧
        penalized_score ds current candidate_diseases denied c = Ok score ∧
        (∀ c', c' ⊆ pool → size c' = Z.to_nat n →
           ∃ score', penalized_score ds current candidate_diseases denied c' = Ok score' ∧
                     (score' <= score)%Q) ∧
        (∀ j combo', (j < i)%nat →
           combinations sorted_symptoms (Z.to_nat n) !! j = Some combo' →
           ∃ score', penalized_score ds current candidate_diseases denied
                       (list_to_set combo') = Ok score' ∧
                     (score' < score)%Q)
  end.

Lemma exhaustive_search_result ds current denied (n : Z) :
  (1 ≤ n ≤ Z.of_nat (size (all_symptoms ds ∖ current)))%Z → (n ≤ sys_maxsize)%Z →
  exhaustive_result ds current denied n
    (_exhaustive_search ds current (_get_candidate_diseases ds current)
       (all_symptoms ds ∖ current) n denied).
Proof.
  intros Hn Hfits. unfold exhaustive_result.
  set (pool := all_symptoms ds ∖ current) in *.
  set (cands := _get_candidate_diseases ds current) in *.
  unfold _exhaustive_search.
  pose proof (sorted_by_key_desc_inv (symptom_score ds current cands denied)
                (set_order available_symptoms_object pool)) as Hsort.
  destruct (sorted_by_key_desc _ _) as [sorted|e]; simpl; cycle 1.
  { destruct Hsort as (x & _ & Hx). by eapply symptom_score_raises. }
  destruct Hsort as [Hperm _].
  assert (NoDup sorted) as Hnd by (rewrite Hperm; apply set_order_NoDup).
  assert (∀ x, x ∈ sorted ↔ x ∈ pool) as Hin
    by (intros x; rewrite Hperm; apply elem_of_set_order).
  assert (length sorted = size pool) as Hlen by (rewrite Hperm; apply length_set_order).
  unfold py_combinations. pose proof sys_maxsize_pos as Hmaxpos.
  rewrite ssize_overflow_false by lia. rewrite (proj2 (Z.ltb_ge _ _)) by lia. simpl.
  unfold exhaustive_best.
  pose proof (search_loop_inv (exhaustive_score ds current cands denied)
                (combinations sorted (Z.to_nat n))) as Hloop.
  destruct (foldl _ (Ok None) (combinations sorted (Z.to_nat n))) as [best|e]; simpl; cycle 1.
  { destruct Hloop as (x & _ & Hx). by eapply exhaustive_score_raises. }
  destruct Hloop as (scored & Hscored & ->).
  pose proof (best_of_first_max scored) as Hbest.
  destruct (best_of scored) as [[score combo]|]; simpl in *; cycle 1.
  { subst scored. apply Forall2_nil_inv_r in Hscored.
    assert (take (Z.to_nat n) sorted ∈ combinations sorted (Z.to_nat n)) as Hex.
    { pose proof (sublist_combinations sorted _ (sublist_take sorted (Z.to_nat n))) as H.
      by rewrite length_take, Nat.min_l in H by lia. }
    rewrite Hscored in Hex. by apply elem_of_nil in Hex. }
  destruct Hbest as (i & Hi & Hmax & Hfirst).
  destruct (Forall2_lookup_r _ _ _ _ _ Hscored Hi) as (combo0 & Hcombo & Hsc & Heq).
  simpl in *. subst combo0.
  destruct (combinations_sublist sorted (Z.to_nat n) combo) as [Hsub Hclen];
    [by eapply list_elem_of_lookup_2|].
  assert (NoDup combo) as Hcnd by by eapply sublist_NoDup.
  rewrite decide_False by (intros ->; simpl in *; lia).
  exists sorted, i, combo, score. split; [done|]. split; [done|]. split; [done|].
  split; [|split; [|split; [|split]]].
  - intros x Hx%elem_of_list_to_set. apply Hin. by eapply sublist_subseteq.
  - by rewrite size_list_to_set.
  - by rewrite <-exhaustive_score_penalized.
  - intros c' Hc' Hsize.
    set (combo' := filter (fun x => x ∈ c') sorted).
    assert (list_to_set combo' = c') as Hset.
    { apply set_eq. intros x. unfold combo'.
      rewrite elem_of_list_to_set, list_elem_of_filter, Hin. set_solver. }
    assert (NoDup combo') as Hnd' by by apply NoDup_filter.
    assert (length combo' = Z.to_nat n) as Hlen'.
    { by rewrite <-Hsize, <-Hset, size_list_to_set. }
    assert (combo' ∈ combinations sorted (Z.to_nat n)) as Hmem.
    { rewrite <-Hlen'. apply sublist_combinations, sublist_filter. }
    apply list_elem_of_lookup in Hmem as [j Hj].
    destruct (Forall2_lookup_l _ _ _ _ _ Hscored Hj) as ([sj xj] & Hsj & Hscj & Hxj).
    simpl in *. subst xj. exists sj. split.
    + by rewrite <-Hset, <-exhaustive_score_penalized.
    + by eapply Hmax.
  - intros j combo' Hji Hj.
    destruct (Forall2_lookup_l _ _ _ _ _ Hscored Hj) as ([sj xj] & Hsj & Hscj & Hxj).
    simpl in *. subst xj. exists sj. split.
    + rewrite <-exhaustive_score_penalized; [done|].
      destruct (combinations_sublist sorted (Z.to_nat n) combo') as [Hsub' _].
      { by eapply list_elem_of_lookup_2. }
      exact (sublist_NoDup _ _ Hnd Hsub').
    + by eapply Hfirst.
Qed.

End Exhaustive.

(** * Postconditions

    [res_post E r P]: the computation [r] returns a value that satisfies
    [P], or raises an exception that satisfies [E].  [rand_post] is the
    same for a computation that draws from the generator, from every
    state of it. *)

Section Post.
Context {G : Type}.
Variable E : exn → Prop.

Definition res_post {A} (r : result A) (P : A → Prop) : Prop :=
  match r with
  | Ok a => P a
  | Err e => E e
  end.

Definition rand_post {A} (m : rand G A) (P : A → Prop) : Prop :=
  ∀ g, res_post (m g).1 P.

Lemma res_post_mono {A} (r : result A) (P Q : A → Prop) :
  res_post r P → (∀ a, P a → Q a) → res_post r Q.
Proof. destruct r; simpl; auto. Qed.

Lemma res_post_bind {A B} (r : result A) (f : A → result B) (P : A → Prop) (Q : B → Prop) :
  res_post r P → (∀ a, P a → res_post (f a) Q) → res_post (r ≫= f) Q.
Proof. destruct r; simpl; auto. Qed.

Lemma res_post_mapM {A B} (f : A → result B) (l : list A) (P : A → B → Prop) :
  (∀ x, x ∈ l → res_post (f x) (P x)) → res_post (mapM f l) (Forall2 P l).
Proof.
  induction l as [|x l IH]; intros Hf; simpl; [constructor|].
  eapply res_post_bind; [apply Hf; by left|]. intros y Hy.
  eapply res_post_bind; [apply IH; intros; apply Hf; by right|].
  intros k Hk. simpl. by constructor.
Qed.

(** A loop written as [foldl] over an accumulator in [result]. *)
Lemma res_post_foldl {A S} (body : S → A → result S) (l : list A) (I : S → Prop)
    (acc : result S) :
  res_post acc I →
  (∀ s x, x ∈ l → I s → res_post (body s x) I) →
  res_post (foldl (fun acc x => s ← acc; body s x) acc l) I.
Proof.
  revert acc. induction l as [|x l IH]; intros acc Hacc Hbody; simpl; [done|].
  apply IH.
  - eapply res_post_bind; [done|]. intros s Hs. apply Hbody; [by left|done].
  - intros s y Hy. apply Hbody. by right.
Qed.

Lemma rand_post_mono {A} (m : rand G A) (P Q : A → Prop) :
  rand_post m P → (∀ a, P a → Q a) → rand_post m Q.
Proof. intros Hm HPQ g. eapply res_post_mono; [apply Hm|done]. Qed.

Lemma rand_post_ret {A} (a : A) (P : A → Prop) : P a → rand_post (mret a) P.
Proof. by intros Ha g. Qed.

Lemma rand_post_pure {A} (r : result A) (P : A → Prop) :
  res_post r P → rand_post (pure_result r) P.
Proof. by intros Hr g. Qed.

Lemma rand_post_bind {A B} (m : rand G A) (f : A → rand G B)
    (P : A → Prop) (Q : B → Prop) :
  rand_post m P → (∀ a, P a → rand_post (f a) Q) → rand_post (m ≫= f) Q.
Proof.
  intros Hm Hf g. specialize (Hm g). unfold mbind, rand_bind.
  destruct (m g) as [[a|e] g']; simpl in *; [by apply Hf|done].
Qed.

Lemma rand_post_mapM {A B} (f : A → rand G B) (l : list A) (P : A → B → Prop) :
  (∀ x, x ∈ l → rand_post (f x) (P x)) → rand_post (mapM f l) (Forall2 P l).
Proof.
  induction l as [|x l IH]; intros Hf; simpl.
  - apply rand_post_ret. constructor.
  - eapply rand_post_bind; [apply Hf; by left|]. intros y Hy.
    eapply rand_post_bind; [apply IH; intros; apply Hf; by right|].
    intros k Hk. apply rand_post_ret. by constructor.
Qed.

Lemma rand_post_foldlM {A S} (body : S → A → rand G S) (l : list A) (I : S → Prop) (s : S) :
  I s →
  (∀ s x, x ∈ l → I s → rand_post (body s x) I) →
  rand_post (foldlM body s l) I.
Proof.
  revert s. induction l as [|x l IH]; intros s Hs Hbody; simpl.
  - by apply rand_post_ret.
  - eapply rand_post_bind; [apply Hbody; [by left|done]|].
    intros s' Hs'. apply IH; [done|]. intros s'' y Hy. apply Hbody. by right.
Qed.

Lemma rand_post_repeatM {S} (k : nat) (body : S → rand G S) (I : S → Prop) (s : S) :
  I s → (∀ s, I s → rand_post (body s) I) → rand_post (repeatM k body s) I.
Proof.
  revert s. induction k as [|k IH]; intros s Hs Hbody; simpl.
  - by apply rand_post_ret.
  - eapply rand_post_bind; [by apply Hbody|]. intros s' Hs'. by apply IH.
Qed.
End Post.

Lemma res_post_weaken {A} (E E' : exn → Prop) (r : result A) (P Q : A → Prop) :
  res_post E r P → (∀ e, E e → E' e) → (∀ a, P a → Q a) → res_post E' r Q.
Proof. destruct r; simpl; auto. Qed.

(** * The greedy selector *)

Section Greedy.
Context `{RT : PyRuntime}.
Implicit Types (ds : catalog) (current denied pool selected : gset string)
  (l : list string).

Lemma elem_of_list_remove x y l :
  NoDup l → y ∈ list_remove x l ↔ y ∈ l ∧ y ≠ x.
Proof.
  induction l as [|z l IH]; simpl.
  - intros _. split; [by intros ?%elem_of_nil|by intros [?%elem_of_nil _]].
  - intros [Hz Hnd]%NoDup_cons. destruct (decide (z = x)) as [->|Hne].
    + rewrite elem_of_cons. split; [intros Hy; split; [by right|by intros ->]|].
      intros [[->|?] ?]; done.
    + rewrite !elem_of_cons, IH by done. split; [|tauto].
      intros [->|[? ?]]; [split; [by left|done]|split; [by right|done]].
Qed.

Lemma NoDup_list_remove x l : NoDup l → NoDup (list_remove x l).
Proof.
  induction l as [|z l IH]; simpl; [done|].
  intros [Hz Hnd]%NoDup_cons. destruct (decide (z = x)); [done|].
  apply NoDup_cons. split; [|by apply IH].
  rewrite elem_of_list_remove by done. tauto.
Qed.

(** What the rounds of [_greedy_selection] keep true of the selected set
    and the list still to choose from. *)
Definition greedy_inv pool selected l : Prop :=
  NoDup l ∧ (∀ x, x ∈ l → x ∉ selected) ∧ selected ∪ list_to_set l = pool.

Lemma greedy_best_post ds current denied selected l :
  res_post (scoring_error ds)
    (greedy_best ds current (_get_candidate_diseases ds current) denied selected l)
    (fun best => ∀ score symptom, best = Some (score, symptom) → symptom ∈ l).
Proof.
  unfold greedy_best.
  apply (res_post_foldl (scoring_error ds)
    (fun best symptom =>
       score ← _calculate_combined_score ds (current ∪ selected ∪ {[symptom]})
                 (_get_candidate_diseases ds current);
       mret (keep_best best
               (if decide (symptom ∈ denied) then float_mul score (literal (1 # 2)) else score) symptom))).
  - by intros ? ?.
  - intros best symptom Hin Hbest.
    destruct (_calculate_combined_score _ _ _) as [score|e] eqn:Hs; simpl.
    + intros score' symptom'. unfold keep_best.
      destruct best as [[best_score best_symptom]|]; [|by intros [= _ <-]].
      destruct (Qltb best_score _); [by intros [= _ <-]|]. apply Hbest.
    + by eapply combined_score_raises.
Qed.

Lemma greedy_rounds_post ds current denied pool (rounds : nat) selected l :
  greedy_inv pool selected l →
  res_post (scoring_error ds)
    (greedy_rounds ds current (_get_candidate_diseases ds current) denied rounds selected l)
    (fun '(selected', l') =>
       greedy_inv pool selected' l' ∧ (size selected' ≤ size selected + rounds)%nat).
Proof.
  revert selected l. induction rounds as [|rounds IH]; intros selected l Hinv; simpl.
  { split; [done|lia]. }
  destruct (decide (l = [])); [simpl; split; [done|lia]|].
  eapply res_post_bind; [apply greedy_best_post|].
  intros [[score best_symptom]|] Hbest; cycle 1.
  { eapply res_post_mono; [by apply IH|]. intros [selected' l'] [? ?]. split; [done|lia]. }
  destruct (decide (best_symptom = EmptyString)).
  { eapply res_post_mono; [by apply IH|]. intros [selected' l'] [? ?]. split; [done|lia]. }
  specialize (Hbest _ _ eq_refl). destruct Hinv as (Hnd & Hdisj & Hpool).
  eapply res_post_mono; [apply IH|].
  - split; [by apply NoDup_list_remove|]. split.
    + intros x [Hx Hne]%elem_of_list_remove; [|done].
      specialize (Hdisj x Hx). set_solver.
    + rewrite <-Hpool. apply set_eq. intros x.
      rewrite !elem_of_union, !elem_of_list_to_set, elem_of_list_remove by done.
      rewrite elem_of_singleton. destruct (decide (x = best_symptom)) as [->|]; [|tauto].
      tauto.
  - intros [selected' l'] [? Hsize]. split; [done|].
    rewrite size_union in Hsize by (specialize (Hdisj _ Hbest); set_solver).
    rewrite size_singleton in Hsize. lia.
Qed.

Lemma greedy_backfill_spec (n : Z) selected l :
  NoDup l → (∀ x, x ∈ l → x ∉ selected) →
  (Z.of_nat (size selected) ≤ n ≤ Z.of_nat (size selected + length l))%Z →
  size (greedy_backfill n selected l) = Z.to_nat n ∧
  greedy_backfill n selected l ⊆ selected ∪ list_to_set l.
Proof.
  unfold greedy_backfill. revert selected.
  induction l as [|s l IH]; intros selected Hnd Hdisj Hn; simpl in *.
  - split; [lia|set_solver].
  - apply NoDup_cons in Hnd as [Hs Hnd].
    destruct (n <=? Z.of_nat (size selected))%Z eqn:Hle.
    + apply Z.leb_le in Hle.
      destruct (IH selected Hnd) as [? ?]; [intros; apply Hdisj; by right|lia|].
      split; [done|set_solver].
    + apply Z.leb_gt in Hle.
      assert (s ∉ selected) by (apply Hdisj; by left).
      assert (size (selected ∪ {[s]}) = S (size selected)) as Hsize.
      { rewrite size_union by set_solver. rewrite size_singleton. lia. }
      destruct (IH (selected ∪ {[s]}) Hnd) as [? ?].
      * intros x Hx. specialize (Hdisj x (list_elem_of_further _ _ _ Hx)).
        assert (x ≠ s) by (by intros ->). set_solver.
      * lia.
      * split; [done|set_solver].
Qed.

(** [_greedy_selection] on a pool of at least [n] symptoms: a set of
    [n] symptoms of the pool, unless a score raised. *)
Lemma greedy_selection_post ds current denied pool (n : Z) :
  (n ≤ Z.of_nat (size pool))%Z →
  res_post (scoring_error ds)
    (_greedy_selection ds current (_get_candidate_diseases ds current) pool n denied)
    (fun proposal => proposal ⊆ pool ∧ size proposal = Z.to_nat n).
Proof.
  intros Hn. unfold _greedy_selection.
  pose proof (sorted_by_key_desc_inv
    (symptom_score ds current (_get_candidate_diseases ds current) denied)
    (set_order available_symptoms_object pool)) as Hsort.
  destruct (sorted_by_key_desc _ (set_order available_symptoms_object pool)) as [sorted|e]; simpl; cycle 1.
  { destruct Hsort as (x & _ & Hx). by eapply symptom_score_raises. }
  destruct Hsort as [Hperm _].
  assert (greedy_inv pool ∅ sorted) as Hinv.
  { split; [rewrite Hperm; apply set_order_NoDup|]. split; [set_solver|].
    rewrite union_empty_l_L. apply set_eq. intros x.
    by rewrite elem_of_list_to_set, Hperm, elem_of_set_order. }
  eapply res_post_bind; [by apply greedy_rounds_post|].
  intros [selected l] [(Hnd & Hdisj & Hpool) Hsize]. rewrite size_empty in Hsize.
  destruct (Z.of_nat (size selected) <? n)%Z eqn:Hlt; cycle 1.
  { apply Z.ltb_ge in Hlt. simpl. split; [set_solver|lia]. }
  apply Z.ltb_lt in Hlt.
  pose proof (sorted_by_key_desc_inv
    (symptom_score ds current (_get_candidate_diseases ds current) denied)
    (filter (fun s => s ∉ selected) l)) as Hsort.
  destruct (sorted_by_key_desc _ (filter _ l)) as [remaining|e]; simpl; cycle 1.
  { destruct Hsort as (x & _ & Hx). by eapply symptom_score_raises. }
  destruct Hsort as [Hrem _].
  assert (∀ l', (∀ x, x ∈ l' → x ∉ selected) →
                filter (fun s => s ∉ selected) l' = l') as Hfilter.
  { induction l' as [|x l' IH]; intros Hl'; [done|].
    rewrite filter_cons_True by (apply Hl'; by left). f_equal.
    apply IH. intros; apply Hl'; by right. }
  rewrite Hfilter in Hrem by done. clear Hfilter.
  assert (size pool = (size selected + length l)%nat) as Hpsize.
  { rewrite <-Hpool, size_union, size_list_to_set by (done || set_solver). done. }
  destruct (greedy_backfill_spec n selected remaining) as [Hbsize Hbsub].
  - by rewrite Hrem.
  - intros x Hx. apply Hdisj. by rewrite <-Hrem.
  - rewrite Hrem. lia.
  - split; [|done]. rewrite <-Hpool. etrans; [done|].
    apply union_mono_l. intros x. rewrite !elem_of_list_to_set. by rewrite Hrem.
Qed.
End Greedy.

(** * The random draws and the genetic operators *)

Section Draws.
Context `{RT : PyRuntime} {G : Type} `{RNG : !NumpyRandom G}.
Variable E : exn → Prop.

Lemma py_index_post {A} (l : list A) (i : nat) :
  (i < length l)%nat → res_post E (py_index l i) (fun x => l !! i = Some x).
Proof.
  intros Hi. unfold py_index.
  destruct (l !! i) eqn:Hl; simpl; [done|]. apply lookup_ge_None in Hl. lia.
Qed.

Lemma mapM_result_take {A B} (f : A → result B) (l : list A) (r : list B) (k : nat) :
  mapM f l = Ok r → mapM f (take k l) = Ok (take k r).
Proof.
  revert r k. induction l as [|x l IH]; intros r k; simpl.
  - intros [= <-]. by destruct k.
  - unfold_result. destruct (f x) as [y|] eqn:Hx; [|done].
    destruct (mapM f l) as [r'|] eqn:Hl; [|done]. intros [= <-].
    destruct k as [|k]; simpl; [done|]. unfold_result.
    by rewrite Hx, (IH r' k eq_refl).
Qed.

Lemma mapM_result_fmap {A B C} (f : A → result B) (h : B → C) (l : list A) (r : list B) :
  mapM f l = Ok r → mapM (fun i => x ← f i; mret (h x)) l = Ok (h <$> r).
Proof.
  revert r. induction l as [|i l IH]; intros r; simpl.
  - by intros [= <-].
  - unfold_result. destruct (f i) as [y|] eqn:Hy; [|done].
    destruct (mapM f l) as [r'|] eqn:Hl; [|done]. intros [= <-].
    by rewrite (IH r' eq_refl).
Qed.

Lemma np_str_idem (s : string) : np_str (np_str s) = np_str s.
Proof.
  induction s as [|c s IH]; simpl; [done|].
  destruct (np_str s) as [|c' t] eqn:Hs.
  - destruct (Ascii.eqb c Ascii.zero) eqn:Hc; simpl; [done|]. by rewrite Hc.
  - simpl in *. by rewrite IH.
Qed.

Lemma nul_free_subseteq (X Y : gset string) : X ⊆ Y → nul_free Y → nul_free X.
Proof. intros HXY HY s Hs. apply HY. by apply HXY. Qed.

Lemma nul_free_fmap (X : gset string) (l : list string) :
  nul_free X → (∀ x, x ∈ l → x ∈ X) → np_str <$> l = l.
Proof.
  intros HX. induction l as [|x l IH]; intros Hl; simpl; [done|].
  rewrite HX by (apply Hl; by left). f_equal. apply IH. intros; apply Hl; by right.
Qed.

(** One draw: the item numpy makes of an element of the list. *)
Lemma random_choice_post (a : list string) :
  a ≠ [] → rand_post E (random_choice a) (fun x => ∃ y, y ∈ a ∧ x = np_str y).
Proof.
  intros Ha g. unfold random_choice. rewrite decide_False by done.
  pose proof (random_index_lt (length a) g) as Hlt.
  destruct (random_index (length a) g) as [i g']. simpl in *.
  eapply res_post_bind; [apply py_index_post, Hlt|].
  - destruct a; [done|simpl; lia].
  - intros y Hy. simpl in *. exists y. split; [|done]. by eapply list_elem_of_lookup_2.
Qed.

Lemma random_choice_no_replace_post (a : list string) (size : Z) :
  NoDup a → (0 ≤ size ≤ Z.of_nat (length a))%Z → (size ≤ sys_maxsize)%Z →
  rand_post E (random_choice_no_replace a size)
    (fun l => ∃ l0, l = np_str <$> l0 ∧ NoDup l0 ∧ length l0 = Z.to_nat size ∧ l0 ⊆ a).
Proof.
  intros Hnd Hsize Hfits g. unfold random_choice_no_replace.
  rewrite decide_False by (intros [-> ?]; simpl in *; lia).
  pose proof sys_maxsize_pos as Hmaxpos.
  rewrite ssize_overflow_false by lia.
  rewrite (proj2 (Z.ltb_ge _ _)), (proj2 (Z.ltb_ge _ _)) by lia.
  pose proof (random_permutation_perm (length a) g) as Hperm.
  destruct (random_permutation (length a) g) as [perm g']. simpl in *.
  destruct (mapM_py_index_perm a perm Hperm) as (r & Hr & Hra).
  rewrite (mapM_result_fmap _ np_str _ _ (mapM_result_take _ _ _ (Z.to_nat size) Hr)). simpl.
  exists (take (Z.to_nat size) r). split; [done|]. split; [|split].
  - eapply sublist_NoDup; [|apply sublist_take]. by rewrite Hra.
  - rewrite length_take, Hra. lia.
  - intros x Hx%subseteq_take. by rewrite <-Hra.
Qed.

Lemma random_choice_range_post (k size : nat) :
  (0 < k)%nat →
  rand_post E (random_choice_range k size)
    (fun idx => length idx = size ∧ Forall (fun i => (i < k)%nat) idx).
Proof.
  intros Hk g. unfold random_choice_range. rewrite decide_False by lia.
  pose proof (random_indices_length k size g).
  pose proof (random_indices_lt k size g Hk).
  by destruct (random_indices k size g).
Qed.

Lemma random_shuffle_post {A} (l : list A) :
  rand_post E (random_shuffle l) (fun l' => l' ≡ₚ l).
Proof.
  intros g. unfold random_shuffle.
  pose proof (random_permutation_perm (length l) g) as Hperm.
  destruct (random_permutation (length l) g) as [perm g']. simpl in *.
  by destruct (mapM_py_index_perm l perm Hperm) as (r & -> & Hr).
Qed.

Lemma np_argmax_post (l : list Q) :
  l ≠ [] → res_post E (np_argmax l) (fun i => (i < length l)%nat).
Proof.
  intros Hl. unfold np_argmax.
  pose proof (best_of_first_max (imap (fun i x => (x, i)) l)) as Hbest.
  destruct (best_of _) as [[s i]|]; simpl in *.
  - destruct Hbest as (j & Hj & _).
    rewrite list_lookup_imap in Hj.
    destruct (l !! j) eqn:Hlj; simplify_eq/=. by eapply lookup_lt_Some.
  - destruct l; [done|]. discriminate.
Qed.

Lemma tournament_select_post (population : list (gset string)) (fitness_scores : list Q)
    (tournament_size : nat) :
  population ≠ [] → length fitness_scores = length population →
  (0 < tournament_size)%nat →
  rand_post E (_tournament_select population fitness_scores tournament_size)
    (fun parent => parent ∈ population).
Proof.
  intros Hpop Hlen Hsize. unfold _tournament_select.
  eapply rand_post_bind.
  { apply random_choice_range_post. destruct population; [done|simpl; lia]. }
  intros indices [Hilen Hidx].
  eapply rand_post_bind.
  { apply rand_post_pure.
    apply (res_post_mapM E _ _ (fun _ _ => True)).
    intros i Hi. eapply res_post_mono; [apply py_index_post|done].
    rewrite Hlen. by eapply (proj1 (Forall_forall _ _) Hidx). }
  intros tournament_fitness Htf. simpl in Htf. apply Forall2_length in Htf.
  eapply rand_post_bind.
  { apply rand_post_pure, np_argmax_post. destruct tournament_fitness; simpl in *; [lia|done]. }
  intros winner Hwinner. simpl in Hwinner.
  eapply rand_post_bind.
  { apply rand_post_pure, py_index_post. lia. }
  intros winner_idx Hwi. simpl in Hwi. apply rand_post_pure.
  eapply res_post_mono; [apply py_index_post|].
  - apply (proj1 (Forall_forall _ _) Hidx). by eapply list_elem_of_lookup_2.
  - intros parent Hp. simpl in Hp. by eapply list_elem_of_lookup_2.
Qed.

Lemma crossover_post (parent1 parent2 : gset string) (n : Z) :
  size parent1 = Z.to_nat n → size parent2 = Z.to_nat n → (0 ≤ n)%Z →
  rand_post E (_crossover parent1 parent2 n)
    (fun children => children.1 = children.2 ∧ size children.1 = Z.to_nat n ∧
                     children.1 ⊆ parent1 ∪ parent2).
Proof.
  intros H1 H2 Hn. unfold _crossover.
  assert (Z.to_nat n ≤ length (set_order parents_object (parent1 ∪ parent2)))%nat as Hlen.
  { rewrite length_set_order, <-H1. apply subseteq_size. set_solver. }
  eapply (rand_post_bind E _ _
    (fun combined => NoDup combined ∧ length combined = Z.to_nat n ∧
                     ∀ x, x ∈ combined → x ∈ parent1 ∪ parent2)).
  - destruct (n <? Z.of_nat (length (set_order parents_object (parent1 ∪ parent2))))%Z eqn:Hlt.
    + eapply rand_post_bind; [apply random_shuffle_post|].
      intros shuffled Hperm. apply rand_post_ret.
      unfold py_slice_to. rewrite (proj2 (Z.ltb_ge _ _)) by lia.
      split; [|split].
      * eapply sublist_NoDup; [|apply sublist_take]. rewrite Hperm. apply set_order_NoDup.
      * rewrite length_take, Hperm. lia.
      * intros x Hx%subseteq_take. rewrite Hperm in Hx. by apply elem_of_set_order in Hx.
    + apply Z.ltb_ge in Hlt. apply rand_post_ret.
      split; [apply set_order_NoDup|]. split; [lia|].
      intros x. by rewrite elem_of_set_order.
  - intros combined (Hnd & Hclen & Hsub).
    replace (Z.to_nat (n - Z.of_nat (length combined))) with 0%nat by lia. simpl.
    apply rand_post_ret. simpl. split; [done|]. split.
    + by rewrite size_list_to_set.
    + intros x Hx%elem_of_list_to_set. by apply Hsub.
Qed.

Lemma size_replace (individual : gset string) (old new : string) :
  old ∈ individual → new ∉ individual →
  size (individual ∖ {[old]} ∪ {[new]}) = size individual.
Proof.
  intros Hold Hnew. rewrite size_union by set_solver.
  rewrite size_difference by set_solver. rewrite !size_singleton.
  assert (size individual ≠ 0%nat); [|lia].
  apply size_non_empty_iff. set_solver.
Qed.

(** On names that numpy hands back as they are, [_mutate] keeps the
    size of the individual and stays inside the available symptoms; on an
    empty individual it changes nothing or raises. *)
Lemma mutate_post (individual available_symptoms : gset string) (mutation_rate : Q) :
  individual ≠ ∅ ∨ E (ValueError "'a' cannot be empty unless no samples are taken") →
  nul_free available_symptoms ∨ individual = ∅ →
  individual ⊆ available_symptoms →
  rand_post E (_mutate individual available_symptoms mutation_rate)
    (fun mutated => size mutated = size individual ∧ mutated ⊆ available_symptoms).
Proof.
  intros Hne Hnul Hsub. unfold _mutate.
  eapply (rand_post_bind E _ _ (fun _ => True)).
  { intros g. unfold np_random_random. by destruct (random_float g). }
  intros r _. destruct (Qltb r mutation_rate); [|by apply rand_post_ret].
  destruct (decide (set_order available_object (available_symptoms ∖ individual) = []))
    as [|Hav]; [by apply rand_post_ret|].
  destruct (decide (individual = ∅)) as [Hempty|Hind].
  { destruct Hne as [?|HE]; [done|].
    assert (set_order individual_object individual = []) as Hnil by by apply set_order_nil.
    unfold random_choice at 1. rewrite Hnil. simpl.
    intros g. unfold mbind, rand_bind, pure_result. simpl. exact HE. }
  destruct Hnul as [Hnul|?]; [|done].
  eapply rand_post_bind; [apply random_choice_post; by rewrite set_order_nil|].
  intros old (old0 & Hold%elem_of_set_order & ->).
  rewrite (Hnul old0) by set_solver.
  eapply rand_post_bind; [by apply random_choice_post|].
  intros new (new0 & Hnew%elem_of_set_order & ->).
  rewrite (Hnul new0) by set_solver.
  rewrite decide_True by done. apply rand_post_ret.
  split; [apply size_replace; set_solver|set_solver].
Qed.
End Draws.

(** * The genetic selector *)

Section Genetic.
Context `{RT : PyRuntime} {G : Type} `{RNG : !NumpyRandom G}.
Implicit Types (ds : catalog) (current denied pool individual : gset string)
  (population : list (gset string)).

(** C8: crossing two parents of [n] symptoms each returns the same set
    twice; that set has exactly [n] symptoms, all from the parents. *)
Theorem crossover_children (parent1 parent2 : gset string) (n : nat) (g : G) :
  size parent1 = n → size parent2 = n →
  ∃ child g', _crossover parent1 parent2 (Z.of_nat n) g = (Ok (child, child), g') ∧
              size child = n ∧ child ⊆ parent1 ∪ parent2.
Proof.
  intros H1 H2.
  pose proof (crossover_post (fun _ => False) parent1 parent2 (Z.of_nat n)) as Hpost.
  rewrite Nat2Z.id in Hpost. specialize (Hpost H1 H2 (Nat2Z.is_nonneg n) g).
  destruct (_crossover parent1 parent2 (Z.of_nat n) g) as [[[child1 child2]|e] g'];
    simpl in *; [|done].
  destruct Hpost as (-> & ? & ?). by exists child2, g'.
Qed.

(** An individual of the population: [n] symptoms of the pool. *)
Definition individual_ok pool (n : Z) individual : Prop :=
  individual ⊆ pool ∧ size individual = Z.to_nat n.

Definition population_ok pool (n : Z) population : Prop :=
  population ≠ [] ∧ Forall (individual_ok pool n) population.

(** The exceptions [E] let through: those of the scoring functions and,
    for [n = 0], the one [_mutate] meets when it draws from an empty
    individual. *)
Variable E : exn → Prop.
Variable ds : catalog.
Hypothesis E_scoring_error : ∀ e, scoring_error ds e → E e.

Definition E_empty_choice (n : Z) : Prop :=
  (1 ≤ n)%Z ∨ E (ValueError "'a' cannot be empty unless no samples are taken").

Lemma combined_score_post current (symptoms : gset string) :
  res_post E
    (_calculate_combined_score ds symptoms (_get_candidate_diseases ds current))
    (fun _ => True).
Proof.
  destruct (_calculate_combined_score _ _ _) eqn:Hs; simpl; [done|].
  by eapply E_scoring_error, combined_score_raises.
Qed.

Lemma fitness_post current denied individual :
  res_post E
    (fitness ds current (_get_candidate_diseases ds current) denied individual)
    (fun _ => True).
Proof.
  unfold fitness. eapply res_post_bind; [apply combined_score_post|done].
Qed.

Lemma local_search_post current individual (n : Z) :
  nul_free (all_symptoms ds ∖ current) ∨ n = 0%Z →
  individual_ok (all_symptoms ds ∖ current) n individual →
  rand_post E
    (_local_search ds individual current (_get_candidate_diseases ds current))
    (individual_ok (all_symptoms ds ∖ current) n).
Proof.
  intros Hnul [Hsub Hsize]. unfold _local_search.
  eapply (rand_post_bind _ _ _ (fun _ => True)).
  { apply rand_post_pure, combined_score_post. }
  intros best_score _.
  eapply (rand_post_bind _ _ _
    (fun state => individual_ok (all_symptoms ds ∖ current) n state.2)).
  - apply (rand_post_foldlM _ _ _
      (fun state => individual_ok (all_symptoms ds ∖ current) n state.2)); [done|].
    intros [score best] symptom Hsym%elem_of_set_order Hbest. simpl in Hbest.
    destruct (decide (all_symptoms ds ∖ current ∖ individual = ∅)) as [|Hrem];
      [by apply rand_post_ret|].
    destruct Hnul as [Hnul| ->].
    2:{ exfalso. change (Z.to_nat 0) with 0%nat in Hsize.
        apply size_empty_iff, leibniz_equiv in Hsize. set_solver. }
    eapply rand_post_bind.
    { apply random_choice_post. by rewrite set_order_nil. }
    intros new (new0 & Hnew%elem_of_set_order & ->).
    rewrite (Hnul new0) by set_solver.
    eapply (rand_post_bind _ _ _ (fun _ => True)).
    { apply rand_post_pure, combined_score_post. }
    intros score' _. destruct (Qltb score score'); apply rand_post_ret; [|done].
    split; simpl; [set_solver|]. rewrite size_replace; [done|done|set_solver].
  - intros [score best] Hbest. by apply rand_post_ret.
Qed.

Lemma breed_post population (fitness_scores : list Q) pool (n : Z) (mutation_rate : Q)
    (new_population : list (gset string)) :
  (0 ≤ n)%Z → E_empty_choice n → nul_free pool ∨ n = 0%Z →
  population_ok pool n population →
  length fitness_scores = length population →
  population_ok pool n new_population →
  rand_post E (breed population fitness_scores pool n mutation_rate new_population)
    (population_ok pool n).
Proof.
  intros Hn Hempty Hnul [Hne Hpop] Hlen [Hne' Hnew]. unfold breed.
  assert (∀ parent, parent ∈ population → individual_ok pool n parent) as Hparent
    by by apply Forall_forall.
  eapply rand_post_bind; [by apply tournament_select_post; [..|lia]|].
  intros parent1 [Hsub1 Hsize1]%Hparent.
  eapply rand_post_bind; [by apply tournament_select_post; [..|lia]|].
  intros parent2 [Hsub2 Hsize2]%Hparent.
  eapply rand_post_bind; [apply crossover_post; [done|done|lia]|].
  intros [child1 child2] (Heq & Hsize & Hsub). simpl in *. subst child2.
  assert (child1 ≠ ∅ ∨ E (ValueError "'a' cannot be empty unless no samples are taken"))
    as Hchild.
  { destruct Hempty as [?|?]; [left|by right].
    intros ->. rewrite size_empty in Hsize. lia. }
  assert (child1 ⊆ pool) by set_solver.
  assert (nul_free pool ∨ child1 = ∅) as Hnul'.
  { destruct Hnul as [?| ->]; [by left|right].
    change (Z.to_nat 0) with 0%nat in Hsize. by apply size_empty_iff, leibniz_equiv in Hsize. }
  eapply rand_post_bind; [by apply mutate_post|].
  intros mutated1 [Hm1 Hs1].
  eapply rand_post_bind; [by apply mutate_post|].
  intros mutated2 [Hm2 Hs2]. apply rand_post_ret.
  split; [by destruct new_population|].
  apply Forall_app. split; [done|].
  repeat constructor; simpl; (done || lia).
Qed.

Lemma generation_post current denied (n : Z) population (mutation_rate : Q) :
  (0 ≤ n)%Z → E_empty_choice n → nul_free (all_symptoms ds ∖ current) ∨ n = 0%Z →
  population_ok (all_symptoms ds ∖ current) n population →
  rand_post E
    (generation ds current (_get_candidate_diseases ds current)
       (all_symptoms ds ∖ current) n denied (population, mutation_rate))
    (fun state => population_ok (all_symptoms ds ∖ current) n state.1).
Proof.
  intros Hn Hempty Hnul [Hne Hpop]. unfold generation.
  eapply rand_post_bind.
  { apply rand_post_pure, (res_post_mapM _ _ _ (fun _ _ => True)).
    intros individual _. apply fitness_post. }
  intros fitness_scores Hlen%Forall2_length.
  pose proof (argsort_perm fitness_scores) as Horder.
  set (order := argsort fitness_scores) in *.
  assert (length order = length population) as Holen
    by by rewrite Horder, length_seq.
  eapply (rand_post_bind _ _ _ (population_ok (all_symptoms ds ∖ current) n)).
  { apply rand_post_pure.
    eapply res_post_mono.
    - apply (res_post_mapM _ _ _ (fun i x => population !! i = Some x)).
      intros i Hi%subseteq_drop. apply py_index_post.
      rewrite Horder in Hi. apply elem_of_seq in Hi. lia.
    - intros elite Helite. split.
      + apply Forall2_length in Helite. rewrite length_drop in Helite.
        unfold elite_size in *. destruct population, elite; simpl in *; (done || lia).
      + apply Forall_forall. intros x Hx.
        apply list_elem_of_lookup in Hx as [j Hj].
        destruct (Forall2_lookup_r _ _ _ _ _ Helite Hj) as (i & _ & Hi).
        apply (proj1 (Forall_forall _ _) Hpop). by eapply list_elem_of_lookup_2. }
  intros elite_individuals Helite.
  eapply rand_post_bind.
  { apply (rand_post_repeatM _ _ _ (population_ok (all_symptoms ds ∖ current) n));
      [done|].
    intros new_population Hnew. by apply breed_post. }
  intros new_population [Hnne Hnew].
  eapply rand_post_bind.
  { apply (rand_post_mapM _ _ _
      (fun _ searched => individual_ok (all_symptoms ds ∖ current) n searched)).
    intros individual Hind. apply local_search_post; [done|].
    by apply (proj1 (Forall_forall _ _) Hnew). }
  intros searched Hsearched. apply rand_post_ret. simpl. split.
  - apply Forall2_length in Hsearched. destruct new_population, searched; done.
  - clear -Hsearched. induction Hsearched; by constructor.
Qed.

Lemma py_max_by_key_post {A} (key : A → result Q) (l : list A) :
  l ≠ [] → (∀ x, x ∈ l → res_post E (key x) (fun _ => True)) →
  res_post E (py_max_by_key key l) (fun x => x ∈ l).
Proof.
  intros Hl Hkey. unfold py_max_by_key.
  pose proof (search_loop_inv key l) as Hloop.
  destruct (foldl _ (Ok None) l) as [best|e]; simpl; cycle 1.
  { destruct Hloop as (x & Hx & Herr). specialize (Hkey x Hx). by rewrite Herr in Hkey. }
  destruct Hloop as (scored & Hscored & ->).
  pose proof (best_of_first_max scored) as Hbest.
  destruct (best_of scored) as [[s x]|]; simpl in *.
  - destruct Hbest as (i & Hi & _).
    destruct (Forall2_lookup_r _ _ _ _ _ Hscored Hi) as (x' & Hx' & _ & Heq).
    simpl in Heq. subst x'. by eapply list_elem_of_lookup_2.
  - subst scored. apply Forall2_nil_inv_r in Hscored. done.
Qed.

(** [_genetic_algorithm] on a pool of at least [n >= 0] symptoms whose
    names numpy hands back as they are: a set of [n] symptoms of the
    pool, unless an exception of [E] was raised. *)
Lemma genetic_algorithm_post current denied (n : Z) :
  (0 ≤ n ≤ Z.of_nat (size (all_symptoms ds ∖ current)))%Z → (n ≤ sys_maxsize)%Z →
  E_empty_choice n → nul_free (all_symptoms ds ∖ current) ∨ n = 0%Z →
  rand_post E
    (_genetic_algorithm ds current (_get_candidate_diseases ds current)
       (all_symptoms ds ∖ current) n denied)
    (individual_ok (all_symptoms ds ∖ current) n).
Proof.
  intros Hn Hfits Hempty Hnul. unfold _genetic_algorithm.
  eapply (rand_post_bind _ _ _ (population_ok (all_symptoms ds ∖ current) n)).
  { eapply rand_post_mono.
    - apply (rand_post_mapM _ _ _
        (fun _ individual => individual_ok (all_symptoms ds ∖ current) n individual)).
      intros k _. eapply rand_post_bind.
      + apply random_choice_no_replace_post; [apply set_order_NoDup| |done].
        rewrite length_set_order. lia.
      + intros l (l0 & -> & Hnd & Hlen & Hsub). apply rand_post_ret.
        assert (np_str <$> l0 = l0) as ->.
        { destruct Hnul as [Hnul| ->].
          - apply (nul_free_fmap _ _ Hnul). intros x Hx.
            eapply elem_of_set_order. by apply Hsub.
          - by destruct l0. }
        split.
        * intros x Hx%elem_of_list_to_set. eapply elem_of_set_order. by apply Hsub.
        * by rewrite size_list_to_set.
    - intros population Hpop. split.
      + apply Forall2_length in Hpop. by destruct population.
      + clear -Hpop. induction Hpop; by constructor. }
  intros population Hpop.
  eapply (rand_post_bind _ _ _
    (fun state => population_ok (all_symptoms ds ∖ current) n state.1)).
  { apply (rand_post_repeatM _ _ _
      (fun state => population_ok (all_symptoms ds ∖ current) n state.1)); [done|].
    intros [population' rate] Hpop'. apply generation_post; [lia|done|done|done]. }
  intros [population' rate] [Hne Hpop']. simpl in *.
  apply rand_post_pure. eapply res_post_mono.
  - apply py_max_by_key_post; [done|]. intros individual _. apply fitness_post.
  - intros best Hbest. by apply (proj1 (Forall_forall _ _) Hpop').
Qed.
End Genetic.

(** * The entry point *)

Section EntryPoint.
Context `{RT : PyRuntime} {G : Type} `{RNG : !NumpyRandom G}.
Implicit Types (ds : catalog) (current pool : gset string)
  (denied_symptoms : option (gset string)) (method : string).

Lemma scoring_error_not_unknown_method ds e :
  scoring_error ds e → e ≠ ValueError "Unknown method".
Proof. by intros [-> _]. Qed.

(** An exception of [_exhaustive_search] comes from a score or from
    [itertools.combinations]. *)
Lemma exhaustive_search_raises ds current denied pool (n : Z) e :
  _exhaustive_search ds current (_get_candidate_diseases ds current) pool n denied = Err e →
  scoring_error ds e ∨
  ((n < 0)%Z ∧ (- sys_maxsize - 1 ≤ n)%Z ∧ e = ValueError "r must be non-negative") ∨
  ((n < - sys_maxsize - 1 ∨ sys_maxsize < n)%Z ∧ e = OverflowError).
Proof.
  unfold _exhaustive_search.
  pose proof (sorted_by_key_desc_inv
    (symptom_score ds current (_get_candidate_diseases ds current) denied)
    (set_order available_symptoms_object pool)) as Hsort.
  destruct (sorted_by_key_desc _ _) as [sorted|e']; simpl.
  - clear Hsort. unfold py_combinations.
    destruct (ssize_overflow n) eqn:Hover; simpl.
    { intros [= <-]. right. right. split; [by apply ssize_overflow_true|done]. }
    destruct (n <? 0)%Z eqn:Hneg; simpl.
    { intros [= <-]. right. left. apply Z.ltb_lt in Hneg. split; [done|]. split; [|done].
      unfold ssize_overflow in Hover. apply orb_false_iff in Hover as [Hlo _].
      apply Z.ltb_ge in Hlo. lia. }
    unfold exhaustive_best.
    pose proof (search_loop_inv
      (exhaustive_score ds current (_get_candidate_diseases ds current) denied)
      (combinations sorted (Z.to_nat n))) as Hloop.
    destruct (foldl _ (Ok None) _) as [best|e']; simpl.
    + destruct best as [[score combo]|]; [|done]. by destruct (decide (combo = [])).
    + intros [= <-]. destruct Hloop as (combo & _ & Herr). left.
      by eapply exhaustive_score_raises.
  - intros [= <-]. destruct Hsort as (x & _ & Hx). left. by eapply symptom_score_raises.
Qed.

(** For [n = 0] the only combination is the empty one; for [n < 0]
    there is none. *)
Lemma exhaustive_search_nonpositive ds current denied pool (n : Z) proposal :
  (n ≤ 0)%Z →
  _exhaustive_search ds current (_get_candidate_diseases ds current) pool n denied
    = Ok proposal →
  n = 0%Z ∧ proposal = ∅.
Proof.
  intros Hn. unfold _exhaustive_search.
  destruct (sorted_by_key_desc _ _) as [sorted|e]; simpl; [|done].
  unfold py_combinations. destruct (ssize_overflow n); simpl; [done|].
  destruct (n <? 0)%Z eqn:Hneg; simpl; [done|].
  apply Z.ltb_ge in Hneg. assert (n = 0%Z) as -> by lia.
  unfold exhaustive_best. change (Z.to_nat 0) with 0%nat. rewrite combinations_0. simpl.
  destruct (exhaustive_score ds current (_get_candidate_diseases ds current) denied [])
    as [score|e] eqn:Hscore; simpl; [|done].
  by intros [= <-].
Qed.

(** *** The exceptions of the three methods

    [library_error]: any exception but the one of the dispatch.  No
    operation of the three methods raises a [ValueError] with the message
    of the dispatch, on any argument. *)
Definition library_error (e : exn) : Prop := e ≠ ValueError "Unknown method".

Lemma py_index_library {A} (l : list A) (i : nat) :
  res_post library_error (py_index l i) (fun _ => True).
Proof. unfold py_index. by destruct (l !! i). Qed.

Lemma res_post_mapM_any {A B} (E : exn → Prop) (f : A → result B) (l : list A) :
  (∀ x, res_post E (f x) (fun _ => True)) → res_post E (mapM f l) (fun _ => True).
Proof.
  intros Hf. eapply res_post_mono; [|done].
  apply (res_post_mapM E f l (fun _ _ => True)). intros x _. apply Hf.
Qed.

Lemma rand_post_mapM_any {A B} (E : exn → Prop) (f : A → rand G B) (l : list A) :
  (∀ x, rand_post E (f x) (fun _ => True)) → rand_post E (mapM f l) (fun _ => True).
Proof.
  intros Hf. eapply rand_post_mono; [|done].
  apply (rand_post_mapM E f l (fun _ _ => True)). intros x _. apply Hf.
Qed.

Lemma random_choice_library (a : list string) :
  rand_post library_error (random_choice a) (fun _ => True).
Proof.
  intros g. unfold random_choice. destruct (decide (a = [])); [done|].
  destruct (random_index (length a) g) as [i g']. simpl.
  unfold py_index. by destruct (a !! i).
Qed.

Lemma random_choice_no_replace_library (a : list string) (size : Z) :
  rand_post library_error (random_choice_no_replace a size) (fun _ => True).
Proof.
  intros g. unfold random_choice_no_replace.
  destruct (decide (a = [] ∧ size ≠ 0%Z)); [done|].
  destruct (ssize_overflow size); [done|].
  destruct (Z.of_nat (length a) <? size)%Z; [done|].
  destruct (size <? 0)%Z; [done|].
  destruct (random_permutation (length a) g) as [perm g']. simpl.
  apply res_post_mapM_any. intros i. unfold py_index. by destruct (a !! i).
Qed.

Lemma random_choice_range_library (k size : nat) :
  rand_post library_error (random_choice_range k size) (fun _ => True).
Proof.
  intros g. unfold random_choice_range. destruct (decide _); [done|].
  by destruct (random_indices k size g).
Qed.

Lemma random_shuffle_library {A} (l : list A) :
  rand_post library_error (random_shuffle l) (fun _ => True).
Proof.
  intros g. unfold random_shuffle.
  destruct (random_permutation (length l) g) as [perm g']. simpl.
  apply res_post_mapM_any. intros i. apply py_index_library.
Qed.

Lemma tournament_select_library (population : list (gset string)) (fitness_scores : list Q)
    (tournament_size : nat) :
  rand_post library_error (_tournament_select population fitness_scores tournament_size)
    (fun _ => True).
Proof.
  unfold _tournament_select.
  eapply rand_post_bind; [apply random_choice_range_library|]. intros indices _.
  eapply rand_post_bind.
  { apply rand_post_pure, res_post_mapM_any. intros i. apply py_index_library. }
  intros tournament_fitness _.
  eapply (rand_post_bind _ _ _ (fun _ => True)).
  { apply rand_post_pure. unfold np_argmax. by destruct (best_of _) as [[? ?]|]. }
  intros winner _.
  eapply rand_post_bind; [apply rand_post_pure, py_index_library|]. intros winner_idx _.
  apply rand_post_pure, py_index_library.
Qed.

Lemma crossover_fill_library (rounds : nat) (parents : gset string) (n : Z)
    (combined : list string) :
  rand_post library_error (crossover_fill rounds parents n combined) (fun _ => True).
Proof.
  revert combined. induction rounds as [|rounds IH]; intros combined; simpl.
  { by apply rand_post_ret. }
  destruct (Z.of_nat (length combined) <? n)%Z; [|by apply rand_post_ret].
  destruct (decide (parents ∖ list_to_set combined = ∅)); [by apply rand_post_ret|].
  eapply rand_post_bind; [apply random_choice_library|]. intros x _. apply IH.
Qed.

Lemma crossover_library (parent1 parent2 : gset string) (n : Z) :
  rand_post library_error (_crossover parent1 parent2 n) (fun _ => True).
Proof.
  unfold _crossover.
  eapply (rand_post_bind _ _ _ (fun _ => True)).
  { destruct (n <? _)%Z; [|by apply rand_post_ret].
    eapply rand_post_bind; [apply random_shuffle_library|]. intros. by apply rand_post_ret. }
  intros combined _.
  eapply rand_post_bind; [apply crossover_fill_library|]. intros. by apply rand_post_ret.
Qed.

Lemma mutate_library (individual available_symptoms : gset string) (mutation_rate : Q) :
  rand_post library_error (_mutate individual available_symptoms mutation_rate)
    (fun _ => True).
Proof.
  unfold _mutate.
  eapply (rand_post_bind _ _ _ (fun _ => True)).
  { intros g. unfold np_random_random. by destruct (random_float g). }
  intros r _. destruct (Qltb r mutation_rate); [|by apply rand_post_ret].
  destruct (decide (_ = [])); [by apply rand_post_ret|].
  eapply rand_post_bind; [apply random_choice_library|]. intros symptom_to_replace _.
  eapply rand_post_bind; [apply random_choice_library|]. intros new_symptom _.
  destruct (decide (symptom_to_replace ∈ individual)); [by apply rand_post_ret|].
  by apply rand_post_pure.
Qed.

Lemma local_search_library ds current (individual : gset string) :
  rand_post library_error
    (_local_search ds individual current (_get_candidate_diseases ds current))
    (fun _ => True).
Proof.
  unfold _local_search.
  eapply (rand_post_bind _ _ _ (fun _ => True)).
  { apply rand_post_pure, (combined_score_post library_error ds).
    apply scoring_error_not_unknown_method. }
  intros best_score _.
  eapply (rand_post_bind _ _ _ (fun _ => True)).
  - apply (rand_post_foldlM _ _ _ (fun _ => True)); [done|].
    intros [score best] symptom _ _.
    destruct (decide (_ = ∅)); [by apply rand_post_ret|].
    eapply rand_post_bind; [apply random_choice_library|]. intros new_symptom _.
    eapply (rand_post_bind _ _ _ (fun _ => True)).
    { apply rand_post_pure, (combined_score_post library_error ds).
      apply scoring_error_not_unknown_method. }
    intros score' _. destruct (Qltb score score'); by apply rand_post_ret.
  - intros [score best] _. by apply rand_post_ret.
Qed.

Lemma generation_library ds current denied pool (n : Z) (state : list (gset string) * Q) :
  rand_post library_error
    (generation ds current (_get_candidate_diseases ds current) pool n denied state)
    (fun _ => True).
Proof.
  destruct state as [population mutation_rate]. unfold generation.
  eapply rand_post_bind.
  { apply rand_post_pure, res_post_mapM_any. intros individual.
    apply (fitness_post library_error ds), scoring_error_not_unknown_method. }
  intros fitness_scores _.
  eapply rand_post_bind.
  { apply rand_post_pure, res_post_mapM_any. intros i. apply py_index_library. }
  intros elite_individuals _.
  eapply rand_post_bind.
  { apply (rand_post_repeatM _ _ _ (fun _ => True)); [done|].
    intros new_population _. unfold breed.
    eapply rand_post_bind; [apply tournament_select_library|]. intros parent1 _.
    eapply rand_post_bind; [apply tournament_select_library|]. intros parent2 _.
    eapply rand_post_bind; [apply crossover_library|]. intros [child1 child2] _.
    eapply rand_post_bind; [apply mutate_library|]. intros mutated1 _.
    eapply rand_post_bind; [apply mutate_library|]. intros mutated2 _.
    by apply rand_post_ret. }
  intros new_population _.
  eapply rand_post_bind.
  { apply rand_post_mapM_any. intros individual. apply local_search_library. }
  intros searched _. by apply rand_post_ret.
Qed.

Lemma genetic_algorithm_library ds current denied pool (n : Z) :
  rand_post library_error
    (_genetic_algorithm ds current (_get_candidate_diseases ds current) pool n denied)
    (fun _ => True).
Proof.
  unfold _genetic_algorithm.
  eapply rand_post_bind.
  { apply rand_post_mapM_any. intros k.
    eapply rand_post_bind; [apply random_choice_no_replace_library|].
    intros. by apply rand_post_ret. }
  intros population _.
  eapply (rand_post_bind _ _ _ (fun _ => True)).
  { apply (rand_post_repeatM _ _ _ (fun _ => True)); [done|].
    intros state _. apply generation_library. }
  intros [population' rate] _. apply rand_post_pure.
  unfold py_max_by_key.
  eapply (res_post_bind _ _ _ (fun _ => True)).
  - apply (res_post_foldl _ _ _ (fun _ => True)); [done|].
    intros best individual _ _.
    eapply res_post_bind.
    + apply (fitness_post library_error ds), scoring_error_not_unknown_method.
    + done.
  - by intros [[? ?]|] _.
Qed.

(** X22: for [n >= 1] and each of the three methods, on a pool that is
    a Python set (its length fits [sys.maxsize]).  When the pool
    [AllSymptoms - confirmed] has fewer than [n] symptoms the call
    returns exactly the pool and draws nothing.  Otherwise, unless a
    score raised the division by zero of the independence score, the
    greedy and the exhaustive method return [n] symptoms of the pool, and
    so does the genetic method when no name of the pool ends in a NUL
    character.  Such a proposal never contains a confirmed symptom;
    denied symptoms are not removed from the pool. *)
Theorem proposal_shape ds current denied_symptoms (n : Z) method (g : G) :
  (1 ≤ n)%Z → (Z.of_nat (size (all_symptoms ds ∖ current)) ≤ sys_maxsize)%Z →
  method ∈ ["greedy"; "exhaustive"; "genetic"] →
  (method = "genetic" → nul_free (all_symptoms ds ∖ current)) →
  let pool := all_symptoms ds ∖ current in
  let r := calculate_next_n_symptoms ds current n method denied_symptoms g in
  ((Z.of_nat (size pool) < n)%Z → r = (Ok pool, g)) ∧
  match r.1 with
  | Ok proposal =>
      proposal ⊆ pool ∧ proposal ## current ∧
      ((n ≤ Z.of_nat (size pool))%Z → size proposal = Z.to_nat n)
  | Err e => (n ≤ Z.of_nat (size pool))%Z ∧ scoring_error ds e
  end.
Proof.
  intros Hn Hfits Hmethod Hnul pool r. subst r. unfold calculate_next_n_symptoms. fold pool.
  destruct (Z.of_nat (size pool) <? n)%Z eqn:Hsmall.
  { apply Z.ltb_lt in Hsmall. split; [done|]. simpl.
    split; [done|]. split; [set_solver|lia]. }
  apply Z.ltb_ge in Hsmall. split; [lia|].
  set (denied := match denied_symptoms with None => ∅ | Some denied => denied end).
  assert (∀ r : result (gset string),
    res_post (scoring_error ds) r (fun proposal => proposal ⊆ pool ∧ size proposal = Z.to_nat n) →
    match r with
    | Ok proposal =>
        proposal ⊆ pool ∧ proposal ## current ∧
        ((n ≤ Z.of_nat (size pool))%Z → size proposal = Z.to_nat n)
    | Err e => (n ≤ Z.of_nat (size pool))%Z ∧ scoring_error ds e
    end) as Hshape.
  { intros [proposal|e]; simpl; [|done]. intros [? ?].
    split; [done|]. split; [set_solver|done]. }
  apply Hshape.
  destruct (decide (method = "greedy")) as [->|Hg].
  { by apply greedy_selection_post. }
  destruct (decide (method = "exhaustive")) as [->|He].
  { assert (1 ≤ n ≤ Z.of_nat (size (all_symptoms ds ∖ current)))%Z as Hrange by done.
    assert (n ≤ sys_maxsize)%Z as Hmax by (fold pool in Hfits; lia).
    pose proof (exhaustive_search_result ds current denied n Hrange Hmax) as Hres.
    unfold pure_result. simpl.
    destruct (_exhaustive_search _ _ _ _ _ _) as [proposal|e]; simpl in *; [|done].
    by destruct Hres as (? & ? & ? & ? & _ & _ & _ & ? & ? & _). }
  destruct (decide (method = "genetic")) as [->|Hgen].
  { assert (0 ≤ n ≤ Z.of_nat (size (all_symptoms ds ∖ current)))%Z as Hrange by (fold pool; lia).
    assert (n ≤ sys_maxsize)%Z as Hmax by (fold pool in Hfits; lia).
    exact (genetic_algorithm_post (scoring_error ds) ds (fun e He => He)
             current denied n Hrange Hmax (or_introl Hn) (or_introl (Hnul eq_refl)) g). }
  exfalso. repeat (apply elem_of_cons in Hmethod as [?|Hmethod]; [done|]).
  by apply elem_of_nil in Hmethod.
Qed.

(** C5: on a pool of at least [n] symptoms, a method other than
    ['greedy'], ['exhaustive'] and ['genetic'] raises
    [ValueError("Unknown method")] at once, with no proposal and no draw,
    and no call with one of the three methods raises that exception. *)
Theorem unknown_method_iff ds current denied_symptoms (n : Z) method (g : G) :
  (n ≤ Z.of_nat (size (all_symptoms ds ∖ current)))%Z →
  let r := calculate_next_n_symptoms ds current n method denied_symptoms g in
  (method ∉ ["greedy"; "exhaustive"; "genetic"] →
     r = (Err (ValueError "Unknown method"), g)) ∧
  (r.1 = Err (ValueError "Unknown method") ↔
     method ∉ ["greedy"; "exhaustive"; "genetic"]).
Proof.
  intros Hn r. subst r. unfold calculate_next_n_symptoms.
  rewrite (proj2 (Z.ltb_ge _ _)) by done.
  set (pool := all_symptoms ds ∖ current) in *.
  set (denied := match denied_symptoms with None => ∅ | Some denied => denied end).
  assert (∀ r : result (gset string),
    res_post library_error r (fun _ => True) →
    r ≠ Err (ValueError "Unknown method")) as Hbenign.
  { intros [?|e]; simpl; [done|]. by intros ? [= ->]. }
  destruct (decide (method = "greedy")) as [->|Hg].
  { split; [intros []; by left|].
    split; [|intros []; by left]. intros Herr. exfalso. revert Herr. simpl.
    apply Hbenign. eapply res_post_weaken; [by apply greedy_selection_post| |done].
    apply scoring_error_not_unknown_method. }
  destruct (decide (method = "exhaustive")) as [->|He].
  { split; [intros []; right; by left|].
    split; [|intros []; right; by left]. simpl. intros Herr. exfalso.
    destruct (exhaustive_search_raises _ _ _ _ _ _ Herr) as [[? _]|[(_ & _ & ?)|[_ ?]]]; done. }
  destruct (decide (method = "genetic")) as [->|Hgen].
  { split; [intros []; right; right; by left|].
    split; [|intros []; right; right; by left]. intros Herr. exfalso.
    revert Herr. apply Hbenign. apply genetic_algorithm_library. }
  split.
  - done.
  - split; [|done]. intros _.
    intros Hin. repeat (apply elem_of_cons in Hin as [?|Hin]; [done|]).
    by apply elem_of_nil in Hin.
Qed.

(** C10: leaving [denied_symptoms] out (it is then [None]) is the same
    as passing the empty set. *)
Theorem denied_symptoms_default ds current (n : Z) method :
  calculate_next_n_symptoms (G := G) ds current n method None =
  calculate_next_n_symptoms ds current n method (Some ∅).
Proof. reflexivity. Qed.

(** What [_genetic_algorithm] raises when asked for no symptom: the
    exception of a score, or the one [_mutate] meets when it draws the
    symptom to replace from an empty individual. *)
Definition genetic_zero_error (ds : catalog) (e : exn) : Prop :=
  scoring_error ds e ∨ e = ValueError "'a' cannot be empty unless no samples are taken".

(** The first sample of [_genetic_algorithm] for a negative [n]. *)
Lemma genetic_algorithm_negative ds current denied pool (n : Z) (g : G) :
  (n < 0)%Z →
  ∃ e, (_genetic_algorithm ds current (_get_candidate_diseases ds current) pool n denied g).1
         = Err e ∧
       (e = ValueError "'a' cannot be empty unless no samples are taken" ∨
        ((- sys_maxsize - 1 ≤ n)%Z ∧ e = ValueError "Negative dimensions are not allowed") ∨
        ((n < - sys_maxsize - 1)%Z ∧ e = OverflowError)).
Proof.
  intros Hneg. unfold _genetic_algorithm, population_size. simpl.
  unfold mbind at 1 2 3. unfold rand_bind, random_choice_no_replace.
  destruct (decide (set_order available_symptoms_object pool = [] ∧ n ≠ 0%Z)).
  { eexists. split; [done|]. by left. }
  pose proof sys_maxsize_pos as Hmaxpos.
  destruct (ssize_overflow n) eqn:Hover.
  { eexists. split; [done|]. right. right. split; [|done].
    apply ssize_overflow_true in Hover. lia. }
  rewrite (proj2 (Z.ltb_ge _ _)) by lia.
  rewrite (proj2 (Z.ltb_lt _ _)) by done.
  eexists. split; [done|]. right. left. split; [|done].
  unfold ssize_overflow in Hover. apply orb_false_iff in Hover as [Hlo _].
  apply Z.ltb_ge in Hlo. lia.
Qed.

(** C4 (as amended): the call does not check [n].  For [n <= 0] the
    greedy method returns the empty proposal.  The exhaustive method
    returns the empty proposal for [n = 0]; for [n < 0] it fails inside
    [itertools.combinations], with [ValueError] when [n] fits a
    [Py_ssize_t] and [OverflowError] when it does not.  The genetic
    method returns the empty proposal for [n = 0], unless [_mutate] fires
    and raises [ValueError] on the empty individual; for [n < 0] it fails
    in numpy's first sample, with [ValueError] or, when [n] does not fit,
    [OverflowError].  (In each case but the last a score computed on the
    way may raise the division by zero of the independence score
    first.) *)
Theorem nonpositive_n_unchecked ds current denied_symptoms (n : Z) (g : G) :
  (n ≤ 0)%Z →
  let call method := calculate_next_n_symptoms ds current n method denied_symptoms g in
  (call "greedy").2 = g ∧
  match (call "greedy").1 with
  | Ok proposal => proposal = ∅
  | Err e => scoring_error ds e
  end ∧
  (call "exhaustive").2 = g ∧
  match (call "exhaustive").1 with
  | Ok proposal => n = 0%Z ∧ proposal = ∅
  | Err e =>
      scoring_error ds e ∨
      ((n < 0)%Z ∧ (- sys_maxsize - 1 ≤ n)%Z ∧ e = ValueError "r must be non-negative") ∨
      ((n < - sys_maxsize - 1)%Z ∧ e = OverflowError)
  end ∧
  match (call "genetic").1 with
  | Ok proposal => n = 0%Z ∧ proposal = ∅
  | Err e =>
      (n = 0%Z ∧ genetic_zero_error ds e) ∨
      ((n < 0)%Z ∧
       (e = ValueError "'a' cannot be empty unless no samples are taken" ∨
        ((- sys_maxsize - 1 ≤ n)%Z ∧ e = ValueError "Negative dimensions are not allowed") ∨
        ((n < - sys_maxsize - 1)%Z ∧ e = OverflowError)))
  end.
Proof.
  intros Hn call. subst call. unfold calculate_next_n_symptoms.
  rewrite (proj2 (Z.ltb_ge _ _)) by lia.
  set (pool := all_symptoms ds ∖ current) in *.
  set (denied := match denied_symptoms with None => ∅ | Some denied => denied end).
  simpl. split; [done|]. split; [|split; [done|split]].
  - eapply res_post_mono; [apply greedy_selection_post; lia|].
    intros proposal [_ Hsize]. replace (Z.to_nat n) with 0%nat in Hsize by lia.
    by apply size_empty_iff, leibniz_equiv in Hsize.
  - destruct (_exhaustive_search ds current (_get_candidate_diseases ds current)
                pool n denied) as [proposal|e] eqn:Hsearch.
    + by apply (exhaustive_search_nonpositive ds current denied pool n proposal).
    + pose proof sys_maxsize_pos as Hmaxpos.
      destruct (exhaustive_search_raises _ _ _ _ _ _ Hsearch) as [?|[?|[[?|?] ?]]];
        [by left|by right; left|by right; right|lia].
  - destruct (Z.eq_dec n 0%Z) as [->|Hne].
    + pose proof sys_maxsize_pos as Hmaxpos.
      assert (0 ≤ 0 ≤ Z.of_nat (size (all_symptoms ds ∖ current)))%Z as Hrange by lia.
      assert (0 ≤ sys_maxsize)%Z as Hfits by lia.
      pose proof (genetic_algorithm_post (genetic_zero_error ds) ds (fun e He => or_introl He)
                    current denied 0%Z Hrange Hfits (or_intror (or_intror eq_refl))
                    (or_intror eq_refl) g) as Hpost.
      fold pool in Hpost.
      destruct (_genetic_algorithm ds current _ pool 0%Z denied g).1 as [proposal|e];
        simpl in Hpost.
      * split; [done|]. destruct Hpost as [_ Hsize].
        change (Z.to_nat 0) with 0%nat in Hsize.
        by apply size_empty_iff, leibniz_equiv in Hsize.
      * by left.
    + destruct (genetic_algorithm_negative ds current denied pool n g) as (e & -> & He);
        [lia|].
      right. split; [lia|done].
Qed.
End EntryPoint.

(** * Examples on the reference runtime *)

Section Examples.
#[local] Existing Instance Reference.runtime.
#[local] Existing Instance Reference.lcg.

(** Two diseases; with nothing or ["y"] confirmed every logarithm the
    scores take is that of a power of two. *)
Definition example_catalog : catalog :=
  [("A", {["x"; "y"; "w"]}); ("B", {["y"; "z"]})].

(** The combined score by hand: with [y] confirmed both diseases are
    candidates; [x] and [y] split them into two groups of one, so the gain
    is [1 - 1 = 0]; the coverage is the mean of [2/3] and [1/2], in
    doubles [0.5833333333333333]; [x] and [y] have mutual information
    [1/2 * log2 1 = 0], so the independence is 1.  The score is the double
    [0.43333333333333335]. *)
Example combined_score_example :
  ∃ score, _calculate_combined_score example_catalog {["x"; "y"]}
             (_get_candidate_diseases example_catalog {["y"]}) = Ok score ∧
           (score == 1951559838527215 # 4503599627370496)%Q.
Proof. eexists. split; [vm_compute; reflexivity|]. vm_compute. reflexivity. Qed.


(** The pool is [x], [w], [z] and [x] is denied: the pair without [x]
    wins. *)
Example exhaustive_search_example :
  calculate_next_n_symptoms example_catalog {["y"]} 2 "exhaustive" (Some {["x"]}) 1%Z
  = (Ok {["w"; "z"]}, 1%Z).
Proof. vm_compute. reflexivity. Qed.

(** A tie: the two symptoms of the pool score the same, so they keep the
    order of the set after the stable sort and the first one is returned. *)
Example exhaustive_search_tie :
  calculate_next_n_symptoms [("A", {["x"; "y"; "z"]})] {["x"]} 1 "exhaustive" None 1%Z
  = (Ok (list_to_set (take 1 (elements ({["y"; "z"]} : gset string)))), 1%Z).
Proof. vm_compute. reflexivity. Qed.

(** No tie in doubles: with [x] confirmed and [y] denied, the scores of
    [y] and [z] are both [2/5] as real numbers, but the program computes
    [0.4000000000000001] for [y] and [0.4] for [z], and returns [y]. *)
Example exhaustive_search_doubles :
  let ds := [("A", {["x"; "y"]}); ("B", {["y"; "z"]})] in
  calculate_next_n_symptoms ds {["x"]} 1 "exhaustive" (Some {["y"]}) 1%Z = (Ok {["y"]}, 1%Z) ∧
  penalized_score ds {["x"]} (_get_candidate_diseases ds {["x"]}) {["y"]} {["y"]}
    = Ok (7205759403792795 # 18014398509481984)%Q ∧
  penalized_score ds {["x"]} (_get_candidate_diseases ds {["x"]}) {["y"]} {["z"]}
    = Ok (3602879701896397 # 9007199254740992)%Q.
Proof. vm_compute. auto. Qed.

(** No name of the example ends in a NUL character. *)
Lemma example_pool_nul_free : nul_free (all_symptoms example_catalog ∖ {["y"]}).
Proof.
  intros s Hs.
  assert (s ∈ ["x"; "w"; "z"]) as Hin.
  { apply (elem_of_list_to_set (C := gset string)).
    replace (list_to_set ["x"; "w"; "z"] : gset string)
      with (all_symptoms example_catalog ∖ {["y"]}); [exact Hs|].
    apply (bool_decide_unpack _). vm_compute. exact I. }
  repeat (apply elem_of_cons in Hin as [->|Hin]; [reflexivity|]).
  by apply elem_of_nil in Hin.
Qed.

Lemma proposal_shape_witness :
  (1 ≤ 2)%Z ∧ "genetic" ∈ ["greedy"; "exhaustive"; "genetic"] ∧
  match (calculate_next_n_symptoms example_catalog {["y"]} 2 "genetic"
           (Some {["x"]}) 1%Z).1 with
  | Ok proposal => proposal ## {["y"]} ∧ size proposal = 2%nat
  | Err e => scoring_error example_catalog e
  end.
Proof.
  assert (1 ≤ 2)%Z as Hn by (vm_compute; discriminate).
  assert (Z.of_nat (size (all_symptoms example_catalog ∖ {["y"]})) ≤ sys_maxsize)%Z as Hfits
    by (vm_compute; discriminate).
  assert ("genetic" ∈ ["greedy"; "exhaustive"; "genetic"]) as Hmethod
    by (do 2 apply list_elem_of_further; apply list_elem_of_here).
  pose proof example_pool_nul_free as Hnul.
  split; [exact Hn|]. split; [exact Hmethod|].
  destruct (proposal_shape example_catalog {["y"]} (Some {["x"]}) 2 "genetic" 1%Z
              Hn Hfits Hmethod (fun _ => Hnul)) as [_ Hshape].
  destruct (calculate_next_n_symptoms _ _ _ _ _ _).1 as [proposal|e].
  - destruct Hshape as (_ & Hdisj & Hsize). split; [exact Hdisj|].
    apply Hsize. vm_compute. discriminate.
  - exact (proj2 Hshape).
Defined.

(** A name that ends in a NUL character. *)
Definition nul_name : string := String.append "a" (String Ascii.zero EmptyString).

(** C2, where the code misses it: the only symptom of the pool is
    [nul_name].  The genetic method draws its first individuals with
    [np.random.choice], which hands the name back as ["a"], and proposes
    the set of ["a"]: one symptom, as asked, but not a symptom of the
    pool [AllSymptoms - confirmed], nor of the catalog.  The greedy and
    the exhaustive method propose the symptom of the pool. *)
Theorem genetic_proposal_outside_pool :
  let ds := [("A", {[nul_name; "y"]})] in
  all_symptoms ds ∖ {["y"]} = {[nul_name]} ∧
  (calculate_next_n_symptoms ds {["y"]} 1 "genetic" None 1%Z).1 = Ok {["a"]} ∧
  ¬ ({["a"]} : gset string) ⊆ all_symptoms ds ∖ {["y"]} ∧
  (calculate_next_n_symptoms ds {["y"]} 1 "greedy" None 1%Z).1 = Ok {[nul_name]} ∧
  (calculate_next_n_symptoms ds {["y"]} 1 "exhaustive" None 1%Z).1 = Ok {[nul_name]}.
Proof.
  cbv zeta. split; [vm_compute; reflexivity|]. split; [vm_compute; reflexivity|].
  split; [|split; vm_compute; reflexivity].
  intros Hsub. specialize (Hsub "a" ltac:(by apply elem_of_singleton)).
  apply elem_of_difference in Hsub as [Hin _]. unfold all_symptoms in Hin. simpl in Hin.
  apply elem_of_union in Hin as [Hin|Hin]; [|by apply elem_of_empty in Hin].
  apply elem_of_union in Hin as [Hin%elem_of_singleton|Hin%elem_of_singleton];
    discriminate Hin.
Qed.

(** The same with the name ["a"] confirmed: the pool is [nul_name] alone,
    and the genetic method proposes ["a"], a confirmed symptom. *)
Example genetic_proposes_confirmed_symptom :
  let ds := [("A", {[nul_name; "a"]})] in
  all_symptoms ds ∖ {["a"]} = {[nul_name]} ∧
  (calculate_next_n_symptoms ds {["a"]} 1 "genetic" None 1%Z).1 = Ok {["a"]}.
Proof. cbv zeta. split; vm_compute; reflexivity. Qed.

(** A denied symptom stays eligible: it is proposed when the pool has
    nothing else. *)
Example denied_symptom_proposed :
  calculate_next_n_symptoms [("A", {["x"; "y"]})] {["y"]} 1 "greedy" (Some {["x"]}) 1%Z
  = (Ok {["x"]}, 1%Z).
Proof. vm_compute. reflexivity. Qed.

Lemma unknown_method_iff_witness :
  (1 ≤ Z.of_nat (size (all_symptoms example_catalog ∖ ∅)))%Z ∧
  calculate_next_n_symptoms example_catalog ∅ 1 "random" None 1%Z
    = (Err (ValueError "Unknown method"), 1%Z).
Proof.
  assert (1 ≤ Z.of_nat (size (all_symptoms example_catalog ∖ ∅)))%Z as Hn
    by (vm_compute; discriminate).
  split; [exact Hn|].
  apply (proj1 (unknown_method_iff example_catalog ∅ None 1 "random" 1%Z Hn)).
  intros Hin. repeat (apply elem_of_cons in Hin as [Heq|Hin]; [discriminate Heq|]).
  by apply elem_of_nil in Hin.
Defined.

Lemma crossover_children_witness :
  size ({["x"; "y"]} : gset string) = 2%nat ∧ size ({["y"; "z"]} : gset string) = 2%nat ∧
  ∃ child g', _crossover {["x"; "y"]} {["y"; "z"]} 2 1%Z = (Ok (child, child), g') ∧
              size child = 2%nat ∧ child ⊆ {["x"; "y"]} ∪ {["y"; "z"]}.
Proof.
  assert (size ({["x"; "y"]} : gset string) = 2%nat) as H1 by (vm_compute; reflexivity).
  assert (size ({["y"; "z"]} : gset string) = 2%nat) as H2 by (vm_compute; reflexivity).
  split; [exact H1|]. split; [exact H2|].
  exact (crossover_children {["x"; "y"]} {["y"; "z"]} 2 1%Z H1 H2).
Defined.

Lemma nonpositive_n_unchecked_witness :
  (-1 ≤ 0)%Z ∧
  (calculate_next_n_symptoms example_catalog ∅ (-1) "greedy" None 1%Z).2 = 1%Z.
Proof.
  assert (-1 ≤ 0)%Z as Hn by (vm_compute; discriminate).
  split; [exact Hn|].
  exact (proj1 (nonpositive_n_unchecked example_catalog ∅ None (-1) 1%Z Hn)).
Defined.

(** C4, as stated, fails: with [n = 0] the greedy method returns the
    empty proposal and raises nothing. *)
Lemma zero_n_returns_empty :
  calculate_next_n_symptoms example_catalog ∅ 0 "greedy" None 1%Z = (Ok ∅, 1%Z).
Proof. vm_compute. reflexivity. Qed.

(** What the other two methods do at [n <= 0] on the same input: the
    genetic method returns the empty proposal for [n = 0], and the
    sampling of numpy and [itertools.combinations] reject a negative [n],
    with [OverflowError] when it does not fit 64 bits. *)
Example nonpositive_n_examples :
  (calculate_next_n_symptoms example_catalog ∅ 0 "exhaustive" None 1%Z).1 = Ok ∅ ∧
  (calculate_next_n_symptoms example_catalog ∅ (-1) "exhaustive" None 1%Z).1
    = Err (ValueError "r must be non-negative") ∧
  (calculate_next_n_symptoms example_catalog ∅ (- 2 ^ 64) "exhaustive" None 1%Z).1
    = Err OverflowError ∧
  (calculate_next_n_symptoms example_catalog ∅ (-1) "genetic" None 1%Z).1
    = Err (ValueError "Negative dimensions are not allowed") ∧
  (calculate_next_n_symptoms example_catalog ∅ (- 2 ^ 64) "genetic" None 1%Z).1
    = Err OverflowError.
Proof. vm_compute. auto 6. Qed.
End Examples.

(** * Further properties: candidates and scoring *)

Section MoreScoring.
Context `{RT : PyRuntime}.
Implicit Types (ds candidate_diseases : catalog) (current symptoms : gset string).

(** X1: the candidates are entries of the catalog, in its order, each
    with a symptom in common with the confirmed set (so none has an empty
    symptom set); nothing confirmed gives no candidate; confirming more
    keeps every candidate. *)
Theorem candidate_diseases_facts ds current current' :
  _get_candidate_diseases ds current `sublist_of` ds ∧
  Forall (fun p => ∃ x, x ∈ current ∧ x ∈ p.2) (_get_candidate_diseases ds current) ∧
  _get_candidate_diseases ds ∅ = [] ∧
  (current ⊆ current' →
     _get_candidate_diseases ds current `sublist_of` _get_candidate_diseases ds current').
Proof.
  unfold _get_candidate_diseases, catalog. split; [apply sublist_filter|]. split; [|split].
  - apply Forall_forall. intros p [Hp _]%list_elem_of_filter.
    apply set_choose_L in Hp as [x Hx]. exists x. set_solver.
  - induction ds as [|p ds IH]; [done|].
    rewrite filter_cons, decide_False; [done|]. intros Hp. apply Hp. set_solver.
  - intros Hsub. induction ds as [|p ds IH]; [done|].
    rewrite !filter_cons.
    destruct (decide (current ∩ p.2 ≠ ∅)) as [Hp|Hp].
    + rewrite decide_True; [by constructor|].
      apply set_choose_L in Hp as [x Hx]. set_solver.
    + destruct (decide (current' ∩ p.2 ≠ ∅)); [by constructor|done].
Qed.

(** The largest sum of [k] summands of at most 1 each: [k] as long as
    it is a double, and [2^53] from then on, where adding 1 is a tie that
    rounds back. *)
Fixpoint float_count (k : nat) : Q :=
  match k with
  | O => 0%Q
  | S k' => float_add (float_count k') 1
  end.

Lemma float_count_spec (k : nat) :
  ((Z.of_nat k ≤ 2 ^ 53)%Z → (float_count k == Qnat k)%Q) ∧
  ((2 ^ 53 ≤ Z.of_nat k)%Z → (float_count k == inject_Z (2 ^ 53))%Q).
Proof.
  induction k as [|k [IH1 IH2]]; [split; [done|lia]|].
  assert ((Z.of_nat (S k) ≤ 2 ^ 53)%Z → (float_count (S k) == Qnat (S k))%Q) as Hsmall.
  { intros Hk. simpl float_count. unfold float_add. rewrite IH1 by lia.
    assert (Qnat k + 1 == inject_Z (Z.of_nat (S k)))%Q as ->.
    { unfold Qnat. rewrite Nat2Z.inj_succ, <-Z.add_1_r, inject_Z_plus. done. }
    apply rnd_int. lia. }
  split; [done|]. intros Hk.
  destruct (Z.eq_dec (Z.of_nat (S k)) (2 ^ 53)%Z) as [Heq|Hne].
  - rewrite Hsmall by lia. unfold Qnat. by rewrite Heq.
  - simpl float_count. unfold float_add. rewrite IH2 by lia.
    eapply Qeq_trans; [|apply rnd_tie]. apply rnd_proper.
    rewrite inject_Z_plus. reflexivity.
Qed.

Lemma float_count_le (k : nat) : (float_count k <= py_float k)%Q.
Proof.
  destruct (float_count_spec k) as [Hsmall Hlarge].
  destruct (Z.le_gt_cases (Z.of_nat k) (2 ^ 53)) as [Hk|Hk].
  - rewrite Hsmall by done. unfold py_float, Qnat. rewrite rnd_int by lia. apply Qle_refl.
  - rewrite Hlarge by lia. rewrite <-(rnd_int (2 ^ 53)) by lia.
    apply rnd_mono. unfold Qnat. rewrite <-Zle_Qle. lia.
Qed.

(** The share of a non-empty symptom set that a set covers, as a
    double. *)
Lemma coverage_range (X Y : gset string) :
  Y ≠ ∅ → (0 <= rnd (Qnat (size (X ∩ Y)) / Qnat (size Y)) ∧
           rnd (Qnat (size (X ∩ Y)) / Qnat (size Y)) <= 1)%Q.
Proof.
  intros HY. assert (0 < size Y)%nat as Hsize.
  { assert (size Y ≠ 0%nat); [|lia]. rewrite size_non_empty_iff.
    by intros ?%leibniz_equiv. }
  pose proof (match_rate_range X Y) as Hr. unfold match_rate in Hr.
  rewrite (proj2 (Nat.ltb_lt _ _) Hsize) in Hr.
  split; [apply rnd_nonneg|apply rnd_le_1]; apply Hr.
Qed.

Lemma coverage_mono (X X' Y : gset string) :
  Y ≠ ∅ → X ⊆ X' →
  (rnd (Qnat (size (X ∩ Y)) / Qnat (size Y)) <= rnd (Qnat (size (X' ∩ Y)) / Qnat (size Y)))%Q.
Proof.
  intros HY Hsub. assert (0 < size Y)%nat as Hsize.
  { assert (size Y ≠ 0%nat); [|lia]. rewrite size_non_empty_iff.
    by intros ?%leibniz_equiv. }
  pose proof (match_rate_mono X X' Y Hsub) as Hm. unfold match_rate in Hm.
  rewrite (proj2 (Nat.ltb_lt _ _) Hsize) in Hm. by apply rnd_mono.
Qed.

(** The sum the loop of [_calculate_coverage_score] builds. *)
Lemma coverage_fold symptoms candidate_diseases (acc : Q) (j : nat) :
  Forall (fun p => p.2 ≠ ∅) candidate_diseases →
  (0 <= acc)%Q → (acc <= float_count j)%Q →
  ∃ total, foldl (fun acc (p : string * gset string) =>
                    total_coverage ← acc;
                    coverage ← py_div (Qnat (size (symptoms ∩ p.2))) (Qnat (size p.2));
                    mret (float_add total_coverage coverage))
                 (Ok acc) candidate_diseases = Ok total ∧
           (0 <= total)%Q ∧ (total <= float_count (j + length candidate_diseases))%Q ∧
           ∀ symptoms' acc', symptoms ⊆ symptoms' → (acc <= acc')%Q →
             ∃ total', foldl (fun acc (p : string * gset string) =>
                    total_coverage ← acc;
                    coverage ← py_div (Qnat (size (symptoms' ∩ p.2))) (Qnat (size p.2));
                    mret (float_add total_coverage coverage))
                 (Ok acc') candidate_diseases = Ok total' ∧ (total <= total')%Q.
Proof.
  intros Hne. revert acc j. induction Hne as [|p l Hp _ IH]; intros acc j Hlo Hhi; simpl.
  { exists acc. split; [done|]. split; [done|]. rewrite Nat.add_0_r. split; [done|].
    intros symptoms' acc' _ Hacc. by exists acc'. }
  assert (∀ X : gset string,
    py_div (Qnat (size (X ∩ p.2))) (Qnat (size p.2))
    = Ok (rnd (Qnat (size (X ∩ p.2)) / Qnat (size p.2)))) as Hdiv.
  { intros X. apply py_div_Ok, Qnat_nonzero. rewrite size_non_empty_iff.
    by intros ?%leibniz_equiv. }
  rewrite Hdiv. unfold_result.
  destruct (coverage_range symptoms p.2 Hp) as [Hc0 Hc1].
  destruct (IH (float_add acc (rnd (Qnat (size (symptoms ∩ p.2)) / Qnat (size p.2)))) (S j))
    as (total & Htotal & Hlo' & Hhi' & Hmono).
  { apply rnd_nonneg. lra. }
  { simpl float_count. apply rnd_mono. lra. }
  exists total. split; [done|]. split; [done|]. split.
  { by rewrite Nat.add_succ_r. }
  intros symptoms' acc' Hsub Hacc. rewrite Hdiv. unfold_result.
  apply Hmono; [done|]. apply rnd_mono.
  pose proof (coverage_mono symptoms symptoms' p.2 Hp Hsub). lra.
Qed.

Lemma coverage_fold_cases symptoms candidate_diseases (acc : Q) :
  match foldl (fun acc (p : string * gset string) =>
                 total_coverage ← acc;
                 coverage ← py_div (Qnat (size (symptoms ∩ p.2))) (Qnat (size p.2));
                 mret (float_add total_coverage coverage))
              (Ok acc) candidate_diseases with
  | Ok _ => Forall (fun p => p.2 ≠ ∅) candidate_diseases
  | Err e => e = ZeroDivisionError ∧ ∃ p, p ∈ candidate_diseases ∧ p.2 = ∅
  end.
Proof.
  revert acc. induction candidate_diseases as [|p l IH]; intros acc; simpl; [done|].
  destruct (decide (p.2 = ∅)) as [Hp|Hp].
  - rewrite Hp, size_empty. unfold py_div. simpl.
    assert (∀ l' e, foldl (fun acc (p : string * gset string) =>
                 total_coverage ← acc;
                 coverage ← py_div (Qnat (size (symptoms ∩ p.2))) (Qnat (size p.2));
                 mret (float_add total_coverage coverage))
              (Err e) l' = Err e) as -> by (induction l'; intros; simpl; auto).
    split; [done|]. exists p. split; [by left|done].
  - rewrite py_div_Ok; cycle 1.
    { apply Qnat_nonzero. rewrite size_non_empty_iff. by intros ?%leibniz_equiv. }
    unfold_result.
    specialize (IH (float_add acc (rnd (Qnat (size (symptoms ∩ p.2)) / Qnat (size p.2))))).
    destruct (foldl _ _ l) as [total|e].
    + by constructor.
    + destruct IH as (-> & q & ? & ?). split; [done|]. exists q. split; [by right|done].
Qed.

(** X2: [_calculate_coverage_score] raises exactly when a candidate has
    no symptom at all, and then it is [ZeroDivisionError]; otherwise it
    returns a number between 0 and 1. *)
Theorem coverage_score_cases symptoms candidate_diseases :
  match _calculate_coverage_score symptoms candidate_diseases with
  | Ok coverage =>
      Forall (fun p => p.2 ≠ ∅) candidate_diseases ∧ (0 <= coverage)%Q ∧ (coverage <= 1)%Q
  | Err e => e = ZeroDivisionError ∧ ∃ p, p ∈ candidate_diseases ∧ p.2 = ∅
  end.
Proof.
  unfold _calculate_coverage_score.
  pose proof (coverage_fold_cases symptoms candidate_diseases 0) as Hcases.
  destruct (foldl _ (Ok 0%Q) candidate_diseases) as [total|e] eqn:Hfold; simpl; [|done].
  destruct (coverage_fold symptoms candidate_diseases 0 0 Hcases)
    as (total' & Htotal & Hlo & Hhi & _); [done|done|].
  rewrite Hfold in Htotal. injection Htotal as <-.
  destruct (decide (candidate_diseases = [])) as [|Hnil]; [split; [done|split; lra]|].
  assert (0 < py_float (length candidate_diseases))%Q as Hlen.
  { apply py_float_pos. destruct candidate_diseases; [done|simpl; lia]. }
  rewrite py_div_Ok by lra. split; [done|].
  pose proof (float_count_le (length candidate_diseases)) as Hcount. simpl in Hhi.
  split.
  - apply rnd_nonneg. apply Qle_shift_div_l; [done|]. lra.
  - apply rnd_le_1. apply Qle_shift_div_r; [done|]. lra.
Qed.

(** X3: on the candidates of a confirmed set the coverage never raises,
    and it grows with the symptom set it is asked about. *)
Theorem coverage_score_mono ds current symptoms symptoms' :
  symptoms ⊆ symptoms' →
  ∃ coverage coverage',
    _calculate_coverage_score symptoms (_get_candidate_diseases ds current) = Ok coverage ∧
    _calculate_coverage_score symptoms' (_get_candidate_diseases ds current) = Ok coverage' ∧
    (coverage <= coverage')%Q.
Proof.
  intros Hsub. unfold _calculate_coverage_score.
  destruct (coverage_fold symptoms (_get_candidate_diseases ds current) 0 0
              (candidate_diseases_nonempty ds current)) as (total & -> & _ & _ & Hmono);
    [done|done|].
  destruct (Hmono symptoms' 0%Q Hsub ltac:(lra)) as (total' & -> & Hle).
  unfold_result.
  destruct (decide (_get_candidate_diseases ds current = [])) as [|Hnil].
  { exists 0%Q, 0%Q. split; [done|]. split; [done|lra]. }
  assert (0 < py_float (length (_get_candidate_diseases ds current)))%Q as Hlen.
  { apply py_float_pos. destruct (_get_candidate_diseases ds current); [done|simpl; lia]. }
  rewrite !py_div_Ok by lra. eexists _, _. split; [done|]. split; [done|].
  apply rnd_mono.
  unfold Qdiv. apply Qmult_le_compat_r; [done|]. apply Qinv_le_0_compat. lra.
Qed.
End MoreScoring.

Section MoreScoring2.
Context `{RT : PyRuntime}.
Implicit Types (ds candidate_diseases : catalog) (current symptoms : gset string).

(** X4: what the scoring functions can raise.  The information gain and
    the mutual information never raise, whatever they are given.  On the
    candidates of a confirmed set the combined score raises nothing but
    the [ZeroDivisionError] of [1 / (1 + mutual_info)] in the independence
    score, and nothing at all for a set of at most one symptom. *)
Theorem scoring_exceptions ds current symptoms candidate_diseases (s1 s2 : string) :
  (∃ gain, _calculate_total_information_gain symptoms candidate_diseases = Ok gain) ∧
  (∃ mi, _calculate_mutual_information ds s1 s2 = Ok mi) ∧
  match _calculate_combined_score ds symptoms (_get_candidate_diseases ds current) with
  | Ok _ => True
  | Err e =>
      e = ZeroDivisionError ∧ (1 < size symptoms)%nat ∧
      _calculate_independence_score ds symptoms = Err ZeroDivisionError
  end.
Proof.
  split; [apply information_gain_Ok|]. split; [apply mutual_information_Ok|].
  unfold _calculate_combined_score.
  destruct (information_gain_Ok symptoms (_get_candidate_diseases ds current)) as [ig ->].
  destruct (coverage_score_Ok symptoms (_get_candidate_diseases ds current)
              (candidate_diseases_nonempty ds current)) as [cov ->].
  unfold_result.
  destruct (_calculate_independence_score ds symptoms) as [ind|e] eqn:Hind; [done|].
  destruct (independence_score_raises ds symptoms e Hind) as [-> _].
  split; [done|]. split; [|done].
  unfold _calculate_independence_score in Hind.
  destruct (decide (size symptoms ≤ 1)%nat); [done|lia].
Qed.

(** The counters of [_calculate_mutual_information] with the two symptoms
    exchanged. *)
Lemma mutual_information_counts_swap (s1 s2 : string) (l : list (gset string)) (a b c : nat) :
  foldl (fun '(count_both, count_s1, count_s2) symptoms =>
           let has_s1 := bool_decide (s2 ∈ symptoms) in
           let has_s2 := bool_decide (s1 ∈ symptoms) in
           ((if has_s1 && has_s2 then S count_both else count_both),
            (if has_s1 then S count_s1 else count_s1),
            (if has_s2 then S count_s2 else count_s2)))
        (a, c, b) l =
  let '(count_both, count_s1, count_s2) :=
    foldl (fun '(count_both, count_s1, count_s2) symptoms =>
             let has_s1 := bool_decide (s1 ∈ symptoms) in
             let has_s2 := bool_decide (s2 ∈ symptoms) in
             ((if has_s1 && has_s2 then S count_both else count_both),
              (if has_s1 then S count_s1 else count_s1),
              (if has_s2 then S count_s2 else count_s2)))
          (a, b, c) l in
  (count_both, count_s2, count_s1).
Proof.
  revert a b c. induction l as [|x l IH]; intros a b c; simpl; [done|].
  rewrite (andb_comm (bool_decide (s2 ∈ x))). apply IH.
Qed.

(** The first counter counts the diseases that have both symptoms. *)
Lemma mutual_information_count_both (s1 s2 : string) (l : list (gset string)) (a b c : nat) :
  (∀ x, x ∈ l → ¬ (s1 ∈ x ∧ s2 ∈ x)) →
  (foldl (fun '(count_both, count_s1, count_s2) symptoms =>
            let has_s1 := bool_decide (s1 ∈ symptoms) in
            let has_s2 := bool_decide (s2 ∈ symptoms) in
            ((if has_s1 && has_s2 then S count_both else count_both),
             (if has_s1 then S count_s1 else count_s1),
             (if has_s2 then S count_s2 else count_s2)))
         (a, b, c) l).1.1 = a.
Proof.
  revert a b c. induction l as [|x l IH]; intros a b c Hl; simpl; [done|].
  assert (bool_decide (s1 ∈ x) && bool_decide (s2 ∈ x) = false) as ->.
  { apply not_true_iff_false. rewrite andb_true_iff, !bool_decide_eq_true.
    apply Hl. by left. }
  apply IH. intros y Hy. apply Hl. by right.
Qed.

(** X5: the mutual information of two symptoms does not depend on their
    order, and it is 0 when no disease of the catalog has both. *)
Theorem mutual_information_symmetric ds (s1 s2 : string) :
  ∃ mi mi', _calculate_mutual_information ds s1 s2 = Ok mi ∧
            _calculate_mutual_information ds s2 s1 = Ok mi' ∧ (mi == mi')%Q ∧
            ((∀ p, p ∈ ds → ¬ (s1 ∈ p.2 ∧ s2 ∈ p.2)) → mi = 0%Q).
Proof.
  destruct (mutual_information_Ok ds s1 s2) as [mi Hmi].
  destruct (mutual_information_Ok ds s2 s1) as [mi' Hmi'].
  exists mi, mi'. split; [done|]. split; [done|]. split.
  - revert Hmi Hmi'. unfold _calculate_mutual_information.
    pose proof (mutual_information_counts_swap s1 s2 (map snd ds) 0 0 0) as Hswap.
    cbv zeta in *. rewrite Hswap. clear Hswap.
    destruct (foldl _ (0%nat, 0%nat, 0%nat) (map snd ds)) as [[count_both count_s1] count_s2].
    destruct (decide (count_both = 0%nat)); [by intros [= <-] [= <-]|].
    destruct (py_div (Qnat count_both) _) as [p_both|]; [|done].
    destruct (py_div (Qnat count_s1) _) as [p_s1|]; [|done].
    destruct (py_div (Qnat count_s2) _) as [p_s2|]; [|done].
    unfold_result.
    rewrite <-(orb_assoc _ (Qeq_bool p_s2 0)), (orb_comm (Qeq_bool p_s2 0)), orb_assoc.
    destruct (Qeq_bool p_both 0 || Qeq_bool p_s1 0 || Qeq_bool p_s2 0);
      [by intros [= <-] [= <-]|].
    unfold py_div.
    assert (float_mul p_s2 p_s1 == float_mul p_s1 p_s2)%Q as Hcomm.
    { unfold float_mul. apply rnd_proper, Qmult_comm. }
    assert (Qeq_bool (float_mul p_s2 p_s1) 0 = Qeq_bool (float_mul p_s1 p_s2) 0) as ->.
    { destruct (Qeq_bool (float_mul p_s1 p_s2) 0) eqn:Heq.
      - apply Qeq_bool_iff. apply Qeq_bool_iff in Heq. by rewrite Hcomm.
      - apply not_true_iff_false. rewrite Qeq_bool_iff.
        apply Qeq_bool_neq in Heq. by rewrite Hcomm. }
    destruct (Qeq_bool (float_mul p_s1 p_s2) 0); [done|].
    assert (rnd (p_both / float_mul p_s2 p_s1) == rnd (p_both / float_mul p_s1 p_s2))%Q
      as Hq by by rewrite Hcomm.
    unfold math_log2.
    assert (Qltb 0 (rnd (p_both / float_mul p_s2 p_s1))
            = Qltb 0 (rnd (p_both / float_mul p_s1 p_s2))) as ->.
    { unfold Qltb. f_equal.
      destruct (Qle_bool (rnd (p_both / float_mul p_s1 p_s2)) 0) eqn:Hle.
      - apply Qle_bool_iff. apply Qle_bool_iff in Hle. by rewrite Hq.
      - apply not_true_iff_false. rewrite Qle_bool_iff. intros Hle'.
        apply not_true_iff_false in Hle. apply Hle. apply Qle_bool_iff. by rewrite <-Hq. }
    destruct (Qltb 0 (rnd (p_both / float_mul p_s1 p_s2))); [|done].
    intros [= <-] [= <-]. by rewrite (log2_proper _ _ Hq).
  - intros Hnone. revert Hmi. unfold _calculate_mutual_information.
    pose proof (mutual_information_count_both s1 s2 (map snd ds) 0 0 0) as Hcount.
    cbv zeta in *.
    destruct (foldl _ (0%nat, 0%nat, 0%nat) (map snd ds)) as [[count_both count_s1] count_s2].
    simpl in Hcount. rewrite Hcount.
    + by intros [= <-].
    + intros x (p & -> & Hp)%list_elem_of_fmap. by apply Hnone.
Qed.

(** *** The groups of [_split_by_symptoms] *)

(** The membership vector of a disease, the key of its group. *)
Definition membership (order : list string) (disease_symptoms : gset string) : list bool :=
  map (fun s => bool_decide (s ∈ disease_symptoms)) order.

(** What the loop keeps true of the groups after the diseases [done]. *)
Definition groups_inv (order : list string) (done : catalog)
    (groups : list (list bool * list string)) : Prop :=
  mjoin groups.*2 ≡ₚ done.*1 ∧
  Forall (fun kg => kg.2 ≠ []) groups ∧
  NoDup groups.*1 ∧
  Forall (fun kg => ∀ d, d ∈ kg.2 →
            ∃ disease_symptoms, (d, disease_symptoms) ∈ done ∧
                                membership order disease_symptoms = kg.1) groups.

Lemma membership_eq (order : list string) (s s' : gset string) :
  membership order s = membership order s' ↔ ∀ x, x ∈ order → (x ∈ s ↔ x ∈ s').
Proof.
  unfold membership. induction order as [|x order IH]; simpl.
  - split; [by intros _ x ?%elem_of_nil|done].
  - split.
    + intros [= Hx Hrest] y [->|Hy]%elem_of_cons.
      * by rewrite <-(bool_decide_eq_true (x ∈ s)), Hx, bool_decide_eq_true.
      * by apply IH.
    + intros Hall. f_equal.
      * apply bool_decide_ext. apply Hall. by left.
      * apply IH. intros y Hy. apply Hall. by right.
Qed.

Lemma add_to_group_inv (order : list string) (done : catalog)
    (groups : list (list bool * list string)) (p : string * gset string) :
  groups_inv order done groups →
  groups_inv order (done ++ [p]) (add_to_group (membership order p.2) p.1 groups).
Proof.
  unfold groups_inv, catalog in *. intros (Hjoin & Hne & Hkeys & Hmem).
  assert (∀ kg : list bool * list string,
    (∀ d, d ∈ kg.2 → ∃ s, (d, s) ∈ done ∧ membership order s = kg.1) →
    ∀ d, d ∈ kg.2 → ∃ s, (d, s) ∈ done ++ [p] ∧ membership order s = kg.1) as Hweaken.
  { intros kg Hkg d Hd. destruct (Hkg d Hd) as (s & ? & ?). exists s.
    split; [|done]. apply elem_of_app. by left. }
  rewrite fmap_app. simpl.
  revert Hjoin Hne Hkeys Hmem. generalize (done.*1). intros names.
  revert names. induction groups as [|[k g] groups IH]; intros names Hjoin Hne Hkeys Hmem; simpl.
  - simpl in Hjoin. apply Permutation_nil_l in Hjoin. subst names.
    split; [done|]. split; [by repeat constructor|]. split; [apply NoDup_singleton|].
    repeat constructor. simpl. intros d ->%list_elem_of_singleton.
    exists p.2. split; [|done]. apply elem_of_app. right. destruct p. by left.
  - apply Forall_cons in Hne as [Hg Hne]. apply NoDup_cons in Hkeys as [Hk Hkeys].
    apply Forall_cons in Hmem as [Hgm Hmem]. simpl in *.
    destruct (decide (k = membership order p.2)) as [->|Hneq]; simpl.
    + split; [|split; [|split]].
      * rewrite <-Hjoin. rewrite <-!(assoc (++)), (comm (++) [p.1]). done.
      * constructor; [by destruct g|done].
      * by constructor.
      * constructor; simpl.
        -- intros d [Hd| ->%list_elem_of_singleton]%elem_of_app;
             [exact (Hweaken (membership order p.2, g) Hgm d Hd)|].
           exists p.2. split; [|done]. apply elem_of_app. right. destruct p. by left.
        -- eapply Forall_impl; [done|]. intros kg Hkg. by apply Hweaken.
    + destruct (IH (mjoin groups.*2) ltac:(done) Hne Hkeys Hmem) as (Hj & Hn & Hkk & Hm).
      split; [|split; [|split]].
      * rewrite Hj, <-Hjoin. by rewrite (assoc (++)).
      * by constructor.
      * constructor; [|done]. clear -Hk Hneq. intros Hin. apply Hk. clear Hk.
        induction groups as [|[k' g'] groups IH]; simpl in *.
        -- apply list_elem_of_singleton in Hin. done.
        -- destruct (decide (k' = membership order p.2)); simpl in *; [done|].
           apply elem_of_cons in Hin as [->|Hin]; [by left|]. right. by apply IH.
      * constructor; [exact (Hweaken (k, g) Hgm)|done].
Qed.

Lemma split_by_symptoms_inv symptoms candidate_diseases :
  groups_inv (set_order symptoms_object symptoms) candidate_diseases
    (foldl (fun groups p =>
              add_to_group (map (fun s => bool_decide (s ∈ snd p)) (set_order symptoms_object symptoms))
                (fst p) groups)
           [] candidate_diseases).
Proof.
  induction candidate_diseases as [|p l IH] using rev_ind.
  - split; [done|]. split; [constructor|]. split; constructor.
  - rewrite foldl_app. simpl. by apply (add_to_group_inv _ _ _ p).
Qed.

(** X6: [_split_by_symptoms] partitions the candidates.  Every candidate
    is in exactly one group and no group is empty; on a dict (distinct
    disease names) two diseases are in the same group exactly when they
    agree on every symptom of the set, so diseases of different groups
    differ on one of them. *)
Theorem split_by_symptoms_partition symptoms candidate_diseases :
  let groups := _split_by_symptoms symptoms candidate_diseases in
  mjoin groups ≡ₚ candidate_diseases.*1 ∧
  Forall (fun group => group ≠ []) groups ∧
  (length groups ≤ length candidate_diseases)%nat ∧
  (NoDup candidate_diseases.*1 →
   ∀ i j group group' d d' disease_symptoms disease_symptoms',
     groups !! i = Some group → groups !! j = Some group' →
     d ∈ group → d' ∈ group' →
     (d, disease_symptoms) ∈ candidate_diseases →
     (d', disease_symptoms') ∈ candidate_diseases →
     (i = j ↔ ∀ x, x ∈ symptoms → (x ∈ disease_symptoms ↔ x ∈ disease_symptoms'))).
Proof.
  intros groups. subst groups. unfold _split_by_symptoms.
  pose proof (split_by_symptoms_inv symptoms candidate_diseases) as (Hjoin & Hne & Hkeys & Hmem).
  set (keyed := foldl _ [] candidate_diseases) in *.
  change (map snd keyed) with (keyed.*2).
  split; [done|]. split; [|split].
  - apply Forall_fmap. eapply Forall_impl; [exact Hne|]. intros kg Hkg. exact Hkg.
  - rewrite <-(length_fmap fst candidate_diseases), <-Hjoin, length_fmap.
    clear -Hne. induction Hne as [|[k g] l Hg _ IH]; simpl; [done|].
    rewrite length_app. change (list_fmap _ _ snd l) with (l.*2).
    destruct g; [done|]. simpl. lia.
  - intros Hnd i j group group' d d' s s' Hi Hj Hd Hd' Hs Hs'.
    apply list_lookup_fmap_Some in Hi as ([k g] & -> & Hki).
    apply list_lookup_fmap_Some in Hj as ([k' g'] & -> & Hkj). simpl in *.
    assert (∀ d0 s0 s1, (d0, s0) ∈ candidate_diseases → (d0, s1) ∈ candidate_diseases →
                        s0 = s1) as Hfun.
    { intros d0 s0 s1 H0 H1.
      pose proof (dict_get_NoDup d0 s0 candidate_diseases Hnd H0).
      pose proof (dict_get_NoDup d0 s1 candidate_diseases Hnd H1). congruence. }
    assert (membership (set_order symptoms_object symptoms) s = k) as Hk.
    { destruct (proj1 (Forall_forall _ _) Hmem (k, g) (list_elem_of_lookup_2 _ _ _ Hki) d Hd)
        as (s0 & Hs0 & Hk0). simpl in Hk0. by rewrite (Hfun d s s0). }
    assert (membership (set_order symptoms_object symptoms) s' = k') as Hk'.
    { destruct (proj1 (Forall_forall _ _) Hmem (k', g') (list_elem_of_lookup_2 _ _ _ Hkj) d' Hd')
        as (s0 & Hs0 & Hk0). simpl in Hk0. by rewrite (Hfun d' s' s0). }
    assert (k = k' ↔ ∀ x, x ∈ symptoms → (x ∈ s ↔ x ∈ s')) as Hvec.
    { rewrite <-Hk, <-Hk', membership_eq. split; intros Hall x Hx; apply Hall.
      - by apply elem_of_set_order.
      - by apply elem_of_set_order in Hx. }
    rewrite <-Hvec. split.
    + intros ->. congruence.
    + intros ->. apply (NoDup_lookup keyed.*1 i j k' Hkeys).
      * by rewrite list_lookup_fmap, Hki.
      * by rewrite list_lookup_fmap, Hkj.
Qed.
End MoreScoring2.

Section InformationGain.
Context `{RT : PyRuntime}.
Implicit Types (candidate_diseases : catalog) (symptoms : gset string).

(** Candidates that all have one key stay in one group. *)
Lemma split_all_equal (order : list string) candidate_diseases (key : list bool)
    (group : list string) :
  Forall (fun p => membership order p.2 = key) candidate_diseases →
  foldl (fun groups p =>
           add_to_group (map (fun s => bool_decide (s ∈ snd p)) order) (fst p) groups)
        [(key, group)] candidate_diseases
  = [(key, group ++ candidate_diseases.*1)].
Proof.
  unfold catalog in *.
  revert group. induction candidate_diseases as [|p l IH]; intros group Hall; simpl.
  - by rewrite app_nil_r.
  - apply Forall_cons in Hall as [Hp Hall]. fold (membership order p.2).
    rewrite Hp, decide_True by done. rewrite IH by done. by rewrite <-(assoc (++)).
Qed.

(** X7: [_calculate_total_information_gain] when no symptom of the set
    tells two candidates apart, for a [log2] with [log2(1) = 0].  The
    candidates form one group, of probability [n / n = 1] and entropy 0,
    and the value is [log2(n)] as the double the subtraction
    [log2(n) - 0.0] gives. *)
Theorem information_gain_one_group symptoms candidate_diseases :
  let n := length candidate_diseases in
  candidate_diseases ≠ [] → (log2 1 == 0)%Q →
  (∀ p q x, p ∈ candidate_diseases → q ∈ candidate_diseases → x ∈ symptoms →
     (x ∈ p.2 ↔ x ∈ q.2)) →
  ∃ gain,
    _calculate_total_information_gain symptoms candidate_diseases = Ok gain ∧
    (gain == rnd (log2 (py_float n)))%Q.
Proof.
  intros n Hne Hlog1 Hsame. subst n.
  assert (0 < length candidate_diseases)%nat as Hlen
    by (destruct candidate_diseases; [done|simpl; lia]).
  pose proof (Qnat_nonzero (length candidate_diseases) ltac:(lia)) as Hnz.
  unfold _calculate_total_information_gain.
  rewrite decide_False by lia.
  rewrite math_log2_Ok by by apply py_float_pos.
  unfold_result. unfold _split_by_symptoms.
  destruct candidate_diseases as [|p l]; [done|].
  cbn [foldl]. fold (membership (set_order symptoms_object symptoms) p.2).
  cbn [add_to_group].
  rewrite (split_all_equal _ l (membership (set_order symptoms_object symptoms) p.2) [p.1]);
    cycle 1.
  { apply Forall_forall. intros q Hq. apply membership_eq.
    intros x Hx%elem_of_set_order. apply Hsame; [by right|by left|done]. }
  cbn [map snd foldl].
  assert (length ([p.1] ++ l.*1) = length (p :: l)) as -> by (simpl; by rewrite length_fmap).
  rewrite py_div_Ok by done.
  assert (rnd (Qnat (length (p :: l)) / Qnat (length (p :: l))) == 1)%Q as Hprob.
  { rewrite <-rnd_1. apply rnd_proper. by field. }
  rewrite (proj2 (Qltb_lt _ _)) by (rewrite Hprob; reflexivity).
  rewrite math_log2_Ok by (rewrite Hprob; reflexivity).
  eexists. split; [done|]. unfold float_sub, float_mul.
  rewrite (log2_proper _ _ Hprob), Hlog1.
  assert (rnd (Qnat (length (p :: l)) / Qnat (length (p :: l))) * 0 == 0)%Q as -> by ring.
  rewrite rnd_0. assert (0 - 0 == 0)%Q as -> by ring. rewrite rnd_0.
  apply rnd_proper. ring.
Qed.
End InformationGain.

(** * Further properties: match rates and the two deterministic selectors *)

Section MoreSelectors.
Context `{RT : PyRuntime}.
Implicit Types (ds : catalog) (current denied pool symptoms : gset string).

Lemma Qnat_div_eq_1 (a t : nat) : (0 < t)%nat → (Qnat a / Qnat t == 1)%Q ↔ a = t.
Proof.
  intros Ht. pose proof (Qnat_nonzero t ltac:(lia)) as Hnz. split.
  - intros Heq. assert (Qnat a == Qnat t)%Q as Hat.
    { rewrite <-(Qmult_div_r (Qnat a) (Qnat t)) by done. rewrite Heq. ring. }
    unfold Qnat, Qeq in Hat. simpl in Hat. lia.
  - intros ->. unfold Qdiv. by apply Qmult_inv_r.
Qed.

Lemma Qnat_div_eq_0 (a t : nat) : (0 < t)%nat → (Qnat a / Qnat t == 0)%Q ↔ a = 0%nat.
Proof.
  intros Ht. pose proof (Qnat_nonzero t ltac:(lia)) as Hnz. split.
  - intros Heq. assert (Qnat a == Qnat 0)%Q as Hat.
    { rewrite <-(Qmult_div_r (Qnat a) (Qnat t)) by done. rewrite Heq. unfold Qnat. simpl. ring. }
    unfold Qnat, Qeq in Hat. simpl in Hat. lia.
  - intros ->. unfold Qdiv, Qnat. simpl. ring.
Qed.

(** X8: on a catalog with distinct names, the match rate of a disease
    with at least one symptom is 1 exactly when all of its symptoms are
    confirmed, and 0 exactly when none is. *)
Theorem match_score_extremes ds current (d : string) symptoms :
  NoDup ds.*1 → (d, symptoms) ∈ ds → symptoms ≠ ∅ →
  ∃ v, dict_get d (get_disease_match_scores ds current) = Some v ∧
       ((v == 1)%Q ↔ symptoms ⊆ current) ∧
       ((v == 0)%Q ↔ symptoms ## current).
Proof.
  intros Hnd Hin Hne. exists (match_rate current symptoms). split.
  { rewrite dict_get_match_scores, (dict_get_NoDup d symptoms); [done| |].
    - by rewrite fmap_reverse, reverse_Permutation.
    - by rewrite elem_of_reverse. }
  assert (0 < size symptoms)%nat as Hsize.
  { assert (size symptoms ≠ 0%nat); [|lia]. rewrite size_non_empty_iff.
    by intros ?%leibniz_equiv. }
  unfold match_rate. rewrite (proj2 (Nat.ltb_lt _ _) Hsize). split.
  - rewrite Qnat_div_eq_1 by done. split.
    + intros Heq. assert (current ∩ symptoms = symptoms) as <-; [|set_solver].
      apply set_subseteq_size_eq; [set_solver|lia].
    + intros Hsub. f_equal. set_solver.
  - rewrite Qnat_div_eq_0 by done. rewrite size_empty_iff. set_solver.
Qed.

(** The running maximum of a list whose first score no later one
    exceeds is its first entry. *)
Lemma best_of_head {A} (s0 : Q) (x0 : A) (rest : list (Q * A)) :
  Forall (fun sx => (sx.1 <= s0)%Q) rest → best_of ((s0, x0) :: rest) = Some (s0, x0).
Proof.
  unfold best_of. simpl. induction 1 as [|[s x] rest Hs _ IH]; simpl; [done|].
  by rewrite (proj2 (Qltb_ge s0 s) Hs).
Qed.

(** Sorting a sorted list changes nothing. *)
Lemma sort_desc_sorted_id {A} (l : list (Q * A)) :
  StronglySorted desc l → sort_desc l = l.
Proof.
  induction 1 as [|kx l _ IH Hkx]; simpl; [done|]. rewrite IH.
  destruct l as [|ky l]; simpl; [done|].
  apply Forall_cons in Hkx as [Hxy _]. unfold desc in Hxy.
  by rewrite (proj2 (Qltb_ge kx.1 ky.1) Hxy).
Qed.

(** A search loop whose scores are known. *)
Lemma search_loop_scored {A} (f : A → result Q) (scored : list (Q * A)) :
  Forall (fun sx => f sx.2 = Ok sx.1) scored →
  foldl (fun acc x => best ← acc; score ← f x; mret (keep_best best score x))
        (Ok None) scored.*2 = Ok (best_of scored).
Proof.
  intros Hscored. unfold best_of.
  induction scored as [|[s x] scored IH] using rev_ind; [done|].
  apply Forall_app in Hscored as [Hscored Hsx]. apply Forall_cons in Hsx as [Hsx _].
  rewrite fmap_app, !foldl_app, IH by done. simpl in *. by rewrite Hsx.
Qed.

(** The keys [sorted] computes, paired with the sorted elements. *)
Lemma sorted_by_key_desc_keys {A} (key : A → result Q) (l sorted : list A) :
  sorted_by_key_desc key l = Ok sorted →
  ∃ keyed, sorted = keyed.*2 ∧ StronglySorted desc keyed ∧
           Forall (fun kx => key kx.2 = Ok kx.1) keyed.
Proof.
  unfold sorted_by_key_desc.
  pose proof (mapM_result_inv (fun x => k ← key x; mret (k, x)) l) as Hks.
  destruct (mapM _ l) as [ks|]; [|done]. intros [= <-].
  exists (sort_desc ks). split; [done|]. split; [apply sort_desc_sorted|].
  apply Forall_forall. intros kx Hkx. rewrite sort_desc_perm in Hkx.
  apply list_elem_of_lookup in Hkx as [i Hi].
  destruct (Forall2_lookup_r _ _ _ _ _ Hks Hi) as (x & _ & Hx).
  destruct (key x) as [k|] eqn:Hk; unfold_result; by simplify_eq/=.
Qed.

Lemma greedy_best_first_round ds current denied (keyed : list (Q * string)) :
  Forall (fun kx => symptom_score ds current (_get_candidate_diseases ds current) denied kx.2
                    = Ok kx.1) keyed →
  greedy_best ds current (_get_candidate_diseases ds current) denied ∅ keyed.*2
  = Ok (best_of keyed).
Proof.
  intros Hkeyed.
  rewrite <-(search_loop_scored
    (symptom_score ds current (_get_candidate_diseases ds current) denied) keyed Hkeyed).
  unfold greedy_best. generalize (Ok None : result (option (Q * string))).
  generalize (keyed.*2). clear. intros l.
  induction l as [|symptom l IH]; intros acc; simpl; [done|].
  rewrite IH. f_equal. destruct acc as [best|]; [|done]. unfold_result.
  unfold symptom_score, _calculate_symptom_importance. unfold_result.
  rewrite union_empty_r_L.
  destruct (_calculate_combined_score _ _ _); [|done]. by destruct (decide _).
Qed.

(** The greedy selection of one symptom from a pool whose sorted order
    is known. *)
Lemma greedy_selection_single ds current denied (sorted_symptoms : list string) :
  all_symptoms ds ∖ current ≠ ∅ →
  sorted_by_key_desc (symptom_score ds current (_get_candidate_diseases ds current) denied)
    (set_order available_symptoms_object (all_symptoms ds ∖ current)) = Ok sorted_symptoms →
  ∃ first rest, sorted_symptoms = first :: rest ∧
    _greedy_selection ds current (_get_candidate_diseases ds current)
      (all_symptoms ds ∖ current) 1 denied = Ok {[first]}.
Proof.
  intros Hne Hsorted. unfold _greedy_selection. rewrite Hsorted.
  set (pool := all_symptoms ds ∖ current) in *.
  pose proof (sorted_by_key_desc_inv
    (symptom_score ds current (_get_candidate_diseases ds current) denied)
    (set_order available_symptoms_object pool)) as Hsort.
  rewrite Hsorted in Hsort. destruct Hsort as [Hperm _].
  destruct (sorted_by_key_desc_keys _ _ _ Hsorted) as (keyed & -> & Hdesc & Hkeys).
  destruct keyed as [|[k first] keyed].
  { apply Permutation_nil_l in Hperm. symmetry in Hperm. by apply set_order_nil in Hperm. }
  exists first, keyed.*2. split; [done|].
  unfold_result.
  change (Z.to_nat 1) with 1%nat. cbn [greedy_rounds].
  rewrite decide_False by done.
  rewrite (greedy_best_first_round ds current denied _ Hkeys).
  rewrite best_of_head by by apply StronglySorted_inv in Hdesc as [_ ?].
  assert (sorted_by_key_desc
            (symptom_score ds current (_get_candidate_diseases ds current) denied)
            ((k, first) :: keyed).*2 = Ok ((k, first) :: keyed).*2) as Hagain.
  { unfold sorted_by_key_desc.
    assert (mapM (fun x => k0 ← symptom_score ds current
                                  (_get_candidate_diseases ds current) denied x;
                           mret (k0, x))
              ((k, first) :: keyed).*2 = Ok ((k, first) :: keyed)) as ->.
    { clear -Hkeys. induction Hkeys as [|[k' x] l Hx _ IH]; [done|].
      rewrite fmap_cons. cbn [mapM snd]. simpl in Hx. rewrite Hx. unfold_result. by rewrite IH. }
    unfold_result. by rewrite sort_desc_sorted_id. }
  assert (greedy_backfill 1 ∅ ((k, first) :: keyed).*2 = {[first]}) as Hfill.
  { unfold greedy_backfill. rewrite fmap_cons. cbn [foldl snd]. rewrite size_empty.
    change (1 <=? Z.of_nat 0)%Z with false. cbv iota. rewrite union_empty_l_L.
    generalize (keyed.*2). intros l. induction l as [|x l IH]; [done|].
    cbn [foldl]. by rewrite size_singleton. }
  remember (((k, first) :: keyed).*2) as sorted eqn:Hsorted_eq.
  unfold_result.
  destruct (decide (first = EmptyString)) as [Hempty|Hfirst].
  - rewrite size_empty. change (Z.of_nat 0 <? 1)%Z with true. cbv iota.
    replace (filter _ sorted) with sorted; [by rewrite Hagain, Hfill|].
    clear. induction sorted as [|x l IH]; [done|].
    rewrite filter_cons_True by set_solver. by rewrite <-IH.
  - rewrite union_empty_l_L, size_singleton.
    change (Z.of_nat 1 <? 1)%Z with false. by rewrite union_empty_l_L.
Qed.

(** X9: asked for one symptom, the greedy method returns the first
    symptom of the pool sorted by importance (halved for a denied symptom),
    also when that symptom is the empty string, which the selection loop
    skips and the backfill then adds. *)
Theorem greedy_single_symptom ds current denied :
  let pool := all_symptoms ds ∖ current in
  let candidate_diseases := _get_candidate_diseases ds current in
  pool ≠ ∅ →
  match sorted_by_key_desc (symptom_score ds current candidate_diseases denied)
          (set_order available_symptoms_object pool) with
  | Ok sorted_symptoms =>
      ∃ first rest, sorted_symptoms = first :: rest ∧
        _greedy_selection ds current candidate_diseases pool 1 denied = Ok {[first]}
  | Err e =>
      _greedy_selection ds current candidate_diseases pool 1 denied = Err e ∧
      scoring_error ds e
  end.
Proof.
  intros pool cands Hne.
  pose proof (sorted_by_key_desc_inv (symptom_score ds current cands denied) (set_order available_symptoms_object pool))
    as Hsort.
  destruct (sorted_by_key_desc _ (set_order available_symptoms_object pool)) as [sorted|e] eqn:Hsorted.
  - by apply greedy_selection_single.
  - unfold _greedy_selection. fold pool cands. rewrite Hsorted. split; [done|].
    destruct Hsort as (x & _ & Hx). by eapply symptom_score_raises.
Qed.
End MoreSelectors.

Section MethodsCompared.
Context `{RT : PyRuntime} {G : Type} `{RNG : !NumpyRandom G}.
Implicit Types (ds : catalog) (current denied pool c : gset string).



(** X11: asked for at least as many symptoms as remain unconfirmed
    (the pool a Python set, of a length that fits [sys.maxsize]), the
    greedy and the exhaustive method propose the whole pool, and so does
    the genetic method when no name of the pool ends in a NUL character,
    unless a score raised the division by zero of the independence
    score. *)
Theorem whole_pool_proposed ds current denied_symptoms (n : Z) method (g : G) :
  let pool := all_symptoms ds ∖ current in
  pool ≠ ∅ → (Z.of_nat (size pool) ≤ n)%Z → (Z.of_nat (size pool) ≤ sys_maxsize)%Z →
  method ∈ ["greedy"; "exhaustive"; "genetic"] →
  (method = "genetic" → nul_free pool) →
  match (calculate_next_n_symptoms ds current n method denied_symptoms g).1 with
  | Ok proposal => proposal = pool
  | Err e => (n = Z.of_nat (size pool)) ∧ scoring_error ds e
  end.
Proof.
  intros pool Hne Hn Hfits Hmethod Hnul. unfold calculate_next_n_symptoms. fold pool.
  destruct (Z.of_nat (size pool) <? n)%Z eqn:Hsmall; [done|].
  apply Z.ltb_ge in Hsmall. assert (n = Z.of_nat (size pool)) as Hsize by lia.
  assert (1 ≤ n)%Z as Hpos.
  { assert (size pool ≠ 0%nat); [|lia]. rewrite size_non_empty_iff.
    by intros ?%leibniz_equiv. }
  set (denied := match denied_symptoms with None => ∅ | Some denied => denied end).
  assert (∀ r : result (gset string),
    res_post (scoring_error ds) r
      (fun proposal => proposal ⊆ pool ∧ size proposal = Z.to_nat n) →
    match r with
    | Ok proposal => proposal = pool
    | Err e => (n = Z.of_nat (size pool)) ∧ scoring_error ds e
    end) as Hshape.
  { intros [proposal|e]; simpl; [|done]. intros [Hsub Hlen].
    apply set_subseteq_size_eq; [done|]. lia. }
  apply Hshape.
  destruct (decide (method = "greedy")) as [->|Hg].
  { apply greedy_selection_post. lia. }
  destruct (decide (method = "exhaustive")) as [->|He].
  { assert (1 ≤ n ≤ Z.of_nat (size (all_symptoms ds ∖ current)))%Z as Hrange
      by (fold pool; lia).
    assert (n ≤ sys_maxsize)%Z as Hmax by lia.
    pose proof (exhaustive_search_result ds current denied n Hrange Hmax) as Hres.
    unfold pure_result. simpl.
    destruct (_exhaustive_search _ _ _ _ _ _) as [proposal|e]; simpl in *; [|done].
    by destruct Hres as (? & ? & ? & ? & _ & _ & _ & ? & ? & _). }
  destruct (decide (method = "genetic")) as [->|Hgen].
  { assert (0 ≤ n ≤ Z.of_nat (size (all_symptoms ds ∖ current)))%Z as Hrange
      by (fold pool; lia).
    assert (n ≤ sys_maxsize)%Z as Hmax by lia.
    exact (genetic_algorithm_post (scoring_error ds) ds (fun e He => He)
             current denied n Hrange Hmax (or_introl Hpos) (or_introl (Hnul eq_refl)) g). }
  exfalso. repeat (apply elem_of_cons in Hmethod as [?|Hmethod]; [done|]).
  by apply elem_of_nil in Hmethod.
Qed.

Lemma combinations_1 {A} (l : list A) : combinations l 1 = map (fun x => [x]) l.
Proof.
  induction l as [|x l IH]; [done|].
  cbn [combinations]. by rewrite combinations_0, IH.
Qed.

(** The exhaustive search for one symptom in a pool without denied
    symptoms whose sorted order is known. *)
Lemma exhaustive_search_single ds current denied (first : string) (rest : list string) :
  denied ## all_symptoms ds ∖ current →
  sorted_by_key_desc (symptom_score ds current (_get_candidate_diseases ds current) denied)
    (set_order available_symptoms_object (all_symptoms ds ∖ current)) = Ok (first :: rest) →
  _exhaustive_search ds current (_get_candidate_diseases ds current)
    (all_symptoms ds ∖ current) 1 denied = Ok {[first]}.
Proof.
  set (pool := all_symptoms ds ∖ current). set (cands := _get_candidate_diseases ds current).
  intros Hdenied Hsorted.
  unfold _exhaustive_search. rewrite Hsorted. unfold_result.
  unfold py_combinations. pose proof sys_maxsize_pos as Hmaxpos.
  rewrite ssize_overflow_false by lia. change (1 <? 0)%Z with false. cbv iota.
  change (Z.to_nat 1) with 1%nat. rewrite combinations_1.
  pose proof (sorted_by_key_desc_inv (symptom_score ds current cands denied)
                (set_order available_symptoms_object pool)) as Hsort.
  rewrite Hsorted in Hsort. destruct Hsort as [Hperm _].
  destruct (sorted_by_key_desc_keys _ _ _ Hsorted) as (keyed & Hkeyed & Hdesc & Hkeys).
  assert (Forall (fun kx => kx.2 ∉ denied) keyed) as Hfree.
  { apply Forall_forall. intros kx Hkx.
    assert (kx.2 ∈ pool) as Hin; [|set_solver].
    apply (elem_of_set_order _ available_symptoms_object).
    rewrite <-Hperm, Hkeyed. by apply list_elem_of_fmap_2. }
  set (scored := map (fun kx : Q * string =>
                        (float_sub kx.1 (float_mul (py_float 0) (literal (2 # 10))), [kx.2]))
                     keyed).
  assert (map (fun x => [x]) (first :: rest) = scored.*2) as ->.
  { rewrite Hkeyed. subst scored. clear. induction keyed as [|kx keyed IH]; [done|].
    simpl. f_equal. exact IH. }
  assert (Forall (fun sx => exhaustive_score ds current cands denied sx.2 = Ok sx.1) scored)
    as Hscored.
  { subst scored. apply Forall_fmap. apply Forall_forall. intros [k x] Hkx. simpl.
    pose proof (proj1 (Forall_forall _ _) Hkeys _ Hkx) as Hk.
    pose proof (proj1 (Forall_forall _ _) Hfree _ Hkx) as Hx. simpl in Hk, Hx.
    unfold symptom_score, _calculate_symptom_importance in Hk.
    unfold exhaustive_score.
    replace (list_to_set [x] : gset string) with ({[x]} : gset string)
      by (simpl; by rewrite union_empty_r_L).
    destruct (_calculate_combined_score ds (current ∪ {[x]}) cands) as [score|]; [|done].
    unfold_result. rewrite decide_False in Hk by done. injection Hk as ->.
    by rewrite filter_cons_False. }
  unfold exhaustive_best.
  rewrite (search_loop_scored (exhaustive_score ds current cands denied) scored Hscored).
  subst scored.
  destruct keyed as [|[k x] keyed]; [done|]. injection Hkeyed as -> _.
  rewrite fmap_cons. cbn [fst snd].
  rewrite best_of_head.
  - rewrite decide_False by done. simpl. by rewrite union_empty_r_L.
  - apply StronglySorted_inv in Hdesc as [_ Hle].
    apply Forall_fmap. eapply Forall_impl; [exact Hle|].
    intros [k' x'] Hk'. unfold desc in Hk'. simpl in *.
    unfold float_sub. apply rnd_mono. lra.
Qed.

(** X12: asked for one symptom from a pool that holds no denied symptom,
    the exhaustive search and the greedy selection return the same
    result: the first symptom of the pool sorted by importance, or the
    exception that sorting raised. *)
Theorem single_symptom_methods_agree ds current denied :
  let pool := all_symptoms ds ∖ current in
  let candidate_diseases := _get_candidate_diseases ds current in
  pool ≠ ∅ → denied ## pool →
  _exhaustive_search ds current candidate_diseases pool 1 denied =
  _greedy_selection ds current candidate_diseases pool 1 denied.
Proof.
  intros pool cands Hne Hdenied.
  destruct (sorted_by_key_desc (symptom_score ds current cands denied) (set_order available_symptoms_object pool))
    as [sorted|e] eqn:Hsorted; cycle 1.
  { unfold _exhaustive_search, _greedy_selection. by rewrite Hsorted. }
  destruct (greedy_selection_single ds current denied sorted Hne Hsorted)
    as (first & rest & -> & Hgreedy).
  fold pool cands in Hgreedy. rewrite Hgreedy.
  exact (exhaustive_search_single ds current denied first rest Hdenied Hsorted).
Qed.

Lemma candidate_diseases_nothing_confirmed ds : _get_candidate_diseases ds ∅ = [].
Proof.
  unfold _get_candidate_diseases, catalog. induction ds as [|p l IH]; [done|].
  rewrite filter_cons_False; [done|]. set_solver.
Qed.

(** The double every single symptom scores when nothing is confirmed:
    [0.4 * 0 + 0.4 * 0 + 0.2 * 1.0]. *)
Definition first_question_score : Q :=
  float_add (float_add (float_mul (literal (4 # 10)) 0) (float_mul (literal (4 # 10)) 0))
            (float_mul (literal (2 # 10)) 1).

(** With nothing confirmed there are no candidates, and a single symptom
    scores the same whatever it is. *)
Lemma symptom_score_nothing_confirmed ds (symptom : string) :
  symptom_score ds ∅ (_get_candidate_diseases ds ∅) ∅ symptom = Ok first_question_score.
Proof.
  unfold symptom_score, _calculate_symptom_importance, _calculate_combined_score.
  rewrite candidate_diseases_nothing_confirmed.
  unfold _calculate_total_information_gain, _calculate_coverage_score,
    _calculate_independence_score.
  destruct (decide (length (@nil (string * gset string)) = 0%nat)) as [_|?]; [|done].
  cbn [foldl]. unfold_result.
  destruct (decide (@nil (string * gset string) = [])) as [_|?]; [|done].
  destruct (decide (size (∅ ∪ {[symptom]} : gset string) ≤ 1)%nat) as [_|Hsize]; cycle 1.
  { exfalso. apply Hsize. rewrite union_empty_l_L, size_singleton. lia. }
  destruct (decide (symptom ∈ (∅ : gset string))) as [Hin|_]; [|done].
  by apply not_elem_of_empty in Hin.
Qed.

(** X13: the first question.  With nothing confirmed and nothing denied
    no disease is a candidate, the information gain and the coverage are
    0, and the combined score of any set is the double [0.2 * i] for its
    independence score [i] (the same exception if that raises).  Every
    single symptom then scores the same, so asked for one symptom the
    greedy and the exhaustive method both return the symptom that
    iterating the pool yields first: the pool is the set object
    [all_symptoms - current_symptoms] the call builds, and its order need
    not be that of [all_symptoms]. *)
Theorem first_question_by_set_order ds (symptoms : gset string) method (g : G) :
  all_symptoms ds ≠ ∅ → method ∈ ["greedy"; "exhaustive"] →
  match _calculate_independence_score ds symptoms,
        _calculate_combined_score ds symptoms (_get_candidate_diseases ds ∅) with
  | Ok independence_score, Ok score =>
      (score == float_mul (literal (2 # 10)) independence_score)%Q
  | Err e, Err e' => e = e'
  | _, _ => False
  end ∧
  ∃ first rest,
    set_order available_symptoms_object (all_symptoms ds ∖ ∅) = first :: rest ∧
    calculate_next_n_symptoms ds ∅ 1 method None g = (Ok {[first]}, g).
Proof.
  intros Hne Hmethod. split.
  { unfold _calculate_combined_score.
    rewrite candidate_diseases_nothing_confirmed.
    unfold _calculate_total_information_gain, _calculate_coverage_score.
    destruct (decide (length (@nil (string * gset string)) = 0%nat)) as [_|?]; [|done].
    cbn [foldl]. unfold_result.
    destruct (_calculate_independence_score ds symptoms) as [ind|e]; [|done].
    simpl.
    unfold float_add, float_mul.
    assert (literal (4 # 10) * 0 == 0)%Q as -> by ring.
    rewrite rnd_0. assert (0 + 0 == 0)%Q as -> by ring. rewrite rnd_0.
    rewrite Qplus_0_l. apply rnd_idem. }
  set (pool := all_symptoms ds ∖ ∅).
  assert (pool ≠ ∅) as Hpool by (subst pool; by rewrite difference_empty_L).
  assert (sorted_by_key_desc (symptom_score ds ∅ (_get_candidate_diseases ds ∅) ∅)
            (set_order available_symptoms_object pool) = Ok (set_order available_symptoms_object pool)) as Hsorted.
  { unfold sorted_by_key_desc.
    set (c := first_question_score).
    assert (∀ l : list string,
      mapM (fun x => k ← symptom_score ds ∅ (_get_candidate_diseases ds ∅) ∅ x; mret (k, x)) l
      = Ok (map (fun x => (c, x)) l)) as ->.
    { induction l as [|x l IH]; [done|]. cbn [mapM].
      rewrite symptom_score_nothing_confirmed, IH. done. }
    unfold_result. rewrite sort_desc_sorted_id.
    - f_equal. generalize (set_order available_symptoms_object pool). intros l.
      induction l as [|x l IH]; [done|]. simpl. f_equal. exact IH.
    - generalize (set_order available_symptoms_object pool). intros l.
      induction l as [|x l IH]; simpl; constructor; [done|].
      apply Forall_fmap, Forall_true. intros y. unfold desc. simpl. apply Qle_refl. }
  destruct (set_order available_symptoms_object pool) as [|first rest] eqn:Horder.
  { by apply set_order_nil in Horder. }
  exists first, rest. split; [done|].
  unfold calculate_next_n_symptoms. fold pool.
  assert (1 ≤ Z.of_nat (size pool))%Z as Hsize.
  { assert (size pool ≠ 0%nat); [|lia]. rewrite size_non_empty_iff.
    by intros ?%leibniz_equiv. }
  rewrite (proj2 (Z.ltb_ge _ _) Hsize). rewrite <-Horder in Hsorted.
  destruct (decide (method = "greedy")) as [->|Hg].
  { assert (sorted_by_key_desc (symptom_score ds ∅ (_get_candidate_diseases ds ∅) ∅)
              (set_order available_symptoms_object (all_symptoms ds ∖ ∅)) = Ok (first :: rest)) as Hsorted'
      by (fold pool; by rewrite Hsorted, Horder).
    destruct (greedy_selection_single ds ∅ ∅ (first :: rest) Hpool Hsorted')
      as (first' & rest' & Heq & Hgreedy).
    injection Heq as <- _. fold pool in Hgreedy. unfold pure_result. by rewrite Hgreedy. }
  destruct (decide (method = "exhaustive")) as [->|He].
  { unfold pure_result. f_equal.
    apply (exhaustive_search_single ds ∅ ∅ first rest); [set_solver|].
    fold pool. by rewrite Hsorted, Horder. }
  exfalso. repeat (apply elem_of_cons in Hmethod as [?|Hmethod]; [done|]).
  by apply elem_of_nil in Hmethod.
Qed.
End MethodsCompared.

Section GeneticOperators.
Context `{RT : PyRuntime} {G : Type} `{RNG : !NumpyRandom G}.
Implicit Types (ds : catalog) (current denied pool individual : gset string)
  (population : list (gset string)).

(** Reading a list at indices that are all in range. *)
Lemma mapM_py_index_lookup {A} (l : list A) (idx : list nat) :
  Forall (fun i => (i < length l)%nat) idx →
  ∃ r, mapM (py_index l) idx = Ok r ∧ Forall2 (fun i x => l !! i = Some x) idx r.
Proof.
  induction 1 as [|i idx Hi _ (r & Hr & Hall)]; [by exists []|].
  destruct (lookup_lt_is_Some_2 l i Hi) as [x Hx].
  assert (py_index l i = Ok x) as Hpi by (unfold py_index; by rewrite Hx).
  exists (x :: r). cbn [mapM]. rewrite Hpi, Hr. split; [done|].
  by constructor.
Qed.

(** [np.argmax] of a non-empty list: the first position of a largest entry. *)
Lemma np_argmax_first_max (l : list Q) :
  l ≠ [] →
  ∃ i s, np_argmax l = Ok i ∧ l !! i = Some s ∧
         (∀ j sj, l !! j = Some sj → (sj <= s)%Q) ∧
         (∀ j sj, (j < i)%nat → l !! j = Some sj → (sj < s)%Q).
Proof.
  intros Hl. unfold np_argmax.
  pose proof (best_of_first_max (imap (fun i x => (x, i)) l)) as Hbest.
  destruct (best_of _) as [[s i]|]; simpl in *.
  - destruct Hbest as (j & Hj & Hmax & Hfirst).
    rewrite list_lookup_imap in Hj.
    destruct (l !! j) as [sj|] eqn:Hlj; simpl in Hj; [|done].
    injection Hj as Hs Hi. subst s i.
    exists j, sj. split; [done|]. split; [done|]. split.
    + intros j' sj' Hj'. apply (Hmax j' sj' j'). by rewrite list_lookup_imap, Hj'.
    + intros j' sj' Hlt Hj'. apply (Hfirst j' sj' j' Hlt). by rewrite list_lookup_imap, Hj'.
  - destruct l; [done|]. discriminate.
Qed.

(** X14: a tournament never raises on a non-empty population with one
    fitness per individual: it draws [tournament_size] indices once and
    returns the individual at one of them whose fitness no other drawn
    index exceeds. *)
Theorem tournament_select_winner population (fitness_scores : list Q)
    (tournament_size : nat) (g : G) :
  population ≠ [] → length fitness_scores = length population →
  (0 < tournament_size)%nat →
  let draw := random_indices (length population) tournament_size g in
  ∃ winner_idx parent best,
    _tournament_select population fitness_scores tournament_size g = (Ok parent, draw.2) ∧
    winner_idx ∈ draw.1 ∧
    population !! winner_idx = Some parent ∧
    fitness_scores !! winner_idx = Some best ∧
    ∀ i, i ∈ draw.1 → ∃ f, fitness_scores !! i = Some f ∧ (f <= best)%Q.
Proof.
  intros Hpop Hlen Hsize draw. subst draw.
  assert (0 < length population)%nat as Hpos by (destruct population; [done|simpl; lia]).
  unfold _tournament_select, random_choice_range.
  rewrite decide_False by lia. unfold mbind, rand_bind, pure_result.
  pose proof (random_indices_length (length population) tournament_size g) as Hilen.
  pose proof (random_indices_lt (length population) tournament_size g Hpos) as Hidx.
  destruct (random_indices (length population) tournament_size g) as [indices g'].
  simpl in Hilen, Hidx. cbn [fst snd].
  destruct (mapM_py_index_lookup fitness_scores indices) as (tf & Htf & Htf2).
  { by rewrite Hlen. }
  destruct (np_argmax_first_max tf) as (w & s & Hw & Hws & Hmax & _).
  { apply Forall2_length in Htf2. destruct tf; simpl in *; [lia|done]. }
  destruct (Forall2_lookup_r _ _ _ _ _ Htf2 Hws) as (winner_idx & Hwi & Hfw).
  assert (winner_idx < length population)%nat as Hlt.
  { eapply (proj1 (Forall_forall _ _) Hidx). by eapply list_elem_of_lookup_2. }
  destruct (lookup_lt_is_Some_2 population winner_idx Hlt) as [parent Hparent].
  exists winner_idx, parent, s.
  split; [|split; [by eapply list_elem_of_lookup_2|split; [done|split; [done|]]]].
  - rewrite Htf, Hw. unfold py_index.
    by rewrite Hwi, Hparent.
  - intros i [k Hk]%list_elem_of_lookup.
    destruct (Forall2_lookup_l _ _ _ _ _ Htf2 Hk) as (f & Hf & Hfi).
    exists f. split; [done|]. by eapply Hmax.
Qed.

(** [np.random.choice] on a non-empty list returns the item numpy
    makes of one of its entries. *)
Lemma random_choice_Ok (a : list string) (g : G) :
  a ≠ [] →
  ∃ x, random_choice a g = (Ok (np_str x), (random_index (length a) g).2) ∧ x ∈ a.
Proof.
  intros Ha. unfold random_choice. rewrite decide_False by done.
  pose proof (random_index_lt (length a) g) as Hlt.
  destruct (random_index (length a) g) as [i g']. simpl in *.
  destruct (lookup_lt_is_Some_2 a i) as [x Hx].
  { apply Hlt. destruct a; [done|simpl; lia]. }
  exists x. unfold py_index. rewrite Hx. split; [done|]. by eapply list_elem_of_lookup_2.
Qed.

(** X15: the cases of [_mutate].  One float is always drawn.  If it is
    not below the mutation rate (as always for a rate of at most 0), or
    if the individual already holds every available symptom, the
    individual comes back unchanged.  Otherwise, on an empty individual
    the draw of the symptom to replace raises [ValueError]; on any other,
    a symptom [old] of the individual and an available symptom [new] it
    does not hold are drawn, as the items [np_str old] and [np_str new]
    numpy makes of them; [individual.remove] raises [KeyError] when the
    item [np_str old] is not in the individual, and else [np_str new]
    takes its place.  When numpy hands both names back as they are, the
    size is kept.  A rate of at least 1 always fires. *)
Theorem mutate_cases individual available_symptoms (mutation_rate : Q) (g : G) :
  let draw := random_float g in
  let mutated := _mutate individual available_symptoms mutation_rate g in
  ((mutation_rate <= draw.1)%Q ∨ available_symptoms ⊆ individual →
     mutated = (Ok individual, draw.2)) ∧
  ((mutation_rate <= 0)%Q → mutated = (Ok individual, draw.2)) ∧
  ((1 <= mutation_rate)%Q → (draw.1 < mutation_rate)%Q) ∧
  ((draw.1 < mutation_rate)%Q → ¬ available_symptoms ⊆ individual →
     if decide (individual = ∅) then
       mutated.1 = Err (ValueError "'a' cannot be empty unless no samples are taken")
     else
       ∃ old new,
         old ∈ individual ∧ new ∈ available_symptoms ∖ individual ∧
         mutated.1 = (if decide (np_str old ∈ individual)
                      then Ok (individual ∖ {[np_str old]} ∪ {[np_str new]})
                      else Err (KeyError (np_str old))) ∧
         (np_str old = old → np_str new = new →
            size (individual ∖ {[np_str old]} ∪ {[np_str new]}) = size individual)).
Proof.
  intros draw mutated. subst draw mutated.
  pose proof (random_float_range g) as [Hlo Hhi].
  assert ((mutation_rate <= (random_float g).1)%Q ∨ available_symptoms ⊆ individual →
          _mutate individual available_symptoms mutation_rate g
          = (Ok individual, (random_float g).2)) as Hsame.
  { intros Hcase. unfold _mutate, np_random_random, mbind, rand_bind.
    destruct (random_float g) as [r g']. simpl in *.
    destruct (Qltb r mutation_rate) eqn:Hlt; [|done].
    apply Qltb_lt in Hlt. destruct Hcase as [Hle|Hsub].
    - exfalso. eapply Qlt_irrefl, Qlt_le_trans; [exact Hlt|exact Hle].
    - rewrite decide_True; [done|]. apply set_order_nil. set_solver. }
  split; [done|]. split.
  { intros Hrate. apply Hsame. left. eapply Qle_trans; [exact Hrate|exact Hlo]. }
  split.
  { intros Hrate. eapply Qlt_le_trans; [exact Hhi|exact Hrate]. }
  intros Hlt Hav.
  assert (set_order available_object (available_symptoms ∖ individual) ≠ []) as Hrem.
  { intros Hnil. apply set_order_nil in Hnil. apply Hav. intros x Hx.
    destruct (decide (x ∈ individual)) as [|Hni]; [done|].
    assert (x ∈ available_symptoms ∖ individual) as Hin by by apply elem_of_difference.
    rewrite Hnil in Hin. by apply not_elem_of_empty in Hin. }
  unfold _mutate, np_random_random, mbind, rand_bind.
  destruct (random_float g) as [r g']. simpl in *.
  rewrite (proj2 (Qltb_lt _ _) Hlt).
  destruct (decide (set_order available_object (available_symptoms ∖ individual) = []))
    as [|_]; [done|].
  destruct (decide (individual = ∅)) as [->|Hne].
  - unfold random_choice. rewrite decide_True; [done|]. by apply set_order_nil.
  - destruct (random_choice_Ok (set_order individual_object individual) g')
      as (old & -> & Hold).
    { by rewrite set_order_nil. }
    destruct (random_choice_Ok (set_order available_object (available_symptoms ∖ individual))
                (random_index (length (set_order individual_object individual)) g').2)
      as (new & -> & Hnew); [done|].
    apply elem_of_set_order in Hold, Hnew.
    exists old, new. split; [done|]. split; [done|]. split.
    + by destruct (decide (np_str old ∈ individual)).
    + intros -> ->. apply size_replace; set_solver.
Qed.

(** X16: [_crossover] on any two parents and any [n].  It never raises
    and returns the same set twice, a subset of the parents' union.  If
    the union has more than [n] symptoms it is shuffled once and cut
    with the slice [combined[:n]], which for a negative [n] drops the
    last [-n] entries.  Otherwise the child is the whole union, nothing
    is drawn, and the child has fewer than [n] symptoms when the union
    has: the fill loop finds no remaining symptom to add. *)
Theorem crossover_any_parents (parent1 parent2 : gset string) (n : Z) (g : G) :
  let union := parent1 ∪ parent2 in
  ∃ child g', _crossover parent1 parent2 n g = (Ok (child, child), g') ∧
    child ⊆ union ∧
    if (n <? Z.of_nat (size union))%Z then
      g' = (random_permutation (size union) g).2 ∧
      size child = (if (n <? 0)%Z then size union - Z.to_nat (- n) else Z.to_nat n)%nat
    else child = union ∧ g' = g.
Proof.
  intros union. subst union. unfold _crossover.
  rewrite length_set_order.
  destruct (n <? Z.of_nat (size (parent1 ∪ parent2)))%Z eqn:Hlt.
  - apply Z.ltb_lt in Hlt. unfold random_shuffle, mbind, rand_bind.
    rewrite length_set_order.
    pose proof (random_permutation_perm (size (parent1 ∪ parent2)) g) as Hperm.
    destruct (random_permutation (size (parent1 ∪ parent2)) g) as [perm g']. simpl in Hperm.
    destruct (mapM_py_index_perm (set_order parents_object (parent1 ∪ parent2)) perm) as (r & -> & Hr).
    { by rewrite length_set_order. }
    cbn [mret rand_ret fst snd].
    assert (NoDup (py_slice_to r n) ∧ (∀ x, x ∈ py_slice_to r n → x ∈ parent1 ∪ parent2) ∧
            length (py_slice_to r n)
            = (if (n <? 0)%Z then size (parent1 ∪ parent2) - Z.to_nat (- n)
               else Z.to_nat n)%nat) as (Hnd & Hsub & Hlen).
    { assert (length r = size (parent1 ∪ parent2)) as Hrlen
        by by rewrite Hr, length_set_order.
      unfold py_slice_to. split; [|split].
      - destruct (n <? 0)%Z; (eapply sublist_NoDup; [|apply sublist_take]);
          rewrite Hr; apply set_order_NoDup.
      - intros x Hx. apply (elem_of_set_order _ parents_object). rewrite <-Hr.
        destruct (n <? 0)%Z; by apply subseteq_take in Hx.
      - destruct (n <? 0)%Z eqn:Hneg; rewrite length_take, Hrlen; [lia|].
        apply Z.ltb_ge in Hneg. lia. }
    replace (Z.to_nat (n - Z.of_nat (length (py_slice_to r n)))) with 0%nat; cycle 1.
    { rewrite Hlen. destruct (n <? 0)%Z eqn:Hneg; [apply Z.ltb_lt in Hneg|]; lia. }
    cbn [crossover_fill mret rand_ret].
    eexists _, _. split; [done|]. split.
    + intros x Hx%elem_of_list_to_set. by apply Hsub.
    + split; [done|]. by rewrite size_list_to_set.
  - apply Z.ltb_ge in Hlt. unfold mbind, rand_bind. cbn [mret rand_ret].
    assert (crossover_fill
              (Z.to_nat (n - Z.of_nat (length (set_order parents_object (parent1 ∪ parent2)))))
              (parent1 ∪ parent2) n (set_order parents_object (parent1 ∪ parent2)) g
            = (Ok (set_order parents_object (parent1 ∪ parent2)), g)) as ->.
    { destruct (Z.to_nat _) as [|rounds]; [done|]. cbn [crossover_fill].
      destruct (_ <? n)%Z; [|done].
      rewrite decide_True; [done|]. rewrite list_to_set_set_order. set_solver. }
    exists (parent1 ∪ parent2), g. rewrite list_to_set_set_order. done.
Qed.

(** What [_local_search] has found so far: the best individual and its
    combined score, either the individual it was given or one swap of it
    that scores strictly higher. *)
Definition local_search_inv ds current individual (state : Q * gset string) : Prop :=
  let cands := _get_candidate_diseases ds current in
  ∃ score,
    _calculate_combined_score ds (current ∪ individual) cands = Ok score ∧
    _calculate_combined_score ds (current ∪ state.2) cands = Ok state.1 ∧
    (state.2 = individual ∨
     (score < state.1)%Q ∧
     ∃ symptom new_symptom,
       symptom ∈ individual ∧ new_symptom ∈ all_symptoms ds ∖ current ∖ individual ∧
       state.2 = individual ∖ {[symptom]} ∪ {[np_str new_symptom]}).

Lemma combined_score_self ds current (symptoms : gset string) :
  res_post (scoring_error ds)
    (_calculate_combined_score ds symptoms (_get_candidate_diseases ds current))
    (fun score => _calculate_combined_score ds symptoms (_get_candidate_diseases ds current)
                  = Ok score).
Proof.
  destruct (_calculate_combined_score ds symptoms _) as [score|e] eqn:Hs; simpl; [done|].
  by eapply combined_score_raises.
Qed.

Lemma local_search_loop ds current individual :
  rand_post (scoring_error ds)
    (_local_search ds individual current (_get_candidate_diseases ds current))
    (fun best => ∃ best_score, local_search_inv ds current individual (best_score, best)).
Proof.
  unfold _local_search.
  eapply (rand_post_bind _ _ _
    (fun score => _calculate_combined_score ds (current ∪ individual)
                    (_get_candidate_diseases ds current) = Ok score)).
  { apply rand_post_pure, combined_score_self. }
  intros score Hscore.
  eapply (rand_post_bind _ _ _ (local_search_inv ds current individual)).
  - apply rand_post_foldlM.
    { exists score. split; [done|]. split; [done|]. by left. }
    intros [best_score best] symptom Hsym%elem_of_set_order Hinv.
    destruct (decide (all_symptoms ds ∖ current ∖ individual = ∅)) as [|Hrem];
      [by apply rand_post_ret|].
    eapply rand_post_bind.
    { apply random_choice_post. by rewrite set_order_nil. }
    intros new_symptom (new0 & Hnew%elem_of_set_order & ->).
    eapply (rand_post_bind _ _ _
      (fun score' => _calculate_combined_score ds
                       (current ∪ (individual ∖ {[symptom]} ∪ {[np_str new0]}))
                       (_get_candidate_diseases ds current) = Ok score')).
    { apply rand_post_pure, combined_score_self. }
    intros score' Hscore'.
    destruct (Qltb best_score score') eqn:Hlt; apply rand_post_ret; [|done].
    apply Qltb_lt in Hlt. destruct Hinv as (score0 & Hs0 & Hbest & Hcase). simpl in *.
    exists score0. split; [done|]. split; [done|]. right. split; [|by eauto].
    destruct Hcase as [->|[Hlt0 _]].
    + rewrite Hs0 in Hbest. by injection Hbest as ->.
    + by eapply Qlt_trans.
  - intros [best_score best] Hinv. apply rand_post_ret. by exists best_score.
Qed.

(** X17: the local search never lowers the combined score.  It returns
    the individual it was given or one swap of it whose combined score
    with the confirmed symptoms is strictly higher: a symptom of the
    individual is taken out and the item [np_str new_symptom] that numpy
    makes of an unconfirmed symptom outside the individual is put in.
    The result is no larger than the individual, and of the same size
    when numpy hands the name back as it is.  When there is no symptom
    to swap in, it returns the individual and draws nothing. *)
Theorem local_search_improves ds current individual (g : G) :
  let cands := _get_candidate_diseases ds current in
  let remaining := all_symptoms ds ∖ current ∖ individual in
  match (_local_search ds individual current cands g).1 with
  | Ok best =>
      ∃ score best_score,
        _calculate_combined_score ds (current ∪ individual) cands = Ok score ∧
        _calculate_combined_score ds (current ∪ best) cands = Ok best_score ∧
        (score <= best_score)%Q ∧ (size best ≤ size individual)%nat ∧
        (best = individual ∨
         (score < best_score)%Q ∧
         ∃ symptom new_symptom,
           symptom ∈ individual ∧ new_symptom ∈ remaining ∧
           best = individual ∖ {[symptom]} ∪ {[np_str new_symptom]} ∧
           (np_str new_symptom = new_symptom → size best = size individual))
  | Err e => scoring_error ds e
  end ∧
  (remaining = ∅ →
   _local_search ds individual current cands g =
   (_ ← _calculate_combined_score ds (current ∪ individual) cands; Ok individual, g)).
Proof.
  intros cands remaining. subst cands remaining. split.
  - pose proof (local_search_loop ds current individual g) as Hpost.
    destruct (_local_search _ _ _ _ g).1 as [best|e]; simpl in *; [|done].
    destruct Hpost as (best_score & score & Hs & Hb & Hcase). simpl in *.
    exists score, best_score. split; [done|]. split; [done|].
    destruct Hcase as [->|(Hlt & symptom & new_symptom & Hsym & Hnew & ->)].
    + rewrite Hs in Hb. injection Hb as ->. split; [apply Qle_refl|]. split; [done|by left].
    + split; [by apply Qlt_le_weak|]. split.
      { rewrite size_union_alt, size_difference by set_solver.
        rewrite size_singleton.
        assert (size ({[np_str new_symptom]} ∖ (individual ∖ {[symptom]})) ≤ 1)%nat.
        { rewrite <-(size_singleton (C := gset string) (np_str new_symptom)).
          apply subseteq_size. set_solver. }
        assert (size individual ≠ 0%nat); [|lia].
        apply size_non_empty_iff. set_solver. }
      right. split; [done|]. exists symptom, new_symptom.
      split; [done|]. split; [done|]. split; [done|].
      intros ->. apply size_replace; set_solver.
  - intros Hrem. unfold _local_search, mbind at 1, rand_bind, pure_result.
    destruct (_calculate_combined_score _ _ _) as [score|e]; [|done].
    unfold_result.
    assert (∀ l state,
      foldlM (fun '(best_score, best_individual) symptom =>
                let new_individual := individual ∖ {[symptom]} in
                let remaining_symptoms := all_symptoms ds ∖ current ∖ individual in
                if decide (remaining_symptoms = ∅) then mret (best_score, best_individual)
                else
                  new_symptom ← random_choice (set_order remaining_symptoms_object remaining_symptoms);
                  let new_individual := new_individual ∪ {[new_symptom]} in
                  score ← pure_result
                    (_calculate_combined_score ds (current ∪ new_individual)
                       (_get_candidate_diseases ds current));
                  if Qltb best_score score then mret (score, new_individual)
                  else mret (best_score, best_individual))
             state l g = (Ok state, g)) as Hloop.
    { induction l as [|symptom l IH]; intros [best_score best]; [done|].
      cbn [foldlM]. cbv zeta. rewrite decide_True by done.
      unfold mbind, rand_bind, mret, rand_ret. apply IH. }
    unfold mbind, rand_bind. by rewrite Hloop.
Qed.
End GeneticOperators.

Section GeneticSchedule.
Context `{RT : PyRuntime} {G : Type} `{RNG : !NumpyRandom G}.
Implicit Types (ds : catalog) (current denied pool individual : gset string)
  (population : list (gset string)).

Lemma res_post_any {A} (r : result A) : res_post (fun _ => True) r (fun _ => True).
Proof. by destruct r. Qed.

Lemma rand_post_any {A} (m : rand G A) : rand_post (fun _ => True) m (fun _ => True).
Proof. intros g. apply res_post_any. Qed.

Lemma rand_post_and {A} (E : exn → Prop) (m : rand G A) (P Q : A → Prop) :
  rand_post E m P → rand_post (fun _ => True) m Q → rand_post E m (fun a => P a ∧ Q a).
Proof.
  intros HP HQ g. specialize (HP g). specialize (HQ g).
  by destruct (m g).1.
Qed.

(** A [for _ in range(k)] loop with an invariant that counts the rounds. *)
Lemma rand_post_repeatM_count {S} (E : exn → Prop) (k : nat) (body : S → rand G S)
    (I : nat → S → Prop) (s : S) :
  I 0%nat s →
  (∀ i s, (i < k)%nat → I i s → rand_post E (body s) (I (Datatypes.S i))) →
  rand_post E (repeatM k body s) (I k).
Proof.
  revert I s. induction k as [|k IH]; intros I s H0 Hbody; simpl.
  - by apply rand_post_ret.
  - eapply rand_post_bind; [apply (Hbody 0%nat); [lia|done]|].
    intros s' Hs'. apply (IH (fun i => I (Datatypes.S i))); [done|].
    intros i s'' Hi. apply Hbody. lia.
Qed.

(** The number of individuals after one generation, and the next
    mutation rate. *)
Lemma generation_size ds current (candidate_diseases : catalog) pool (n : Z) denied
    population (mutation_rate : Q) :
  rand_post (fun _ => True)
    (generation ds current candidate_diseases pool n denied (population, mutation_rate))
    (fun state =>
       length state.1 = (elite_size `min` length population
                         + 2 * ((population_size - elite_size) / 2))%nat ∧
       state.2 = (if Qltb (literal (1 # 100)) (float_mul mutation_rate (literal (95 # 100)))
                  then float_mul mutation_rate (literal (95 # 100))
                  else literal (1 # 100))).
Proof.
  unfold generation.
  eapply (rand_post_bind _ _ _ (fun fitness_scores =>
            length fitness_scores = length population)).
  { apply rand_post_pure. eapply res_post_mono.
    - apply (res_post_mapM _ _ _ (fun _ _ => True)). intros. apply res_post_any.
    - intros fitness_scores Hlen%Forall2_length. done. }
  intros fitness_scores Hlen.
  pose proof (argsort_perm fitness_scores) as Horder.
  set (order := argsort fitness_scores) in *.
  assert (length order = length population) as Holen
    by by rewrite Horder, length_seq.
  eapply (rand_post_bind _ _ _ (fun elite_individuals =>
            length elite_individuals = (elite_size `min` length population)%nat)).
  { apply rand_post_pure. eapply res_post_mono.
    - apply (res_post_mapM _ _ _ (fun _ _ => True)). intros. apply res_post_any.
    - intros elite Helite%Forall2_length. rewrite <-Helite, length_drop. lia. }
  intros elite_individuals Helite.
  eapply (rand_post_bind _ _ _ (fun new_population =>
            length new_population
            = (length elite_individuals + 2 * ((population_size - elite_size) / 2))%nat)).
  { apply (rand_post_repeatM_count _ _ _
      (fun i new_population =>
         length new_population = (length elite_individuals + 2 * i)%nat)); [lia|].
    intros i new_population _ Hnew. unfold breed.
    eapply rand_post_bind; [apply rand_post_any|]. intros parent1 _.
    eapply rand_post_bind; [apply rand_post_any|]. intros parent2 _.
    eapply rand_post_bind; [apply rand_post_any|]. intros [child1 child2] _.
    eapply rand_post_bind; [apply rand_post_any|]. intros mutated1 _.
    eapply rand_post_bind; [apply rand_post_any|]. intros mutated2 _.
    apply rand_post_ret. rewrite length_app. simpl. lia. }
  intros new_population Hnew.
  eapply rand_post_bind.
  { apply (rand_post_mapM _ _ _ (fun _ _ => True)). intros. apply rand_post_any. }
  intros searched Hsearched%Forall2_length. apply rand_post_ret. cbn [fst snd].
  split; [lia|done].
Qed.

(** [max(0.01, mutation_rate * 0.95)] keeps the rate between the floor
    and the rate it starts from. *)
Lemma mutation_rate_bounds (mutation_rate : Q) :
  (literal (1 # 100) <= mutation_rate)%Q → (mutation_rate <= literal (1 # 10))%Q →
  let next := if Qltb (literal (1 # 100)) (float_mul mutation_rate (literal (95 # 100)))
              then float_mul mutation_rate (literal (95 # 100))
              else literal (1 # 100) in
  (literal (1 # 100) <= next)%Q ∧ (next <= literal (1 # 10))%Q.
Proof.
  intros Hlo Hhi next. subst next.
  assert (literal (1 # 100) <= literal (1 # 10))%Q as Hfloor by (apply rnd_mono; done).
  destruct (Qltb _ _) eqn:Hlt; [|split; [apply Qle_refl|done]].
  apply Qltb_lt in Hlt. split; [by apply Qlt_le_weak|].
  assert (0 <= literal (1 # 100))%Q as H0 by (apply rnd_nonneg; done).
  assert (literal (95 # 100) <= 1)%Q as H95 by (apply rnd_le_1; done).
  unfold float_mul.
  apply Qle_trans with (rnd (literal (1 # 10))); [|unfold literal; rewrite rnd_idem; apply Qle_refl].
  apply rnd_mono. eapply Qle_trans; [|exact Hhi].
  assert (0 <= mutation_rate)%Q as Hrate by by eapply Qle_trans.
  rewrite <-(Qmult_1_l mutation_rate) at 2. rewrite (Qmult_comm mutation_rate).
  by apply Qmult_le_compat_r.
Qed.

(** X18: the generations of [_genetic_algorithm], started on fifty
    individuals of [n] symptoms each from a pool none of whose names
    ends in a NUL character.  Every generation keeps the five elite and
    breeds twenty-two pairs, so from the first generation on the
    population has forty-nine individuals, each still [n] symptoms of
    the pool.  The mutation rate starts at the double [0.1] and stays
    between the floor [0.01] and [0.1]. *)
Theorem genetic_generations_schedule ds current denied (n : Z) population (k : nat) (g : G) :
  let pool := all_symptoms ds ∖ current in
  (1 ≤ n)%Z → nul_free pool → population_ok pool n population →
  length population = population_size →
  match (repeatM k (generation ds current (_get_candidate_diseases ds current)
                      pool n denied) (population, literal (1 # 10)) g).1 with
  | Ok (population', mutation_rate) =>
      population_ok pool n population' ∧
      length population' = (if decide (k = 0%nat) then 50 else 49)%nat ∧
      (literal (1 # 100) <= mutation_rate)%Q ∧ (mutation_rate <= literal (1 # 10))%Q
  | Err e => scoring_error ds e
  end.
Proof.
  intros pool Hn Hnul Hpop Hlen.
  pose proof (rand_post_repeatM_count (scoring_error ds) k
    (generation ds current (_get_candidate_diseases ds current) pool n denied)
    (fun i state =>
       population_ok pool n state.1 ∧
       length state.1 = (if decide (i = 0%nat) then 50 else 49)%nat ∧
       (literal (1 # 100) <= state.2)%Q ∧ (state.2 <= literal (1 # 10))%Q)
    (population, literal (1 # 10))) as Hloop.
  lapply Hloop; clear Hloop.
  2:{ split; [done|]. split; [done|]. simpl. split; [by apply rnd_mono|apply Qle_refl]. }
  intros Hloop. lapply Hloop; clear Hloop.
  - intros Hloop. specialize (Hloop g).
    unfold rand_post, res_post in Hloop.
    match goal with
    | |- match ?r with _ => _ end =>
        destruct r as [[population' mutation_rate]|e]; simpl in *; [|done]
    end.
    done.
  - intros i [population' mutation_rate] Hi (Hpop' & Hlen' & Hlo & Hhi). simpl in *.
    eapply rand_post_mono.
    + apply rand_post_and.
      * apply (generation_post (scoring_error ds) ds (fun e He => He)
                 current denied n population' mutation_rate); [lia|by left|by left|done].
      * apply generation_size.
    + intros [population'' mutation_rate'] (Hpop'' & Hlen'' & Hrate'). simpl in *.
      split; [done|]. split.
      * rewrite Hlen'', Hlen'. by destruct (decide (i = 0%nat)).
      * subst mutation_rate'. by apply mutation_rate_bounds.
Qed.
End GeneticSchedule.

(** * The dialogue of final.py: what one round does with the answers *)

(** The loop [for symptom in next_symptoms] of [multi_round_diagnosis]:
    an asked symptom the patient confirmed joins the confirmed set, any
    other asked symptom joins the denied set. *)
Definition record_answers `{RT : PyRuntime} (next_symptoms confirmed_symptoms : gset string)
    (current_symptoms denied_symptoms : gset string) : gset string * gset string :=
  foldl (fun '(current_symptoms, denied_symptoms) symptom =>
           if decide (symptom ∈ confirmed_symptoms)
           then (current_symptoms ∪ {[symptom]}, denied_symptoms)
           else (current_symptoms, denied_symptoms ∪ {[symptom]}))
        (current_symptoms, denied_symptoms) (set_order next_symptoms_object next_symptoms).


Section Dialogue.
Context `{RT : PyRuntime}.
Implicit Types (ds : catalog) (current denied next confirmed symptoms : gset string).

Lemma record_answers_fold (l : list string) confirmed current denied :
  foldl (fun '(current_symptoms, denied_symptoms) symptom =>
           if decide (symptom ∈ confirmed)
           then (current_symptoms ∪ {[symptom]}, denied_symptoms)
           else (current_symptoms, denied_symptoms ∪ {[symptom]}))
        (current, denied) l
  = (current ∪ list_to_set l ∩ confirmed, denied ∪ list_to_set l ∖ confirmed).
Proof.
  revert current denied. induction l as [|x l IH]; intros current denied; simpl.
  - f_equal; set_solver.
  - destruct (decide (x ∈ confirmed)); rewrite IH; f_equal; set_solver.
Qed.

(** X19: the answers of one round.  Every asked symptom is filed: the
    confirmed ones join the confirmed set and the others the denied set;
    answers about symptoms that were not asked are ignored, and nothing
    is ever removed from the denied set.  So when the asked symptoms were
    unconfirmed before, the two sets stay disjoint exactly when no
    symptom denied earlier is now confirmed. *)
Theorem record_answers_spec next confirmed current denied :
  let result := record_answers next confirmed current denied in
  result = (current ∪ next ∩ confirmed, denied ∪ next ∖ confirmed) ∧
  next ⊆ result.1 ∪ result.2 ∧
  (current ## denied → next ## current →
   (result.1 ## result.2 ↔ next ∩ confirmed ## denied)).
Proof.
  intros result. subst result. unfold record_answers.
  rewrite record_answers_fold, list_to_set_set_order. split; [done|]. simpl. split.
  - intros x Hx. destruct (decide (x ∈ confirmed)); set_solver.
  - intros Hdisj Hnext. split; intros H x; specialize (H x); set_solver.
Qed.



End Dialogue.

Section Independence.
Context `{RT : PyRuntime}.
Implicit Types (ds : catalog) (symptoms : gset string).

(** Two symptoms that no disease has together have mutual information 0. *)
Lemma mutual_information_zero ds (s1 s2 : string) :
  (∀ p, p ∈ ds → ¬ (s1 ∈ p.2 ∧ s2 ∈ p.2)) →
  _calculate_mutual_information ds s1 s2 = Ok 0%Q.
Proof.
  intros Hnone. unfold _calculate_mutual_information.
  pose proof (mutual_information_count_both s1 s2 (map snd ds) 0 0 0) as Hcount.
  cbv zeta in *.
  destruct (foldl _ (0%nat, 0%nat, 0%nat) (map snd ds)) as [[count_both count_s1] count_s2].
  simpl in Hcount. rewrite Hcount; [done|].
  intros x (p & -> & Hp)%list_elem_of_fmap. by apply Hnone.
Qed.

(** Every pair [itertools.combinations] yields from a list without
    repetition has two different entries of the list. *)
Lemma combinations_2_pairs {A} (l : list A) (pair : list A) :
  NoDup l → pair ∈ combinations l 2 →
  ∃ x y, pair = [x; y] ∧ x ∈ l ∧ y ∈ l ∧ x ≠ y.
Proof.
  intros Hnd Hpair. destruct (combinations_sublist _ _ _ Hpair) as [Hsub Hlen].
  destruct pair as [|x [|y [|? ?]]]; simpl in Hlen; try lia.
  exists x, y. split; [done|].
  pose proof (sublist_NoDup _ _ Hnd Hsub) as Hxy.
  apply NoDup_cons in Hxy as [Hx _].
  split; [|split].
  - apply (sublist_subseteq _ _ Hsub). by left.
  - apply (sublist_subseteq _ _ Hsub). right. by left.
  - intros ->. apply Hx. by left.
Qed.

(** X21: a set of symptoms no two of which occur together in a disease
    of the catalog has independence score 1: every pair has mutual
    information 0, the sum of the zeros is 0, and the score is
    [1.0 / (1.0 + 0)]. *)
Theorem independence_score_exclusive ds symptoms :
  (∀ p s1 s2, p ∈ ds → s1 ∈ symptoms → s2 ∈ symptoms → s1 ≠ s2 →
     ¬ (s1 ∈ p.2 ∧ s2 ∈ p.2)) →
  ∃ score, _calculate_independence_score ds symptoms = Ok score ∧ (score == 1)%Q.
Proof.
  intros Hexclusive. unfold _calculate_independence_score.
  destruct (decide (size symptoms ≤ 1)%nat); [by exists 1%Q|].
  assert (∀ pairs acc, (acc == 0)%Q →
    (∀ pair, pair ∈ pairs → pair ∈ combinations (set_order symptoms_object symptoms) 2) →
    ∃ total, foldl (fun acc pair =>
             mutual_info ← acc;
             match pair with
             | [s1; s2] =>
                 mi ← _calculate_mutual_information ds s1 s2;
                 mret (float_add mutual_info mi)
             | _ => mret mutual_info
             end)
          (Ok acc) pairs = Ok total ∧ (total == 0)%Q) as Hloop.
  { induction pairs as [|pair pairs IH]; intros acc Hacc Hpairs; [by exists acc|].
    cbn [foldl]. unfold_result.
    destruct (combinations_2_pairs (set_order symptoms_object symptoms) pair)
      as (x & y & -> & Hx & Hy & Hxy).
    { apply set_order_NoDup. }
    { apply Hpairs. by left. }
    apply elem_of_set_order in Hx, Hy.
    rewrite mutual_information_zero by (intros p Hp; by apply Hexclusive).
    apply IH.
    - unfold float_add. rewrite Hacc. rewrite Qplus_0_l. apply rnd_0.
    - intros pair' Hpair'. apply Hpairs. by right. }
  destruct (Hloop (combinations (set_order symptoms_object symptoms) 2) 0%Q
              ltac:(reflexivity) ltac:(done)) as (total & Htotal & Heq).
  unfold_result. rewrite Htotal.
  assert (float_add 1 total == 1)%Q as Hone.
  { unfold float_add. rewrite Heq, Qplus_0_r. apply rnd_1. }
  rewrite py_div_Ok by (rewrite Hone; discriminate).
  eexists. split; [done|]. eapply Qeq_trans; [|apply rnd_1].
  apply rnd_proper. rewrite Hone. reflexivity.
Qed.
End Independence.

(** * The further properties on the example catalog *)

Section MoreExamples.
#[local] Existing Instance Reference.runtime.
#[local] Existing Instance Reference.lcg.

Lemma coverage_score_mono_witness :
  ({["x"]} : gset string) ⊆ {["x"; "z"]} ∧
  ∃ coverage coverage',
    _calculate_coverage_score {["x"]} (_get_candidate_diseases example_catalog {["y"]})
      = Ok coverage ∧
    _calculate_coverage_score {["x"; "z"]} (_get_candidate_diseases example_catalog {["y"]})
      = Ok coverage' ∧
    (coverage <= coverage')%Q.
Proof.
  assert (({["x"]} : gset string) ⊆ {["x"; "z"]}) as Hsub by set_solver.
  split; [exact Hsub|].
  exact (coverage_score_mono example_catalog {["y"]} {["x"]} {["x"; "z"]} Hsub).
Defined.

Lemma information_gain_one_group_witness :
  example_catalog ≠ [] ∧ (log2 1 == 0)%Q ∧
  ∃ gain, _calculate_total_information_gain {["y"]} example_catalog = Ok gain ∧
          (gain == rnd (log2 (py_float (length example_catalog))))%Q.
Proof.
  assert (example_catalog ≠ []) as Hne by discriminate.
  assert (log2 1 == 0)%Q as Hlog1 by (vm_compute; reflexivity).
  assert (∀ p q x, p ∈ example_catalog → q ∈ example_catalog →
            x ∈ ({["y"]} : gset string) → (x ∈ p.2 ↔ x ∈ q.2)) as Hsame.
  { assert (∀ p, p ∈ example_catalog → "y" ∈ p.2) as Hy.
    { intros p Hp. apply elem_of_cons in Hp as [->|Hp].
      - apply (bool_decide_unpack _). vm_compute. exact I.
      - apply list_elem_of_singleton in Hp as ->.
        apply (bool_decide_unpack _). vm_compute. exact I. }
    intros p q x Hp Hq Hx. apply elem_of_singleton in Hx as ->.
    split; intros _; by apply Hy. }
  split; [exact Hne|]. split; [exact Hlog1|].
  exact (information_gain_one_group {["y"]} example_catalog Hne Hlog1 Hsame).
Defined.

Lemma match_score_extremes_witness :
  NoDup example_catalog.*1 ∧ ("B", {["y"; "z"]}) ∈ example_catalog ∧
  ({["y"; "z"]} : gset string) ≠ ∅ ∧
  ∃ v, dict_get "B" (get_disease_match_scores example_catalog {["y"]}) = Some v ∧
       ((v == 1)%Q ↔ ({["y"; "z"]} : gset string) ⊆ {["y"]}) ∧
       ((v == 0)%Q ↔ ({["y"; "z"]} : gset string) ## {["y"]}).
Proof.
  assert (NoDup example_catalog.*1) as Hnd
    by (apply (bool_decide_unpack _); vm_compute; exact I).
  assert (("B", {["y"; "z"]}) ∈ example_catalog) as Hin
    by (apply list_elem_of_further, list_elem_of_here).
  assert (({["y"; "z"]} : gset string) ≠ ∅) as Hne
    by (apply (bool_decide_unpack _); vm_compute; exact I).
  split; [exact Hnd|]. split; [exact Hin|]. split; [exact Hne|].
  exact (match_score_extremes example_catalog {["y"]} "B" {["y"; "z"]} Hnd Hin Hne).
Defined.

Lemma greedy_single_symptom_witness :
  all_symptoms example_catalog ∖ {["y"]} ≠ ∅ ∧
  match sorted_by_key_desc
          (symptom_score example_catalog {["y"]}
             (_get_candidate_diseases example_catalog {["y"]}) {["x"]})
          (set_order available_symptoms_object (all_symptoms example_catalog ∖ {["y"]})) with
  | Ok sorted_symptoms =>
      ∃ first rest, sorted_symptoms = first :: rest ∧
        _greedy_selection example_catalog {["y"]}
          (_get_candidate_diseases example_catalog {["y"]})
          (all_symptoms example_catalog ∖ {["y"]}) 1 {["x"]} = Ok {[first]}
  | Err e =>
      _greedy_selection example_catalog {["y"]}
        (_get_candidate_diseases example_catalog {["y"]})
        (all_symptoms example_catalog ∖ {["y"]}) 1 {["x"]} = Err e ∧
      scoring_error example_catalog e
  end.
Proof.
  assert (all_symptoms example_catalog ∖ {["y"]} ≠ ∅) as Hne
    by (apply (bool_decide_unpack _); vm_compute; exact I).
  split; [exact Hne|].
  pose proof (greedy_single_symptom example_catalog {["y"]} {["x"]} Hne) as Hgreedy.
  cbv zeta in Hgreedy. exact Hgreedy.
Defined.


Lemma whole_pool_proposed_witness :
  all_symptoms example_catalog ∖ {["y"]} ≠ ∅ ∧
  (Z.of_nat (size (all_symptoms example_catalog ∖ {["y"]})) ≤ 3)%Z ∧
  (Z.of_nat (size (all_symptoms example_catalog ∖ {["y"]})) ≤ sys_maxsize)%Z ∧
  "genetic" ∈ ["greedy"; "exhaustive"; "genetic"] ∧
  nul_free (all_symptoms example_catalog ∖ {["y"]}) ∧
  match (calculate_next_n_symptoms example_catalog {["y"]} 3 "genetic" None 1%Z).1 with
  | Ok proposal => proposal = all_symptoms example_catalog ∖ {["y"]}
  | Err e =>
      3%Z = Z.of_nat (size (all_symptoms example_catalog ∖ {["y"]})) ∧
      scoring_error example_catalog e
  end.
Proof.
  assert (all_symptoms example_catalog ∖ {["y"]} ≠ ∅) as Hne
    by (apply (bool_decide_unpack _); vm_compute; exact I).
  assert (Z.of_nat (size (all_symptoms example_catalog ∖ {["y"]})) ≤ 3)%Z as Hn
    by (vm_compute; discriminate).
  assert ("genetic" ∈ ["greedy"; "exhaustive"; "genetic"]) as Hmethod
    by (do 2 apply list_elem_of_further; apply list_elem_of_here).
  assert (Z.of_nat (size (all_symptoms example_catalog ∖ {["y"]})) ≤ sys_maxsize)%Z as Hfits
    by (vm_compute; discriminate).
  pose proof example_pool_nul_free as Hnul.
  split; [exact Hne|]. split; [exact Hn|]. split; [exact Hfits|]. split; [exact Hmethod|].
  split; [exact Hnul|].
  pose proof (whole_pool_proposed example_catalog {["y"]} None 3 "genetic" 1%Z
                Hne Hn Hfits Hmethod (fun _ => Hnul)) as Hwhole.
  cbv zeta in Hwhole. exact Hwhole.
Defined.

Lemma single_symptom_methods_agree_witness :
  all_symptoms example_catalog ∖ {["y"]} ≠ ∅ ∧
  ({["y"]} : gset string) ## all_symptoms example_catalog ∖ {["y"]} ∧
  _exhaustive_search example_catalog {["y"]}
    (_get_candidate_diseases example_catalog {["y"]})
    (all_symptoms example_catalog ∖ {["y"]}) 1 {["y"]} =
  _greedy_selection example_catalog {["y"]}
    (_get_candidate_diseases example_catalog {["y"]})
    (all_symptoms example_catalog ∖ {["y"]}) 1 {["y"]}.
Proof.
  assert (all_symptoms example_catalog ∖ {["y"]} ≠ ∅) as Hne
    by (apply (bool_decide_unpack _); vm_compute; exact I).
  assert (({["y"]} : gset string) ## all_symptoms example_catalog ∖ {["y"]}) as Hdisj
    by set_solver.
  split; [exact Hne|]. split; [exact Hdisj|].
  exact (single_symptom_methods_agree example_catalog {["y"]} {["y"]} Hne Hdisj).
Defined.

Lemma first_question_by_set_order_witness :
  all_symptoms example_catalog ≠ ∅ ∧ "exhaustive" ∈ ["greedy"; "exhaustive"] ∧
  ∃ first rest,
    set_order available_symptoms_object (all_symptoms example_catalog ∖ ∅) = first :: rest ∧
    calculate_next_n_symptoms example_catalog ∅ 1 "exhaustive" None 1%Z
    = (Ok {[first]}, 1%Z).
Proof.
  assert (all_symptoms example_catalog ≠ ∅) as Hne
    by (apply (bool_decide_unpack _); vm_compute; exact I).
  assert ("exhaustive" ∈ ["greedy"; "exhaustive"]) as Hmethod
    by (apply list_elem_of_further, list_elem_of_here).
  split; [exact Hne|]. split; [exact Hmethod|].
  exact (proj2 (first_question_by_set_order example_catalog ∅ "exhaustive" 1%Z Hne Hmethod)).
Defined.

Lemma tournament_select_winner_witness :
  [({["x"]} : gset string); {["z"]}] ≠ [] ∧
  length [(1 # 2)%Q; (3 # 4)%Q] = length [({["x"]} : gset string); {["z"]}] ∧
  (0 < 3)%nat ∧
  ∃ winner_idx parent best,
    _tournament_select [{["x"]}; {["z"]}] [(1 # 2)%Q; (3 # 4)%Q] 3 1%Z
    = (Ok parent, (random_indices 2 3 1%Z).2) ∧
    winner_idx ∈ (random_indices 2 3 1%Z).1 ∧
    [({["x"]} : gset string); {["z"]}] !! winner_idx = Some parent ∧
    [(1 # 2)%Q; (3 # 4)%Q] !! winner_idx = Some best ∧
    ∀ i, i ∈ (random_indices 2 3 1%Z).1 →
      ∃ f, [(1 # 2)%Q; (3 # 4)%Q] !! i = Some f ∧ (f <= best)%Q.
Proof.
  assert ([({["x"]} : gset string); {["z"]}] ≠ []) as Hne by discriminate.
  assert (length [(1 # 2)%Q; (3 # 4)%Q] = length [({["x"]} : gset string); {["z"]}])
    as Hlen by reflexivity.
  assert (0 < 3)%nat as Hsize by lia.
  split; [exact Hne|]. split; [exact Hlen|]. split; [exact Hsize|].
  exact (tournament_select_winner [{["x"]}; {["z"]}] [(1 # 2)%Q; (3 # 4)%Q] 3 1%Z
           Hne Hlen Hsize).
Defined.

Lemma genetic_generations_schedule_witness :
  (1 ≤ 1)%Z ∧ nul_free (all_symptoms example_catalog ∖ {["y"]}) ∧
  population_ok (all_symptoms example_catalog ∖ {["y"]}) 1
    (replicate population_size {["x"]}) ∧
  length (replicate population_size ({["x"]} : gset string)) = population_size ∧
  match (repeatM 1
           (generation example_catalog {["y"]}
              (_get_candidate_diseases example_catalog {["y"]})
              (all_symptoms example_catalog ∖ {["y"]}) 1 ∅)
           (replicate population_size {["x"]}, literal (1 # 10)) 1%Z).1 with
  | Ok (population', mutation_rate) =>
      length population' = 49%nat ∧
      (literal (1 # 100) <= mutation_rate)%Q ∧ (mutation_rate <= literal (1 # 10))%Q
  | Err e => scoring_error example_catalog e
  end.
Proof.
  assert (1 ≤ 1)%Z as Hn by lia.
  pose proof example_pool_nul_free as Hnul.
  assert (population_ok (all_symptoms example_catalog ∖ {["y"]}) 1
            (replicate population_size {["x"]})) as Hpop.
  { split; [discriminate|]. apply Forall_replicate. split; [|reflexivity].
    apply (bool_decide_unpack _). vm_compute. exact I. }
  assert (length (replicate population_size ({["x"]} : gset string)) = population_size)
    as Hlen by reflexivity.
  split; [exact Hn|]. split; [exact Hnul|]. split; [exact Hpop|]. split; [exact Hlen|].
  pose proof (genetic_generations_schedule example_catalog {["y"]} ∅ 1
                (replicate population_size {["x"]}) 1 1%Z Hn Hnul Hpop Hlen) as Hschedule.
  cbv zeta in Hschedule.
  match type of Hschedule with
  | match ?r with _ => _ end =>
      destruct r as [[population' mutation_rate]|e]; [|exact Hschedule]
  end.
  destruct Hschedule as (_ & Hlen' & Hrate). split; [exact Hlen'|exact Hrate].
Defined.


Lemma independence_score_exclusive_witness :
  (∀ (p : string * gset string) (s1 s2 : string),
     p ∈ [("A", ({["x"]} : gset string)); ("B", {["z"]})] →
     s1 ∈ ({["x"; "z"]} : gset string) → s2 ∈ ({["x"; "z"]} : gset string) → s1 ≠ s2 →
     ¬ (s1 ∈ p.2 ∧ s2 ∈ p.2)) ∧
  ∃ score,
    _calculate_independence_score [("A", {["x"]}); ("B", {["z"]})] {["x"; "z"]} = Ok score ∧
    (score == 1)%Q.
Proof.
  assert (∀ (p : string * gset string) (s1 s2 : string),
     p ∈ [("A", ({["x"]} : gset string)); ("B", {["z"]})] →
     s1 ∈ ({["x"; "z"]} : gset string) → s2 ∈ ({["x"; "z"]} : gset string) → s1 ≠ s2 →
     ¬ (s1 ∈ p.2 ∧ s2 ∈ p.2)) as Hexclusive.
  { intros p s1 s2 Hp _ _ Hne [H1 H2].
    apply elem_of_cons in Hp as [->|Hp]; simpl in *.
    - apply elem_of_singleton in H1, H2. congruence.
    - apply list_elem_of_singleton in Hp as ->. simpl in *.
      apply elem_of_singleton in H1, H2. congruence. }
  split; [exact Hexclusive|].
  exact (independence_score_exclusive [("A", {["x"]}); ("B", {["z"]})] {["x"; "z"]}
           Hexclusive).
Defined.
End MoreExamples.
